(** * Comunidades em grafos: Louvain and Leiden over a shallow embedding

    The development follows [leiden_algt.py].  Python dictionaries are
    insertion-ordered association lists, the graph is the adjacency
    dictionary of a [networkx.Graph], node and community identifiers are
    integers (refinement computes [max(...) + 1] on them), numbers are
    exact rationals and, in the module [B64], the floats of the machine,
    the process-wide generator of the [random] module is
    a stream of draws that is threaded through every function that
    shuffles, and a loop without a syntactic bound receives a number of
    turns it may take.  What the program prints is left out. *)

From Stdlib Require Import List ZArith QArith Qabs Lia Lqa Bool Permutation
  Sorted Floats.
Import ListNotations.

(** ** Exceptions, results and the monad that threads them *)

(** The exceptions the program can meet: [KeyError] of a dictionary with
    node or community keys, [KeyError('weight')] of the attributes of an
    edge, and the error of networkx for a node that is not in the graph. *)
Inductive exn : Type :=
| KeyError (k : Z)
| KeyErrorWeight
| NetworkXError (n : Z).

(** What a call ends in: a value, an exception, or [Diverge] when a loop
    has not ended within the turns it was given. *)
Inductive result (A : Type) : Type :=
| Ok (a : A)
| Raise (e : exn)
| Diverge.

Arguments Ok {A} a.
Arguments Raise {A} e.
Arguments Diverge {A}.

Definition bind {A B : Type} (r : result A) (k : A -> result B) : result B :=
  match r with
  | Ok a => k a
  | Raise e => Raise e
  | Diverge => Diverge
  end.

Notation "x <- e ;; k" := (bind e (fun x => k))
  (at level 61, e at next level, right associativity).
Notation "' p <- e ;; k" := (bind e (fun p => k))
  (at level 61, p pattern, e at next level, right associativity).

(** [for x in l: acc = f acc x], stopping at the first exception. *)
Fixpoint foldM {A B : Type} (f : B -> A -> result B) (l : list A) (b : B)
  : result B :=
  match l with
  | [] => Ok b
  | x :: l' => b' <- f b x ;; foldM f l' b'
  end.

(** ** Python dictionaries with integer keys, in insertion order *)

Module Dict.

Definition t (V : Type) : Type := list (Z * V).

Fixpoint get {V : Type} (d : t V) (k : Z) : option V :=
  match d with
  | [] => None
  | (k', v) :: d' => if Z.eqb k k' then Some v else get d' k
  end.

Definition mem {V : Type} (d : t V) (k : Z) : bool :=
  match get d k with Some _ => true | None => false end.

(** [d[k] = v]: an existing key keeps its position, a new one goes last. *)
Fixpoint set {V : Type} (d : t V) (k : Z) (v : V) : t V :=
  match d with
  | [] => [(k, v)]
  | (k', v') :: d' =>
      if Z.eqb k k' then (k', v) :: d' else (k', v') :: set d' k v
  end.

Definition keys {V : Type} (d : t V) : list Z := map fst d.
Definition values {V : Type} (d : t V) : list V := map snd d.

(** [d[k]] as an expression. *)
Definition item {V : Type} (d : t V) (k : Z) : result V :=
  match get d k with
  | Some v => Ok v
  | None => Raise (KeyError k)
  end.

End Dict.

(** Membership in a list of integers ([x in s]). *)
Definition memZ (x : Z) (l : list Z) : bool := existsb (Z.eqb x) l.

(** Python's [sum]: left to right, from zero. *)
Definition soma (l : list Q) : Q := fold_left Qplus l 0.

(** Python's [a > b] on numbers. *)
Definition Qgt_bool (a b : Q) : bool := negb (Qle_bool a b).

(** ** The part of networkx.Graph the program uses

    [_adj] maps a node to the dictionary of its neighbours; the value of a
    neighbour is the attribute dictionary of the edge, of which only the
    entry ['weight'] is ever read or written: [None] when it is absent. *)

Definition attrs : Type := option Q.

Definition Graph : Type := Dict.t (Dict.t attrs).

(** [data.get('weight', 1.0)] *)
Definition get_weight (d : attrs) : Q :=
  match d with Some w => w | None => 1 end.

(** [G.nodes()] *)
Definition nodes (G : Graph) : list Z := Dict.keys G.

(** The weighted degree of [n] given its neighbour dictionary: the weights
    of the incident edges, a self-loop being added a second time. *)
Definition degree_nbrs (n : Z) (nbrs : Dict.t attrs) : Q :=
  soma (map get_weight (Dict.values nbrs))
  + match Dict.get nbrs n with Some d => get_weight d | None => 0 end.

(** [G.degree(n, weight='weight')] *)
Definition degree (G : Graph) (n : Z) : result Q :=
  match Dict.get G n with
  | Some nbrs => Ok (degree_nbrs n nbrs)
  | None => Raise (NetworkXError n)
  end.

(** [G.size(weight='weight')]: half the sum of the weighted degrees. *)
Definition size (G : Graph) : Q :=
  soma (map (fun e => degree_nbrs (fst e) (snd e)) G) / 2.

(** [G.subgraph(ns)]: the nodes of [G] that are in [ns], each with its
    neighbours that are in [ns].  The view is listed here in the order of
    [G]; networkx may list a small view in the order of the set [ns]
    instead.  The program sums over a view, collects the communities of
    its neighbours in a set, and shuffles its nodes before it visits
    them, so that the order of a view decides no result that the order
    of the draws does not decide as well. *)
Definition subgraph (G : Graph) (ns : list Z) : Graph :=
  map (fun e => (fst e, filter (fun a => memZ (fst a) ns) (snd e)))
      (filter (fun e => memZ (fst e) ns) G).

(** [G.neighbors(n)] *)
Definition neighbors (G : Graph) (n : Z) : result (list Z) :=
  match Dict.get G n with
  | Some nbrs => Ok (Dict.keys nbrs)
  | None => Raise (NetworkXError n)
  end.

(** [G.adj[n].items()] *)
Definition adj_items (G : Graph) (n : Z) : result (list (Z * attrs)) :=
  match Dict.get G n with
  | Some nbrs => Ok nbrs
  | None => Raise (KeyError n)
  end.

(** [G.edges(data=True)]: every node in order, with its neighbours that
    have not been visited yet, so that an edge is reported once. *)
Fixpoint edges_from (G : Graph) (seen : list Z) : list (Z * Z * attrs) :=
  match G with
  | [] => []
  | (n, nbrs) :: G' =>
      map (fun a => (n, fst a, snd a))
          (filter (fun a => negb (memZ (fst a) seen)) nbrs)
      ++ edges_from G' (n :: seen)
  end.

Definition edges (G : Graph) : list (Z * Z * attrs) := edges_from G [].

(** [G.add_node(n)] *)
Definition add_node (G : Graph) (n : Z) : Graph :=
  if Dict.mem G n then G else G ++ [(n, [])].

(** [G.add_nodes_from(l)] *)
Definition add_nodes_from (G : Graph) (l : list Z) : Graph :=
  fold_left add_node l G.

(** [G.has_edge(u, v)] *)
Definition has_edge (G : Graph) (u v : Z) : bool :=
  match Dict.get G u with
  | Some nbrs => Dict.mem nbrs v
  | None => false
  end.

(** [G._adj[u][v] = d] *)
Definition set_adj (G : Graph) (u v : Z) (d : attrs) : Graph :=
  match Dict.get G u with
  | Some nbrs => Dict.set G u (Dict.set nbrs v d)
  | None => G
  end.

(** [G.add_edge(u, v, weight=w)]: the end points become nodes, and the one
    attribute dictionary is stored under both directions. *)
Definition add_edge (G : Graph) (u v : Z) (w : Q) : Graph :=
  let G1 := add_node (add_node G u) v in
  set_adj (set_adj G1 u v (Some w)) v u (Some w).

(** [G[u][v]['weight'] += w]: the attribute dictionary is shared by both
    directions. *)
Definition add_weight (G : Graph) (u v : Z) (w : Q) : result Graph :=
  nbrs <- Dict.item G u ;;
  d <- Dict.item nbrs v ;;
  match d with
  | Some w0 =>
      Ok (set_adj (set_adj G u v (Some (w0 + w))) v u (Some (w0 + w)))
  | None => Raise KeyErrorWeight
  end.

(** ** The generator of the [random] module

    The state of the generator is the stream of the numbers it is going to
    draw; [_randbelow(n)] takes the next one into [0, n), and zero once
    the stream is spent. *)

Definition rng : Type := list nat.

Definition randbelow (n : nat) (s : rng) : nat * rng :=
  match s with
  | [] => (0%nat, [])
  | r :: s' => (Nat.modulo r n, s')
  end.

Fixpoint update {A : Type} (l : list A) (i : nat) (x : A) : list A :=
  match l, i with
  | [], _ => []
  | _ :: l', O => x :: l'
  | y :: l', S i' => y :: update l' i' x
  end.

(** [x[i], x[j] = x[j], x[i]] *)
Definition swap {A : Type} (l : list A) (i j : nat) : list A :=
  match nth_error l i, nth_error l j with
  | Some a, Some b => update (update l i b) j a
  | _, _ => l
  end.

(** [random.shuffle]: for [i] from [len(x) - 1] down to [1], exchange
    [x[i]] with [x[randbelow(i + 1)]]. *)
Fixpoint shuffle_from {A : Type} (i : nat) (x : list A) (s : rng)
  : list A * rng :=
  match i with
  | O => (x, s)
  | S i' =>
      let (j, s') := randbelow (i + 1) s in
      shuffle_from i' (swap x i j) s'
  end.

Definition shuffle {A : Type} (x : list A) (s : rng) : list A * rng :=
  shuffle_from (length x - 1) x s.

(** ** The algorithm *)

Section Algoritmo.

(** The order in which a Python [set] is iterated is fixed by the
    interpreter; [set_iter l] is the order in which the set built by
    adding the elements of [l] one after the other is iterated.  A set
    is represented by the sequence of its additions. *)
Variable set_iter : list Z -> list Z.

Definition pyset : Type := list Z.

(** [agrupar_por_comunidade] *)
Definition agrupar_por_comunidade (particao : Dict.t Z) : Dict.t pyset :=
  fold_left
    (fun mapa e =>
       let '(no, id_comunidade) := e in
       match Dict.get mapa id_comunidade with
       | Some s => Dict.set mapa id_comunidade (s ++ [no])
       | None => Dict.set mapa id_comunidade [no]
       end)
    particao [].

(** [sum(G.degree(no, weight='weight') for no in nos)] *)
Definition soma_graus (G : Graph) (nos : pyset) : result Q :=
  foldM (fun acc no => k <- degree G no ;; Ok (acc + k)) (set_iter nos) 0.

(** [calcular_modularidade] *)
Definition calcular_modularidade (G : Graph) (particao : Dict.t Z)
  : result Q :=
  let comunidades := agrupar_por_comunidade particao in
  let m := size G in
  if Qeq_bool m 0 then Ok 0
  else
    foldM
      (fun modularidade_total e =>
         let nos_comunidade := snd e in
         soma_graus <- soma_graus G nos_comunidade ;;
         let subgrafo := subgraph G nos_comunidade in
         let peso_arestas_internas := size subgrafo in
         let frac_interna := peso_arestas_internas / m in
         let frac_graus := soma_graus / (2 * m) in
         Ok (modularidade_total + (frac_interna - frac_graus ^ 2)))
      comunidades 0.

(** [calc_propriedades] *)
Definition calc_propriedades (G : Graph) (nodes_in_community : pyset)
  : result (Q * Q) :=
  grau_total <- soma_graus G nodes_in_community ;;
  let peso_total := size (subgraph G nodes_in_community) in
  Ok (grau_total, peso_total).

(** [{n for n, c in particao.items() if c == id}] *)
Definition nos_em (particao : Dict.t Z) (id : Z) : pyset :=
  map fst (filter (fun e => Z.eqb (snd e) id) particao).

(** The loop of [calc_delta_q] over the neighbours of the node. *)
Definition pesos_para (particao : Dict.t Z) (atual alvo : Z)
  (vizinhos : list (Z * attrs)) : result (Q * Q) :=
  foldM
    (fun acc e =>
       let '(no_k_para_atual, no_k_para_alvo) := acc in
       let '(vizinho, data) := e in
       let peso := get_weight data in
       c1 <- Dict.item particao vizinho ;;
       let no_k_para_atual :=
         if Z.eqb c1 atual then no_k_para_atual + peso
         else no_k_para_atual in
       c2 <- Dict.item particao vizinho ;;
       let no_k_para_alvo :=
         if Z.eqb c2 alvo then no_k_para_alvo + peso
         else no_k_para_alvo in
       Ok (no_k_para_atual, no_k_para_alvo))
    vizinhos (0, 0).

(** [calc_delta_q] *)
Definition calc_delta_q (G : Graph) (particao : Dict.t Z)
  (no_a_mover id_comunidade_alvo : Z) : result Q :=
  let m := size G in
  if Qeq_bool m 0 then Ok 0
  else
    id_comunidade_atual <- Dict.item particao no_a_mover ;;
    if Z.eqb id_comunidade_atual id_comunidade_alvo then Ok 0
    else
      let nos_em_alvo := nos_em particao id_comunidade_alvo in
      let nos_em_atual := nos_em particao id_comunidade_atual in
      '(grau_comun_atual, peso_comun_atual) <-
        calc_propriedades G nos_em_atual ;;
      '(grau_alvo_atual, peso_alvo_atual) <-
        calc_propriedades G nos_em_alvo ;;
      let contrib_antes :=
        (peso_comun_atual / m - (grau_comun_atual / (2 * m)) ^ 2)
        + (peso_alvo_atual / m - (grau_alvo_atual / (2 * m)) ^ 2) in
      no_k <- degree G no_a_mover ;;
      vizinhos <- adj_items G no_a_mover ;;
      '(no_k_para_atual, no_k_para_alvo) <-
        pesos_para particao id_comunidade_atual id_comunidade_alvo
          vizinhos ;;
      let novo_grau_comun := grau_comun_atual - no_k in
      let novo_peso_comun := peso_comun_atual - no_k_para_atual in
      let novo_grau_alvo := grau_alvo_atual + no_k in
      let novo_peso_alvo := peso_alvo_atual + no_k_para_alvo in
      let contrib_depois :=
        (novo_peso_comun / m - (novo_grau_comun / (2 * m)) ^ 2)
        + (novo_peso_alvo / m - (novo_grau_alvo / (2 * m)) ^ 2) in
      Ok (contrib_depois - contrib_antes).

(** *** Local moving *)

(** [{comunidades[vizinho] for vizinho in H.neighbors(no)}] *)
Definition comunidades_dos_vizinhos (H : Graph) (comunidades : Dict.t Z)
  (no : Z) : result pyset :=
  vizinhos <- neighbors H no ;;
  foldM (fun acc vizinho =>
           c <- Dict.item comunidades vizinho ;; Ok (acc ++ [c]))
        vizinhos [].

(** The loop over the communities of the neighbours: the best gain seen
    so far and the community that gives it. *)
Definition melhor_vizinha (G_completo : Graph) (comunidades : Dict.t Z)
  (no comunidade_atual : Z) (vizinhos_comunidades : list Z)
  : result (Z * Q) :=
  foldM
    (fun acc comunidade_vizinho =>
       let '(melhor_comunidade, melhor_delta_q) := acc in
       if negb (Z.eqb comunidade_atual comunidade_vizinho) then
         delta_q <-
           calc_delta_q G_completo comunidades no comunidade_vizinho ;;
         if Qgt_bool delta_q melhor_delta_q
         then Ok (comunidade_vizinho, delta_q)
         else Ok (melhor_comunidade, melhor_delta_q)
       else Ok (melhor_comunidade, melhor_delta_q))
    vizinhos_comunidades (comunidade_atual, 0).

(** The body of [for no in lista_nos]. *)
Definition visitar (H G_completo : Graph) (st : Dict.t Z * bool) (no : Z)
  : result (Dict.t Z * bool) :=
  let '(comunidades, melhorou) := st in
  comunidade_atual <- Dict.item comunidades no ;;
  vizinhos_comunidades <- comunidades_dos_vizinhos H comunidades no ;;
  '(melhor_comunidade, melhor_delta_q) <-
    melhor_vizinha G_completo comunidades no comunidade_atual
      (set_iter vizinhos_comunidades) ;;
  if Qgt_bool melhor_delta_q 0
  then Ok (Dict.set comunidades no melhor_comunidade, true)
  else Ok (comunidades, melhorou).

(** [encontrar_movimentacao_local]: [fuel] bounds the number of sweeps
    of [while melhorou]. *)
Fixpoint encontrar_movimentacao_local (fuel : nat) (H G_completo : Graph)
  (comunidades : Dict.t Z) (s : rng) : result (Dict.t Z * rng) :=
  match fuel with
  | O => Diverge
  | S fuel' =>
      let (lista_nos, s') := shuffle (nodes H) s in
      '(comunidades', melhorou) <-
        foldM (visitar H G_completo) lista_nos (comunidades, false) ;;
      if melhorou
      then encontrar_movimentacao_local fuel' H G_completo comunidades' s'
      else Ok (comunidades', s')
  end.

(** *** Refinement *)

(** [max(particao_alvo.values()) + 1 if particao_alvo else 0] *)
Definition primeiro_id_novo (particao_alvo : Dict.t Z) : Z :=
  match Dict.values particao_alvo with
  | [] => 0
  | c :: cs => (fold_left Z.max cs c + 1)%Z
  end.

(** The body of [for no, cid_local in comunidades_locais.items()]. *)
Definition renomear (particao_foi_dividida : bool) (id_comunidade : Z)
  (st : Dict.t Z * Dict.t Z * Z) (e : Z * Z)
  : result (Dict.t Z * Dict.t Z * Z) :=
  let '(particao_refinada_final, mapa_id, novo_id_comunidade) := st in
  let '(no, cid_local) := e in
  if particao_foi_dividida then
    let '(mapa_id, novo_id_comunidade) :=
      if negb (Dict.mem mapa_id cid_local)
      then (Dict.set mapa_id cid_local novo_id_comunidade,
            (novo_id_comunidade + 1)%Z)
      else (mapa_id, novo_id_comunidade) in
    id <- Dict.item mapa_id cid_local ;;
    Ok (Dict.set particao_refinada_final no id, mapa_id,
        novo_id_comunidade)
  else
    Ok (Dict.set particao_refinada_final no id_comunidade, mapa_id,
        novo_id_comunidade).

(** The body of [for id_comunidade in ids_comunidades]. *)
Definition refinar_comunidade (fuel : nat) (G : Graph)
  (particao_alvo : Dict.t Z) (st : Dict.t Z * Z * rng) (id_comunidade : Z)
  : result (Dict.t Z * Z * rng) :=
  let '(particao_refinada_final, novo_id_comunidade, s) := st in
  let nos_comunidade :=
    map fst (filter (fun e => Z.eqb (snd e) id_comunidade) particao_alvo) in
  if (length nos_comunidade <=? 1)%nat then Ok st
  else
    let subgrafo := subgraph G nos_comunidade in
    let particao_unica :=
      fold_left (fun p no => Dict.set p no no) nos_comunidade
                particao_alvo in
    '(particao_refinada_por_subgrafo, s') <-
      encontrar_movimentacao_local fuel subgrafo G particao_unica s ;;
    let comunidades_locais :=
      filter (fun e => memZ (fst e) nos_comunidade)
             particao_refinada_por_subgrafo in
    let particao_foi_dividida :=
      (1 <? length (set_iter (Dict.values comunidades_locais)))%nat in
    '(particao_refinada_final', _, novo_id_comunidade') <-
      foldM (renomear particao_foi_dividida id_comunidade)
            comunidades_locais
            (particao_refinada_final, [], novo_id_comunidade) ;;
    Ok (particao_refinada_final', novo_id_comunidade', s').

(** [refinar_particao] *)
Definition refinar_particao (fuel : nat) (G : Graph)
  (particao_alvo : Dict.t Z) (s : rng) : result (Dict.t Z * rng) :=
  let novo_id_comunidade := primeiro_id_novo particao_alvo in
  let ids_comunidades := set_iter (Dict.values particao_alvo) in
  '(particao_refinada_final, _, s') <-
    foldM (refinar_comunidade fuel G particao_alvo) ids_comunidades
          (particao_alvo, novo_id_comunidade, s) ;;
  Ok (particao_refinada_final, s').

(** *** Aggregation *)

(** The body of [for u, v, data in G.edges(data=True)]. *)
Definition agrupar_aresta (particao : Dict.t Z) (G_agr : Graph)
  (e : Z * Z * attrs) : result Graph :=
  let '(u, v, data) := e in
  c_u <- Dict.item particao u ;;
  c_v <- Dict.item particao v ;;
  let peso := get_weight data in
  if has_edge G_agr c_u c_v
  then add_weight G_agr c_u c_v peso
  else Ok (add_edge G_agr c_u c_v peso).

(** [agrupar_grafo] *)
Definition agrupar_grafo (G : Graph) (particao : Dict.t Z) : result Graph :=
  let G_agr := add_nodes_from [] (set_iter (Dict.values particao)) in
  foldM (agrupar_aresta particao) (edges G) G_agr.

(** *** The levels *)

(** [{no: no for no in G.nodes()}] *)
Definition particao_singular (G : Graph) : Dict.t Z :=
  fold_left (fun p no => Dict.set p no no) (nodes G) [].

(** The mapping of the partition of a level back to the original nodes:
    [for no_original, id in no_em_mapa_comunidade.items():
       if id in particao: mapeada[no_original] = particao[id]] *)
Definition mapear_de_volta (no_em_mapa_comunidade particao : Dict.t Z)
  : result (Dict.t Z) :=
  foldM
    (fun particao_atual_mapeada e =>
       let '(no_original, id_comunidade) := e in
       if Dict.mem particao id_comunidade then
         c <- Dict.item particao id_comunidade ;;
         Ok (Dict.set particao_atual_mapeada no_original c)
       else Ok particao_atual_mapeada)
    no_em_mapa_comunidade [].

(** The state of [while True]: the working graph, the level mapping, the
    best partition and its modularity, and the history. *)
Record estado : Type := Estado {
  grafo_atual : Graph;
  no_em_mapa_comunidade : Dict.t Z;
  melhor_particao_geral : Dict.t Z;
  melhor_modularidade : Q;
  modularidades_por_nivel : list Q
}.

(** What one turn of [while True] does after the partition of the level
    has been found: [inl] is a [return], [inr] the state of the next
    turn. *)
Definition avaliar_nivel (G_orig : Graph) (st : estado)
  (particao : Dict.t Z)
  : result ((Dict.t Z * list Q) + estado) :=
  let G := grafo_atual st in
  particao_atual_mapeada <-
    mapear_de_volta (no_em_mapa_comunidade st) particao ;;
  modularidade_atual <-
    calcular_modularidade G_orig particao_atual_mapeada ;;
  if Qle_bool modularidade_atual (melhor_modularidade st) then
    Ok (inl (melhor_particao_geral st, modularidades_por_nivel st))
  else
    let melhor_modularidade := modularidade_atual in
    let melhor_particao_geral := particao_atual_mapeada in
    let modularidades_por_nivel :=
      modularidades_por_nivel st ++ [melhor_modularidade] in
    let no_em_mapa_comunidade := melhor_particao_geral in
    G_novo <- agrupar_grafo G particao ;;
    if (length (nodes G_novo) =? length (nodes G))%nat then
      Ok (inl (melhor_particao_geral, modularidades_por_nivel))
    else
      Ok (inr (Estado G_novo no_em_mapa_comunidade melhor_particao_geral
                      melhor_modularidade modularidades_por_nivel)).

Definition estado_inicial (G_orig : Graph) : estado :=
  Estado G_orig (particao_singular G_orig) (particao_singular G_orig)
         (-1) [].

(** [leiden]: [niveis] bounds the turns of [while True], [fuel] the
    sweeps of every local moving; [leiden fuel] gives [fuel] of both. *)
Fixpoint leiden_niveis (niveis fuel : nat) (G_orig : Graph) (st : estado)
  (s : rng) : result (Dict.t Z * list Q * rng) :=
  match niveis with
  | O => Diverge
  | S niveis' =>
      let G := grafo_atual st in
      let particao_inicial := particao_singular G in
      '(particao, s1) <-
        encontrar_movimentacao_local fuel G G particao_inicial s ;;
      '(particao, s2) <- refinar_particao fuel G particao s1 ;;
      r <- avaliar_nivel G_orig st particao ;;
      match r with
      | inl (p, h) => Ok (p, h, s2)
      | inr st' => leiden_niveis niveis' fuel G_orig st' s2
      end
  end.

Definition leiden (fuel : nat) (G_orig : Graph) (s : rng)
  : result (Dict.t Z * list Q * rng) :=
  leiden_niveis fuel fuel G_orig (estado_inicial G_orig) s.

(** [louvain] *)
Fixpoint louvain_niveis (niveis fuel : nat) (G_orig : Graph) (st : estado)
  (s : rng) : result (Dict.t Z * list Q * rng) :=
  match niveis with
  | O => Diverge
  | S niveis' =>
      let G := grafo_atual st in
      let particao_inicial := particao_singular G in
      '(particao, s1) <-
        encontrar_movimentacao_local fuel G G particao_inicial s ;;
      r <- avaliar_nivel G_orig st particao ;;
      match r with
      | inl (p, h) => Ok (p, h, s1)
      | inr st' => louvain_niveis niveis' fuel G_orig st' s1
      end
  end.

Definition louvain (fuel : nat) (G_orig : Graph) (s : rng)
  : result (Dict.t Z * list Q * rng) :=
  louvain_niveis fuel fuel G_orig (estado_inicial G_orig) s.

End Algoritmo.

(** ** Graphs for the examples *)

(** The order of a set of small non-negative integers: ascending, each
    element once. *)
Fixpoint inserir (x : Z) (l : list Z) : list Z :=
  match l with
  | [] => [x]
  | y :: l' =>
      if Z.eqb x y then l
      else if Z.ltb x y then x :: l
      else y :: inserir x l'
  end.

Definition ordem_crescente (l : list Z) : list Z :=
  fold_right inserir [] l.

(** [G = nx.Graph(); G.add_weighted_edges_from(l)] *)
Definition grafo_de (l : list (Z * Z * Q)) : Graph :=
  fold_left (fun G e => let '(u, v, w) := e in add_edge G u v w) l [].

(** The graph with the nodes [l] and no edge. *)
Definition grafo_vazio (l : list Z) : Graph :=
  map (fun n => (n, [])) l.

(** ** Well-formed inputs *)

(** Two attribute dictionaries are the same object. *)
Definition attrs_eqb (a b : attrs) : bool :=
  match a, b with
  | Some x, Some y =>
      Z.eqb (Qnum x) (Qnum y) && Pos.eqb (Qden x) (Qden y)
  | None, None => true
  | _, _ => false
  end.

Fixpoint nodupb (l : list Z) : bool :=
  match l with
  | [] => true
  | x :: l' => negb (memZ x l') && nodupb l'
  end.

(** [G._adj[u][v]], when the edge is there. *)
Definition adj (G : Graph) (u v : Z) : option attrs :=
  match Dict.get G u with
  | Some nbrs => Dict.get nbrs v
  | None => None
  end.

(** What networkx maintains of an undirected graph: a node is listed
    once, a neighbour is listed once, and an edge is stored under both
    directions with the same attributes. *)
Definition wf_graph (G : Graph) : bool :=
  nodupb (nodes G)
  && forallb
       (fun e =>
          nodupb (Dict.keys (snd e))
          && forallb
               (fun a =>
                  match adj G (fst a) (fst e) with
                  | Some d => attrs_eqb d (snd a)
                  | None => false
                  end)
               (snd e))
       G.

(** Every edge has a positive weight. *)
Definition pesos_positivos (G : Graph) : bool :=
  forallb
    (fun e => forallb (fun a => Qgt_bool (get_weight (snd a)) 0) (snd e)) G.

(** A dictionary lists a key once. *)
Definition wf_dict {V : Type} (d : Dict.t V) : bool := nodupb (Dict.keys d).

(** A partition that has every node of the graph as a key. *)
Definition cobre (G : Graph) (particao : Dict.t Z) : bool :=
  forallb (fun n => Dict.mem particao n) (nodes G).

(** The domain of a partition is the node set of the graph. *)
Definition particao_de (G : Graph) (particao : Dict.t Z) : bool :=
  wf_dict particao
  && forallb (fun n => Dict.mem particao n) (nodes G)
  && forallb (fun n => Dict.mem G n) (Dict.keys particao).

(** A partition of some of the nodes of the graph. *)
Definition particao_parcial (G : Graph) (particao : Dict.t Z) : bool :=
  wf_dict particao && forallb (fun n => Dict.mem G n) (Dict.keys particao).

(** The value of a result, for statements up to equality of rationals. *)
Definition vale (r : result Q) (q : Q) : Prop :=
  match r with
  | Ok x => x == q
  | _ => False
  end.

(** The partition a result carries. *)
Definition particao_de_resultado {A : Type} (r : result (Dict.t Z * A))
  : result (Dict.t Z) :=
  p <- r ;; Ok (fst p).

(** A history that increases strictly from each entry to the next. *)
Fixpoint crescente (h : list Q) : Prop :=
  match h with
  | [] => True
  | x :: h' =>
      match h' with
      | [] => True
      | y :: _ => x < y /\ crescente h'
      end
  end.

(** ** The quantities of the specification *)

(** The sum of [f] over a list. *)
Fixpoint somaf {A : Type} (f : A -> Q) (l : list A) : Q :=
  match l with
  | [] => 0
  | x :: l' => f x + somaf f l'
  end.

(** The total weight: the weights of the edges, each edge once. *)
Definition peso_total (G : Graph) : Q :=
  somaf (fun e => get_weight (snd e)) (edges G).

(** The weighted degree of a node, zero outside the graph. *)
Definition grau (G : Graph) (n : Z) : Q :=
  match Dict.get G n with
  | Some nbrs => degree_nbrs n nbrs
  | None => 0
  end.

(** Sigma-in of a community: the weights of the edges with both ends in
    it, a self-loop once. *)
Definition peso_interno (G : Graph) (membros : list Z) : Q :=
  somaf (fun e => get_weight (snd e))
        (filter (fun e => memZ (fst (fst e)) membros
                          && memZ (snd (fst e)) membros)
                (edges G)).

(** Sigma-deg of a community: the weighted degrees of its members. *)
Definition soma_dos_graus (G : Graph) (membros : list Z) : Q :=
  somaf (grau G) membros.

(** The contribution of a community to the modularity. *)
Definition contribuicao (G : Graph) (membros : list Z) : Q :=
  peso_interno G membros / peso_total G
  - (soma_dos_graus G membros / (2 * peso_total G)) ^ 2.

(** The community identifiers of a partition, each once, in the order in
    which they first appear. *)
Fixpoint distintos (l : list Z) : list Z :=
  match l with
  | [] => []
  | x :: l' => x :: filter (fun y => negb (Z.eqb y x)) (distintos l')
  end.

(** The communities of a partition with their members, in the order in
    which the communities first appear. *)
Definition grupos (particao : Dict.t Z) : Dict.t (list Z) :=
  map (fun c => (c, nos_em particao c)) (distintos (Dict.values particao)).

(** The modularity of the specification: the sum of the contributions of
    the communities of the partition, zero on a graph without weight. *)
Definition modularidade (G : Graph) (particao : Dict.t Z) : Q :=
  if Qeq_bool (peso_total G) 0 then 0
  else somaf (fun c => contribuicao G (nos_em particao c))
             (distintos (Dict.values particao)).

(** ** Weights between nodes *)

(** The weight of the edge between [u] and [v], zero when there is none. *)
Definition peso_entre (G : Graph) (u v : Z) : Q :=
  match adj G u v with
  | Some d => get_weight d
  | None => 0
  end.

(** Sigma-in of a community from the weights between its members: every
    pair of members is met from both sides and a self-loop is added a
    second time, as in a sum of degrees, and the half is taken. *)
Definition peso_dentro (G : Graph) (membros : list Z) : Q :=
  somaf (fun u => somaf (peso_entre G u) membros + peso_entre G u u) membros
  / 2.

(** The sum of [w u v] over the pairs of a list in which [v] is not before
    [u]: the order in which [edges] meets the edges. *)
Fixpoint soma_triangular (w : Z -> Z -> Q) (l : list Z) : Q :=
  match l with
  | [] => 0
  | u :: l' => somaf (w u) (u :: l') + soma_triangular w l'
  end.

(** The weight between two nodes that satisfy [p]. *)
Definition peso_restrito (G : Graph) (p : Z -> bool) (u v : Z) : Q :=
  if p u && p v then peso_entre G u v else 0.

(** The two assignments of an edge: [_adj[u][v] = d; _adj[v][u] = d]. *)
Definition por_aresta (G : Graph) (u v : Z) (d : attrs) : Graph :=
  set_adj (set_adj G u v d) v u d.

(** The weight [w] on the pair of [u] and [v], in both directions. *)
Definition peso_par (u v : Z) (w : Q) (x y : Z) : Q :=
  if (Z.eqb x v && Z.eqb y u) || (Z.eqb x u && Z.eqb y v) then w else 0.

(** ** The invariants of the loops *)

(** Refinement.  What holds of the refined partition [F] and of the next
    new identifier [hi] while the community [c] is renamed; the
    identifiers given out for [c] start at [lo]. *)
Definition inv_refinar (P : Dict.t Z) (c lo : Z) (F : Dict.t Z) (hi : Z)
  : Prop :=
  Dict.keys F = Dict.keys P
  /\ (primeiro_id_novo P <= lo <= hi)%Z
  /\ (forall a ca fa,
         Dict.get P a = Some ca -> Dict.get F a = Some fa ->
         fa = ca \/ (primeiro_id_novo P <= fa < hi)%Z)
  /\ (forall a ca fa,
         Dict.get P a = Some ca -> Dict.get F a = Some fa ->
         (lo <= fa)%Z -> ca = c)
  /\ (forall a b ca cb f,
         Dict.get P a = Some ca -> Dict.get P b = Some cb ->
         Dict.get F a = Some f -> Dict.get F b = Some f ->
         (primeiro_id_novo P <= f < lo)%Z -> ca = cb).

(** Aggregation.  What holds of the aggregated graph while the edges are
    added: it is a graph, its nodes are the communities, and every edge
    has its weight. *)
Definition inv_agrupar (set_iter : list Z -> list Z) (G : Graph)
  (P : Dict.t Z) (Ga : Graph) : Prop :=
  wf_graph Ga = true
  /\ nodes Ga = set_iter (Dict.values P)
  /\ forall x y d, adj Ga x y = Some d ->
       exists w, d = Some w /\ (pesos_positivos G = true -> 0 < w).

(** The levels.  What holds of the state of [while True] at the start of
    every turn: the working graph is a graph of positive weights with no
    more nodes than the original one, the level mapping sends every
    original node to a node of the working graph, the best partition
    covers the original graph, and the history increases up to the best
    modularity. *)
Definition inv_estado (G_orig : Graph) (st : estado) : Prop :=
  wf_graph (grafo_atual st) = true
  /\ pesos_positivos (grafo_atual st) = true
  /\ (length (nodes (grafo_atual st)) <= length (nodes G_orig))%nat
  /\ particao_de G_orig (no_em_mapa_comunidade st) = true
  /\ (forall c, In c (Dict.values (no_em_mapa_comunidade st)) ->
                In c (nodes (grafo_atual st)))
  /\ particao_de G_orig (melhor_particao_geral st) = true
  /\ crescente (modularidades_por_nivel st)
  /\ (forall x, In x (modularidades_por_nivel st) ->
                x <= melhor_modularidade st).

(** ** The measure of local moving *)

(** Every dictionary with the keys [ks], in that order, and values from
    [V]. *)
Fixpoint todas (ks V : list Z) : list (Dict.t Z) :=
  match ks with
  | [] => [[]]
  | k :: ks' =>
      flat_map (fun v => map (fun d => (k, v) :: d) (todas ks' V)) V
  end.

(** How many of them have a greater modularity than [P]. *)
Definition posto (G : Graph) (ks V : list Z) (P : Dict.t Z) : nat :=
  length (filter (fun X => Qgt_bool (modularidade G X) (modularidade G P))
                 (todas ks V)).

(** A partition that local moving can reach from [P0]: the keys of [P0]
    and communities of [P0]. *)
Definition alcancavel (P0 P : Dict.t Z) : Prop :=
  Dict.keys P = Dict.keys P0
  /\ forall c, In c (Dict.values P) -> In c (Dict.values P0).

(** The sweeps, and the levels, that are enough for a graph of [n]
    nodes. *)
Definition varreduras (n : nat) : nat := S (n ^ n).

(** ** Inputs of the examples *)

Open Scope Z_scope.

(** A node with a self-loop and one neighbour. *)
Definition grafo_laco : Graph := grafo_de [(0, 0, 1%Q); (0, 1, 1%Q)].

(** The path 0 - 1 - 2. *)
Definition grafo_caminho : Graph := grafo_de [(0, 1, 1%Q); (1, 2, 1%Q)].

(** Two triangles. *)
Definition grafo_triangulos : Graph :=
  grafo_de [(0, 1, 1%Q); (1, 2, 1%Q); (0, 2, 1%Q);
            (3, 4, 1%Q); (4, 5, 1%Q); (3, 5, 1%Q)].

(** The cycle 0 - 1 - 2 - 3 - 0. *)
Definition grafo_ciclo : Graph :=
  grafo_de [(0, 1, 1%Q); (1, 2, 1%Q); (2, 3, 1%Q); (3, 0, 1%Q)].

(** Three nodes and no edge. *)
Definition grafo_sem_arestas : Graph := add_nodes_from [] [0; 1; 2].

(** Two edges that do not meet. *)
Definition grafo_duas_arestas : Graph :=
  grafo_de [(0, 1, 1%Q); (2, 3, 1%Q)].

Close Scope Z_scope.

(** ** The aggregated graph and the levels *)

(** The community of a node: [particao[u]] for a key [u]. *)
Definition comunidade_de (particao : Dict.t Z) (u : Z) : Z :=
  match Dict.get particao u with Some c => c | None => 0%Z end.

(** What holds of the aggregated graph while the edges are added, for
    any partition: it is a graph, its nodes are the communities, and
    every edge has a weight. *)
Definition inv_agregado (set_iter : list Z -> list Z) (P : Dict.t Z)
  (Ga : Graph) : Prop :=
  wf_graph Ga = true
  /\ nodes Ga = set_iter (Dict.values P)
  /\ forall x y d, adj Ga x y = Some d -> exists w, d = Some w.


(** What the best partition and the history have to do with each other
    at every turn of [while True] and at every [return]: nothing has
    been recorded and the partition is the one of the start, or the last
    modularity recorded is the one of the partition on the original
    graph. *)
Definition em_dia (set_iter : list Z -> list Z) (G_orig : Graph)
  (p : Dict.t Z) (h : list Q) : Prop :=
  (h = [] /\ p = particao_singular G_orig)
  \/ exists h0 q,
       h = h0 ++ [q] /\ calcular_modularidade set_iter G_orig p = Ok q.


(** ** The levels of a run *)


(** The states in which a run of [leiden] on [G_orig], started with the
    generator in state [s0], begins a turn of [while True], with the
    state of the generator at that point: the state of the start, and
    the state that the turn before it went on to, after local moving
    and refinement returned and the level was not the last. *)
Inductive nivel_leiden (set_iter : list Z -> list Z) (fuel : nat)
  (G_orig : Graph) (s0 : rng) : estado -> rng -> Prop :=
| nivel_leiden_inicio :
    nivel_leiden set_iter fuel G_orig s0 (estado_inicial G_orig) s0
| nivel_leiden_seguinte (st : estado) (s : rng) (P1 : Dict.t Z) (s1 : rng)
    (P2 : Dict.t Z) (s2 : rng) (st' : estado) :
    nivel_leiden set_iter fuel G_orig s0 st s ->
    encontrar_movimentacao_local set_iter fuel (grafo_atual st)
      (grafo_atual st) (particao_singular (grafo_atual st)) s
    = Ok (P1, s1) ->
    refinar_particao set_iter fuel (grafo_atual st) P1 s1 = Ok (P2, s2) ->
    avaliar_nivel set_iter G_orig st P2 = Ok (inr st') ->
    nivel_leiden set_iter fuel G_orig s0 st' s2.

(** The same for [louvain], which has no refinement. *)
Inductive nivel_louvain (set_iter : list Z -> list Z) (fuel : nat)
  (G_orig : Graph) (s0 : rng) : estado -> rng -> Prop :=
| nivel_louvain_inicio :
    nivel_louvain set_iter fuel G_orig s0 (estado_inicial G_orig) s0
| nivel_louvain_seguinte (st : estado) (s : rng) (P1 : Dict.t Z) (s1 : rng)
    (st' : estado) :
    nivel_louvain set_iter fuel G_orig s0 st s ->
    encontrar_movimentacao_local set_iter fuel (grafo_atual st)
      (grafo_atual st) (particao_singular (grafo_atual st)) s
    = Ok (P1, s1) ->
    avaliar_nivel set_iter G_orig st P1 = Ok (inr st') ->
    nivel_louvain set_iter fuel G_orig s0 st' s1.

(** A square with the weights 10 and 9 and, apart from it, an edge of
    weight 100: the first level pairs the nodes of the square, the
    second puts the two pairs together. *)
Definition grafo_dois_niveis : Graph :=
  grafo_de [(0%Z, 1%Z, 10); (1%Z, 2%Z, 9); (2%Z, 3%Z, 10); (3%Z, 0%Z, 9);
            (4%Z, 5%Z, 100)].

(** * The program in binary64

    The numbers of the program are Python floats.  The definitions above
    compute with exact rationals; [B64] is the same program, function by
    function, with the numbers of the machine: the weights are binary64
    values and every operation rounds as IEEE 754 does.  What does not
    compute with numbers (dictionaries, sets, the generator, the
    grouping of a partition, the identifiers of refinement, the mapping
    of the levels) is shared with the definitions above. *)

Module B64.

(** [x ** 2] of a float, C's [pow(x, 2.0)]: the product, rounded. *)
Definition quadrado (x : float) : float := (x * x)%float.

(** Python's [sum] of floats through version 3.11: left to right, from
    zero. *)
Definition soma_simples (l : list float) : float :=
  fold_left PrimFloat.add l 0%float.

(** A float that is neither an infinity nor a NaN. *)
Definition finito (x : float) : bool :=
  PrimFloat.ltb (PrimFloat.abs x) infinity.

(** Python's [sum] of floats from version 3.12 on: the sum is carried
    with a compensation, which is added at the end when it is finite
    and not zero. *)
Definition soma_compensada (l : list float) : float :=
  let '(f_result, c) :=
    fold_left
      (fun acc x =>
         let '(f_result, c) := acc in
         let t := (f_result + x)%float in
         let c :=
           if PrimFloat.leb (PrimFloat.abs x) (PrimFloat.abs f_result)
           then (c + ((f_result - t) + x))%float
           else (c + ((x - t) + f_result))%float in
         (t, c))
      l (0%float, 0%float) in
  if negb (PrimFloat.eqb c 0%float) && finito c
  then (f_result + c)%float
  else f_result.

Definition attrs : Type := option float.

Definition Graph : Type := Dict.t (Dict.t attrs).

(** [data.get('weight', 1.0)] *)
Definition get_weight (d : attrs) : float :=
  match d with Some w => w | None => 1%float end.

(** [G.nodes()] *)
Definition nodes (G : Graph) : list Z := Dict.keys G.

(** [G.neighbors(n)] *)
Definition neighbors (G : Graph) (n : Z) : result (list Z) :=
  match Dict.get G n with
  | Some nbrs => Ok (Dict.keys nbrs)
  | None => Raise (NetworkXError n)
  end.

(** [G.adj[n].items()] *)
Definition adj_items (G : Graph) (n : Z) : result (list (Z * attrs)) :=
  match Dict.get G n with
  | Some nbrs => Ok nbrs
  | None => Raise (KeyError n)
  end.

(** [G.edges(data=True)] *)
Fixpoint edges_from (G : Graph) (seen : list Z) : list (Z * Z * attrs) :=
  match G with
  | [] => []
  | (n, nbrs) :: G' =>
      map (fun a => (n, fst a, snd a))
          (filter (fun a => negb (memZ (fst a) seen)) nbrs)
      ++ edges_from G' (n :: seen)
  end.

Definition edges (G : Graph) : list (Z * Z * attrs) := edges_from G [].

(** [G.add_node(n)] *)
Definition add_node (G : Graph) (n : Z) : Graph :=
  if Dict.mem G n then G else G ++ [(n, [])].

(** [G.add_nodes_from(l)] *)
Definition add_nodes_from (G : Graph) (l : list Z) : Graph :=
  fold_left add_node l G.

(** [G.has_edge(u, v)] *)
Definition has_edge (G : Graph) (u v : Z) : bool :=
  match Dict.get G u with
  | Some nbrs => Dict.mem nbrs v
  | None => false
  end.

(** [G._adj[u][v] = d] *)
Definition set_adj (G : Graph) (u v : Z) (d : attrs) : Graph :=
  match Dict.get G u with
  | Some nbrs => Dict.set G u (Dict.set nbrs v d)
  | None => G
  end.

(** [G.add_edge(u, v, weight=w)] *)
Definition add_edge (G : Graph) (u v : Z) (w : float) : Graph :=
  let G1 := add_node (add_node G u) v in
  set_adj (set_adj G1 u v (Some w)) v u (Some w).

(** [G[u][v]['weight'] += w] *)
Definition add_weight (G : Graph) (u v : Z) (w : float) : result Graph :=
  nbrs <- Dict.item G u ;;
  d <- Dict.item nbrs v ;;
  match d with
  | Some w0 =>
      Ok (set_adj (set_adj G u v (Some (w0 + w)%float)) v u
                  (Some (w0 + w)%float))
  | None => Raise KeyErrorWeight
  end.

(** [G = nx.Graph(); G.add_weighted_edges_from(l)] *)
Definition grafo_de (l : list (Z * Z * float)) : Graph :=
  fold_left (fun G e => let '(u, v, w) := e in add_edge G u v w) l [].

(** [{no: no for no in G.nodes()}] *)
Definition particao_singular (G : Graph) : Dict.t Z :=
  fold_left (fun p no => Dict.set p no no) (nodes G) [].

Section Algoritmo.

(** The order in which a set is iterated, and the [sum] of the
    interpreter. *)
Variable set_iter : list Z -> list Z.
Variable soma : list float -> float.

(** [G.subgraph(ns)], a view of [G] through the set of the nodes of
    [ns] that [G] has.  The view lists its nodes in the order of [G],
    and in the order of the set when the set has fewer than half as
    many nodes as [G]; the neighbours of a node come in the order of
    [G]. *)
Definition subgraph (G : Graph) (ns : pyset) : Graph :=
  let nos := set_iter (filter (fun n => Dict.mem G n) (set_iter ns)) in
  let dentro := fun a : Z * attrs => memZ (fst a) nos in
  if (2 * length nos <? length G)%nat then
    flat_map
      (fun n =>
         match Dict.get G n with
         | Some nbrs => [(n, filter dentro nbrs)]
         | None => []
         end)
      nos
  else
    map (fun e => (fst e, filter dentro (snd e)))
        (filter (fun e => memZ (fst e) nos) G).

(** The weighted degree of [n] given its neighbour dictionary:
    [sum(dd.get(weight, 1) for dd in nbrs.values())
     + (n in nbrs and nbrs[n].get(weight, 1))]. *)
Definition degree_nbrs (n : Z) (nbrs : Dict.t attrs) : float :=
  (soma (map get_weight (Dict.values nbrs))
   + match Dict.get nbrs n with
     | Some d => get_weight d
     | None => 0
     end)%float.

(** [G.degree(n, weight='weight')] *)
Definition degree (G : Graph) (n : Z) : result float :=
  match Dict.get G n with
  | Some nbrs => Ok (degree_nbrs n nbrs)
  | None => Raise (NetworkXError n)
  end.

(** [G.size(weight='weight')]:
    [sum(d for v, d in G.degree(weight=weight)) / 2]. *)
Definition size (G : Graph) : float :=
  (soma (map (fun e => degree_nbrs (fst e) (snd e)) G) / 2)%float.

(** [sum(G.degree(no, weight='weight') for no in nos)]: the degrees in
    the order of the set, then their sum. *)
Definition soma_graus (G : Graph) (nos : pyset) : result float :=
  graus <-
    foldM (fun acc no => k <- degree G no ;; Ok (acc ++ [k]))
          (set_iter nos) [] ;;
  Ok (soma graus).

(** [calcular_modularidade] *)
Definition calcular_modularidade (G : Graph) (particao : Dict.t Z)
  : result float :=
  let comunidades := agrupar_por_comunidade particao in
  let m := size G in
  if PrimFloat.eqb m 0 then Ok 0%float
  else
    foldM
      (fun modularidade_total e =>
         let nos_comunidade := snd e in
         soma_graus <- soma_graus G nos_comunidade ;;
         let subgrafo := subgraph G nos_comunidade in
         let peso_arestas_internas := size subgrafo in
         let frac_interna := (peso_arestas_internas / m)%float in
         let frac_graus := (soma_graus / (2 * m))%float in
         Ok (modularidade_total
             + (frac_interna - quadrado frac_graus))%float)
      comunidades 0%float.

(** [calc_propriedades] *)
Definition calc_propriedades (G : Graph) (nodes_in_community : pyset)
  : result (float * float) :=
  grau_total <- soma_graus G nodes_in_community ;;
  let peso_total := size (subgraph G nodes_in_community) in
  Ok (grau_total, peso_total).

(** The loop of [calc_delta_q] over the neighbours of the node. *)
Definition pesos_para (particao : Dict.t Z) (atual alvo : Z)
  (vizinhos : list (Z * attrs)) : result (float * float) :=
  foldM
    (fun acc e =>
       let '(no_k_para_atual, no_k_para_alvo) := acc in
       let '(vizinho, data) := e in
       let peso := get_weight data in
       c1 <- Dict.item particao vizinho ;;
       let no_k_para_atual :=
         if Z.eqb c1 atual then (no_k_para_atual + peso)%float
         else no_k_para_atual in
       c2 <- Dict.item particao vizinho ;;
       let no_k_para_alvo :=
         if Z.eqb c2 alvo then (no_k_para_alvo + peso)%float
         else no_k_para_alvo in
       Ok (no_k_para_atual, no_k_para_alvo))
    vizinhos (0%float, 0%float).

(** [calc_delta_q] *)
Definition calc_delta_q (G : Graph) (particao : Dict.t Z)
  (no_a_mover id_comunidade_alvo : Z) : result float :=
  let m := size G in
  if PrimFloat.eqb m 0 then Ok 0%float
  else
    id_comunidade_atual <- Dict.item particao no_a_mover ;;
    if Z.eqb id_comunidade_atual id_comunidade_alvo then Ok 0%float
    else
      let nos_em_alvo := nos_em particao id_comunidade_alvo in
      let nos_em_atual := nos_em particao id_comunidade_atual in
      '(grau_comun_atual, peso_comun_atual) <-
        calc_propriedades G nos_em_atual ;;
      '(grau_alvo_atual, peso_alvo_atual) <-
        calc_propriedades G nos_em_alvo ;;
      let contrib_antes :=
        ((peso_comun_atual / m - quadrado (grau_comun_atual / (2 * m)))
         + (peso_alvo_atual / m - quadrado (grau_alvo_atual / (2 * m))))
        %float in
      no_k <- degree G no_a_mover ;;
      vizinhos <- adj_items G no_a_mover ;;
      '(no_k_para_atual, no_k_para_alvo) <-
        pesos_para particao id_comunidade_atual id_comunidade_alvo
          vizinhos ;;
      let novo_grau_comun := (grau_comun_atual - no_k)%float in
      let novo_peso_comun := (peso_comun_atual - no_k_para_atual)%float in
      let novo_grau_alvo := (grau_alvo_atual + no_k)%float in
      let novo_peso_alvo := (peso_alvo_atual + no_k_para_alvo)%float in
      let contrib_depois :=
        ((novo_peso_comun / m - quadrado (novo_grau_comun / (2 * m)))
         + (novo_peso_alvo / m - quadrado (novo_grau_alvo / (2 * m))))
        %float in
      Ok (contrib_depois - contrib_antes)%float.

(** [{comunidades[vizinho] for vizinho in H.neighbors(no)}] *)
Definition comunidades_dos_vizinhos (H : Graph) (comunidades : Dict.t Z)
  (no : Z) : result pyset :=
  vizinhos <- neighbors H no ;;
  foldM (fun acc vizinho =>
           c <- Dict.item comunidades vizinho ;; Ok (acc ++ [c]))
        vizinhos [].

(** The loop over the communities of the neighbours. *)
Definition melhor_vizinha (G_completo : Graph) (comunidades : Dict.t Z)
  (no comunidade_atual : Z) (vizinhos_comunidades : list Z)
  : result (Z * float) :=
  foldM
    (fun acc comunidade_vizinho =>
       let '(melhor_comunidade, melhor_delta_q) := acc in
       if negb (Z.eqb comunidade_atual comunidade_vizinho) then
         delta_q <-
           calc_delta_q G_completo comunidades no comunidade_vizinho ;;
         if PrimFloat.ltb melhor_delta_q delta_q
         then Ok (comunidade_vizinho, delta_q)
         else Ok (melhor_comunidade, melhor_delta_q)
       else Ok (melhor_comunidade, melhor_delta_q))
    vizinhos_comunidades (comunidade_atual, 0%float).

(** The body of [for no in lista_nos]. *)
Definition visitar (H G_completo : Graph) (st : Dict.t Z * bool) (no : Z)
  : result (Dict.t Z * bool) :=
  let '(comunidades, melhorou) := st in
  comunidade_atual <- Dict.item comunidades no ;;
  vizinhos_comunidades <- comunidades_dos_vizinhos H comunidades no ;;
  '(melhor_comunidade, melhor_delta_q) <-
    melhor_vizinha G_completo comunidades no comunidade_atual
      (set_iter vizinhos_comunidades) ;;
  if PrimFloat.ltb 0 melhor_delta_q
  then Ok (Dict.set comunidades no melhor_comunidade, true)
  else Ok (comunidades, melhorou).

(** [encontrar_movimentacao_local] *)
Fixpoint encontrar_movimentacao_local (fuel : nat) (H G_completo : Graph)
  (comunidades : Dict.t Z) (s : rng) : result (Dict.t Z * rng) :=
  match fuel with
  | O => Diverge
  | S fuel' =>
      let (lista_nos, s') := shuffle (nodes H) s in
      '(comunidades', melhorou) <-
        foldM (visitar H G_completo) lista_nos (comunidades, false) ;;
      if melhorou
      then encontrar_movimentacao_local fuel' H G_completo comunidades' s'
      else Ok (comunidades', s')
  end.

(** The body of [for id_comunidade in ids_comunidades]. *)
Definition refinar_comunidade (fuel : nat) (G : Graph)
  (particao_alvo : Dict.t Z) (st : Dict.t Z * Z * rng) (id_comunidade : Z)
  : result (Dict.t Z * Z * rng) :=
  let '(particao_refinada_final, novo_id_comunidade, s) := st in
  let nos_comunidade :=
    map fst (filter (fun e => Z.eqb (snd e) id_comunidade) particao_alvo) in
  if (length nos_comunidade <=? 1)%nat then Ok st
  else
    let subgrafo := subgraph G nos_comunidade in
    let particao_unica :=
      fold_left (fun p no => Dict.set p no no) nos_comunidade
                particao_alvo in
    '(particao_refinada_por_subgrafo, s') <-
      encontrar_movimentacao_local fuel subgrafo G particao_unica s ;;
    let comunidades_locais :=
      filter (fun e => memZ (fst e) nos_comunidade)
             particao_refinada_por_subgrafo in
    let particao_foi_dividida :=
      (1 <? length (set_iter (Dict.values comunidades_locais)))%nat in
    '(particao_refinada_final', _, novo_id_comunidade') <-
      foldM (renomear particao_foi_dividida id_comunidade)
            comunidades_locais
            (particao_refinada_final, [], novo_id_comunidade) ;;
    Ok (particao_refinada_final', novo_id_comunidade', s').

(** [refinar_particao] *)
Definition refinar_particao (fuel : nat) (G : Graph)
  (particao_alvo : Dict.t Z) (s : rng) : result (Dict.t Z * rng) :=
  let novo_id_comunidade := primeiro_id_novo particao_alvo in
  let ids_comunidades := set_iter (Dict.values particao_alvo) in
  '(particao_refinada_final, _, s') <-
    foldM (refinar_comunidade fuel G particao_alvo) ids_comunidades
          (particao_alvo, novo_id_comunidade, s) ;;
  Ok (particao_refinada_final, s').

(** The body of [for u, v, data in G.edges(data=True)]. *)
Definition agrupar_aresta (particao : Dict.t Z) (G_agr : Graph)
  (e : Z * Z * attrs) : result Graph :=
  let '(u, v, data) := e in
  c_u <- Dict.item particao u ;;
  c_v <- Dict.item particao v ;;
  let peso := get_weight data in
  if has_edge G_agr c_u c_v
  then add_weight G_agr c_u c_v peso
  else Ok (add_edge G_agr c_u c_v peso).

(** [agrupar_grafo] *)
Definition agrupar_grafo (G : Graph) (particao : Dict.t Z) : result Graph :=
  let G_agr := add_nodes_from [] (set_iter (Dict.values particao)) in
  foldM (agrupar_aresta particao) (edges G) G_agr.

(** The state of [while True]. *)
Record estado : Type := Estado {
  grafo_atual : Graph;
  no_em_mapa_comunidade : Dict.t Z;
  melhor_particao_geral : Dict.t Z;
  melhor_modularidade : float;
  modularidades_por_nivel : list float
}.

(** One turn of [while True] after the partition of the level. *)
Definition avaliar_nivel (G_orig : Graph) (st : estado)
  (particao : Dict.t Z)
  : result ((Dict.t Z * list float) + estado) :=
  let G := grafo_atual st in
  particao_atual_mapeada <-
    mapear_de_volta (no_em_mapa_comunidade st) particao ;;
  modularidade_atual <-
    calcular_modularidade G_orig particao_atual_mapeada ;;
  if PrimFloat.leb modularidade_atual (melhor_modularidade st) then
    Ok (inl (melhor_particao_geral st, modularidades_por_nivel st))
  else
    let melhor_modularidade := modularidade_atual in
    let melhor_particao_geral := particao_atual_mapeada in
    let modularidades_por_nivel :=
      modularidades_por_nivel st ++ [melhor_modularidade] in
    let no_em_mapa_comunidade := melhor_particao_geral in
    G_novo <- agrupar_grafo G particao ;;
    if (length (nodes G_novo) =? length (nodes G))%nat then
      Ok (inl (melhor_particao_geral, modularidades_por_nivel))
    else
      Ok (inr (Estado G_novo no_em_mapa_comunidade melhor_particao_geral
                      melhor_modularidade modularidades_por_nivel)).

Definition estado_inicial (G_orig : Graph) : estado :=
  Estado G_orig (particao_singular G_orig) (particao_singular G_orig)
         (-1)%float [].

(** [leiden] *)
Fixpoint leiden_niveis (niveis fuel : nat) (G_orig : Graph) (st : estado)
  (s : rng) : result (Dict.t Z * list float * rng) :=
  match niveis with
  | O => Diverge
  | S niveis' =>
      let G := grafo_atual st in
      let particao_inicial := particao_singular G in
      '(particao, s1) <-
        encontrar_movimentacao_local fuel G G particao_inicial s ;;
      '(particao, s2) <- refinar_particao fuel G particao s1 ;;
      r <- avaliar_nivel G_orig st particao ;;
      match r with
      | inl (p, h) => Ok (p, h, s2)
      | inr st' => leiden_niveis niveis' fuel G_orig st' s2
      end
  end.

Definition leiden (fuel : nat) (G_orig : Graph) (s : rng)
  : result (Dict.t Z * list float * rng) :=
  leiden_niveis fuel fuel G_orig (estado_inicial G_orig) s.

(** [louvain] *)
Fixpoint louvain_niveis (niveis fuel : nat) (G_orig : Graph) (st : estado)
  (s : rng) : result (Dict.t Z * list float * rng) :=
  match niveis with
  | O => Diverge
  | S niveis' =>
      let G := grafo_atual st in
      let particao_inicial := particao_singular G in
      '(particao, s1) <-
        encontrar_movimentacao_local fuel G G particao_inicial s ;;
      r <- avaliar_nivel G_orig st particao ;;
      match r with
      | inl (p, h) => Ok (p, h, s1)
      | inr st' => louvain_niveis niveis' fuel G_orig st' s1
      end
  end.

Definition louvain (fuel : nat) (G_orig : Graph) (s : rng)
  : result (Dict.t Z * list float * rng) :=
  louvain_niveis fuel fuel G_orig (estado_inicial G_orig) s.

End Algoritmo.

End B64.

(** ** What the rounding of binary64 decides *)

(** The total weight: the weights of the edges, each edge once. *)
Definition peso_total_b64 (soma : list float -> float) (G : B64.Graph)
  : float :=
  soma (map (fun e => B64.get_weight (snd e)) (B64.edges G)).

(** The path 0 - 1 - 4 - 3 - 2 with the weights 2^53, 3, 3 and 2^53. *)
Definition grafo_pesado : B64.Graph :=
  B64.grafo_de [(0%Z, 1%Z, 0x1p+53%float); (2%Z, 3%Z, 0x1p+53%float);
                (1%Z, 4%Z, 3%float); (3%Z, 4%Z, 3%float)].

(** The path 0 - 1 - 2 - 3 with the weights 0.1, 0.2 and 0.3, each the
    nearest binary64 value. *)
Definition grafo_decimos : B64.Graph :=
  B64.grafo_de [(0%Z, 1%Z, 0x1.999999999999ap-4%float);
                (1%Z, 2%Z, 0x1.999999999999ap-3%float);
                (2%Z, 3%Z, 0x1.3333333333333p-2%float)].

(** The same path with the weights 0.1, 0.7 and 0.3. *)
Definition grafo_decimos_sete : B64.Graph :=
  B64.grafo_de [(0%Z, 1%Z, 0x1.999999999999ap-4%float);
                (1%Z, 2%Z, 0x1.6666666666666p-1%float);
                (2%Z, 3%Z, 0x1.3333333333333p-2%float)].

(** Every list of length [n] over [V]. *)
Fixpoint listas (n : nat) (V : list Z) : list (list Z) :=
  match n with
  | O => [[]]
  | S n' => flat_map (fun v => map (cons v) (listas n' V)) V
  end.

(** Two partitions are the same dictionary. *)
Fixpoint dict_eqb (a b : Dict.t Z) : bool :=
  match a, b with
  | [], [] => true
  | (k, v) :: a', (k', v') :: b' =>
      Z.eqb k k' && Z.eqb v v' && dict_eqb a' b'
  | _, _ => false
  end.

Definition memD (p : Dict.t Z) (l : list (Dict.t Z)) : bool :=
  existsb (dict_eqb p) l.

(** From every partition of [I], a sweep of local moving over the nodes
    of [G] in any order moves a node and ends in a partition of [I]. *)
Definition sempre_melhora (set_iter : list Z -> list Z)
  (soma : list float -> float) (G : B64.Graph) (I : list (Dict.t Z))
  : bool :=
  forallb
    (fun P =>
       forallb
         (fun l =>
            if forallb (fun n => memZ n l) (B64.nodes G) then
              match foldM (B64.visitar set_iter soma G G) l (P, false) with
              | Ok (P', true) => memD P' I
              | _ => false
              end
            else true)
         (listas (length (B64.nodes G)) (B64.nodes G)))
    I.

(** The partitions of [grafo_pesado] that local moving goes through
    from the one of every node in its own community. *)
Definition ciclo_pesado : list (Dict.t Z) :=
  [[(0, 0); (1, 1); (2, 2); (3, 3); (4, 4)];
   [(0, 1); (1, 1); (2, 3); (3, 3); (4, 1)];
   [(0, 1); (1, 1); (2, 2); (3, 2); (4, 1)];
   [(0, 0); (1, 0); (2, 3); (3, 3); (4, 0)];
   [(0, 0); (1, 0); (2, 2); (3, 2); (4, 0)];
   [(0, 1); (1, 1); (2, 3); (3, 3); (4, 3)];
   [(0, 0); (1, 0); (2, 3); (3, 3); (4, 3)];
   [(0, 1); (1, 1); (2, 2); (3, 2); (4, 2)];
   [(0, 0); (1, 0); (2, 2); (3, 2); (4, 2)];
   [(0, 0); (1, 0); (2, 3); (3, 3); (4, 1)];
   [(0, 0); (1, 0); (2, 2); (3, 2); (4, 1)]]%Z.

(** [R x y] holds between every entry [x] of a history and the entry
    [y] after it. *)
Fixpoint adjacentes (R : float -> float -> Prop) (h : list float) : Prop :=
  match h with
  | [] => True
  | x :: h' =>
      match h' with
      | [] => True
      | y :: _ => R x y /\ adjacentes R h'
      end
  end.

(** What the levels keep of the history in binary64: no entry is less
    than or equal to the entry before it, as the comparison of floats
    has it, and the last entry is the best modularity. *)
Definition inv_historia (melhor : float) (h : list float) : Prop :=
  adjacentes (fun x y => PrimFloat.leb y x = false) h
  /\ forall h0 x, h = h0 ++ [x] -> x = melhor.

(** [grafo_dois_niveis] with its weights as floats. *)
Definition grafo_dois_niveis_b64 : B64.Graph :=
  B64.grafo_de [(0%Z, 1%Z, 10%float); (1%Z, 2%Z, 9%float);
                (2%Z, 3%Z, 10%float); (3%Z, 0%Z, 9%float);
                (4%Z, 5%Z, 100%float)].

(** * Properties *)

(** ** The monad *)

Lemma bind_Ok (A B : Type) (r : result A) (k : A -> result B) (b : B) :
  bind r k = Ok b -> exists a, r = Ok a /\ k a = Ok b.
Proof. destruct r; simpl; intros H; try discriminate; eauto. Qed.

Ltac inv_bind H :=
  let a := fresh "a" in
  let Ha := fresh "Ha" in
  apply bind_Ok in H; destruct H as [a [Ha H]].

(** An invariant of the accumulator survives a loop that returns. *)
Lemma foldM_inv (A B : Type) (I : B -> Prop) (f : B -> A -> result B)
  (l : list A) :
  (forall b x b', In x l -> I b -> f b x = Ok b' -> I b') ->
  forall b b', I b -> foldM f l b = Ok b' -> I b'.
Proof.
  induction l as [|x l IH]; intros Hf b b' Hb H; simpl in H.
  - injection H as <-; exact Hb.
  - inv_bind H. eapply IH; [| |exact H].
    + intros; eapply Hf; eauto; right; assumption.
    + eapply Hf; eauto; left; reflexivity.
Qed.

(** ** Dictionaries *)

Lemma memZ_In (x : Z) (l : list Z) : memZ x l = true <-> In x l.
Proof.
  unfold memZ; rewrite existsb_exists; split.
  - intros [y [Hy E]]; apply Z.eqb_eq in E; subst; assumption.
  - intros H; exists x; split; [assumption | apply Z.eqb_refl].
Qed.

Lemma memZ_false (x : Z) (l : list Z) : memZ x l = false <-> ~ In x l.
Proof.
  rewrite <- memZ_In; destruct (memZ x l); split; intros; congruence.
Qed.

Lemma nodupb_NoDup (l : list Z) : nodupb l = true <-> NoDup l.
Proof.
  induction l as [|x l IH]; simpl.
  - split; [constructor | reflexivity].
  - rewrite andb_true_iff, negb_true_iff, memZ_false, IH; split.
    + intros [H1 H2]; constructor; assumption.
    + intros H; inversion H; subst; split; assumption.
Qed.

Lemma get_In_keys (V : Type) (d : Dict.t V) (k : Z) (v : V) :
  Dict.get d k = Some v -> In k (Dict.keys d).
Proof.
  induction d as [|[k' v'] d IH]; simpl; [discriminate|].
  destruct (Z.eqb_spec k k'); [left; congruence | right; auto].
Qed.

Lemma get_In (V : Type) (d : Dict.t V) (k : Z) (v : V) :
  Dict.get d k = Some v -> In (k, v) d.
Proof.
  induction d as [|[k' v'] d IH]; simpl; [discriminate|].
  destruct (Z.eqb_spec k k'); [left; congruence | right; auto].
Qed.

Lemma In_keys_get (V : Type) (d : Dict.t V) (k : Z) :
  In k (Dict.keys d) -> exists v, Dict.get d k = Some v.
Proof.
  induction d as [|[k' v'] d IH]; simpl; [intros []|].
  destruct (Z.eqb_spec k k'); [eauto|].
  intros [H|H]; [congruence | auto].
Qed.

Lemma get_None_keys (V : Type) (d : Dict.t V) (k : Z) :
  Dict.get d k = None <-> ~ In k (Dict.keys d).
Proof.
  split.
  - intros H Hin; apply In_keys_get in Hin; destruct Hin; congruence.
  - intros H; destruct (Dict.get d k) eqn:E; [|reflexivity].
    apply get_In_keys in E; contradiction.
Qed.

Lemma mem_In_keys (V : Type) (d : Dict.t V) (k : Z) :
  Dict.mem d k = true <-> In k (Dict.keys d).
Proof.
  unfold Dict.mem; split.
  - destruct (Dict.get d k) eqn:E; [|discriminate].
    intros _; eapply get_In_keys; eauto.
  - intros H; apply In_keys_get in H; destruct H as [v ->]; reflexivity.
Qed.

Lemma In_get (V : Type) (d : Dict.t V) (k : Z) (v : V) :
  NoDup (Dict.keys d) -> In (k, v) d -> Dict.get d k = Some v.
Proof.
  induction d as [|[k' v'] d IH]; simpl; [intros _ []|].
  intros Hnd [H|H]; inversion Hnd; subst.
  - injection H as -> ->; rewrite Z.eqb_refl; reflexivity.
  - destruct (Z.eqb_spec k k'); [|auto].
    subst; exfalso; apply H2.
    change (In (fst (k', v)) (map fst d)); apply in_map; assumption.
Qed.

Lemma get_set (V : Type) (d : Dict.t V) (k k' : Z) (v : V) :
  Dict.get (Dict.set d k v) k' = if Z.eqb k' k then Some v else Dict.get d k'.
Proof.
  induction d as [|[k0 v0] d IH]; simpl.
  - reflexivity.
  - destruct (Z.eqb_spec k k0); simpl.
    + subst; destruct (Z.eqb_spec k' k0); reflexivity.
    + rewrite IH; destruct (Z.eqb_spec k' k0); [|reflexivity].
      destruct (Z.eqb_spec k' k); [congruence | reflexivity].
Qed.

Lemma keys_set_mem (V : Type) (d : Dict.t V) (k : Z) (v : V) :
  In k (Dict.keys d) -> Dict.keys (Dict.set d k v) = Dict.keys d.
Proof.
  induction d as [|[k0 v0] d IH]; simpl; [intros []|].
  destruct (Z.eqb_spec k k0); simpl; [reflexivity|].
  intros [H|H]; [congruence|]. rewrite IH; auto.
Qed.

Lemma keys_set_new (V : Type) (d : Dict.t V) (k : Z) (v : V) :
  ~ In k (Dict.keys d) -> Dict.set d k v = d ++ [(k, v)].
Proof.
  induction d as [|[k0 v0] d IH]; simpl; [reflexivity|].
  intros H; destruct (Z.eqb_spec k k0); [exfalso; auto|].
  rewrite IH; auto.
Qed.

Lemma item_Ok (V : Type) (d : Dict.t V) (k : Z) (v : V) :
  Dict.item d k = Ok v <-> Dict.get d k = Some v.
Proof.
  unfold Dict.item; destruct (Dict.get d k); split; intros H; congruence.
Qed.

(** ** The order of the sets of the examples *)

Lemma In_inserir (x y : Z) (l : list Z) :
  In y (inserir x l) <-> y = x \/ In y l.
Proof.
  induction l as [|z l IH]; simpl.
  - intuition.
  - destruct (Z.eqb_spec x z); [subst; simpl; intuition|].
    destruct (Z.ltb x z); simpl; [intuition|].
    rewrite IH; intuition.
Qed.

Lemma ordem_crescente_In (l : list Z) (x : Z) :
  In x (ordem_crescente l) <-> In x l.
Proof.
  induction l as [|y l IH]; simpl; [reflexivity|].
  rewrite In_inserir, IH; intuition.
Qed.

Lemma inserir_sorted (x : Z) (l : list Z) :
  StronglySorted Z.lt l -> StronglySorted Z.lt (inserir x l).
Proof.
  induction 1 as [|z l Hs IH Hz]; simpl.
  - repeat constructor.
  - destruct (Z.eqb_spec x z); [constructor; assumption|].
    destruct (Z.ltb_spec x z).
    + constructor; [constructor; assumption|].
      constructor; [assumption|].
      rewrite Forall_forall in *; intros y Hy; specialize (Hz y Hy); lia.
    + constructor; [assumption|].
      rewrite Forall_forall in *; intros y Hy.
      apply In_inserir in Hy; destruct Hy as [->|Hy]; [lia | auto].
Qed.

Lemma ordem_crescente_NoDup (l : list Z) : NoDup (ordem_crescente l).
Proof.
  assert (H : StronglySorted Z.lt (ordem_crescente l)).
  { induction l; simpl; [constructor | apply inserir_sorted; assumption]. }
  induction H as [|z l' Hs IH Hz]; constructor; [|assumption].
  intros Hin; rewrite Forall_forall in Hz; specialize (Hz z Hin); lia.
Qed.

Section Propriedades.

Variable set_iter : list Z -> list Z.

(** ** Modularity of a graph without weight *)

(** C9: on a graph of total weight zero the modularity of every
    partition is the number zero, returned and not raised. *)
Theorem modularidade_sem_peso (G : Graph) (particao : Dict.t Z) :
  size G == 0 -> calcular_modularidade set_iter G particao = Ok 0.
Proof.
  intros H; unfold calcular_modularidade.
  rewrite (Qeq_eq_bool _ _ H); reflexivity.
Qed.

(** ** The mapping back to the original nodes *)

Lemma mapear_de_volta_acc (particao mapa acc : Dict.t Z) :
  NoDup (Dict.keys mapa) ->
  exists m,
    foldM
      (fun particao_atual_mapeada e =>
         let '(no_original, id_comunidade) := e in
         if Dict.mem particao id_comunidade then
           c <- Dict.item particao id_comunidade ;;
           Ok (Dict.set particao_atual_mapeada no_original c)
         else Ok particao_atual_mapeada)
      mapa acc = Ok m
    /\ forall no,
        Dict.get m no =
        match Dict.get mapa no with
        | Some id =>
            match Dict.get particao id with
            | Some c => Some c
            | None => Dict.get acc no
            end
        | None => Dict.get acc no
        end.
Proof.
  revert acc; induction mapa as [|[n id] mapa IH]; intros acc Hnd; simpl.
  - exists acc; split; reflexivity.
  - inversion Hnd as [|? ? Hn Hnd']; subst.
    unfold Dict.mem, Dict.item.
    destruct (Dict.get particao id) as [c|] eqn:Eid; simpl.
    + destruct (IH (Dict.set acc n c) Hnd') as [m [Hm Hget]].
      exists m; split; [exact Hm|].
      intros no; rewrite Hget, get_set.
      destruct (Z.eqb_spec no n) as [->|Hne].
      * apply get_None_keys in Hn; rewrite Hn, Eid; reflexivity.
      * reflexivity.
    + destruct (IH acc Hnd') as [m [Hm Hget]].
      exists m; split; [exact Hm|].
      intros no; rewrite Hget.
      destruct (Z.eqb_spec no n) as [->|Hne]; [|reflexivity].
      apply get_None_keys in Hn; rewrite Hn, Eid; reflexivity.
Qed.

End Propriedades.

Open Scope Z_scope.

Lemma modularidade_sem_peso_witness :
  size grafo_sem_arestas == 0
  /\ calcular_modularidade ordem_crescente grafo_sem_arestas
       [(0, 0); (1, 0); (2, 2)] = Ok 0%Q.
Proof.
  split; [reflexivity|].
  apply (modularidade_sem_peso ordem_crescente grafo_sem_arestas); reflexivity.
Defined.

(** C1 at a node with a self-loop: moving node 0 to the community of
    node 1 raises the modularity by 1/8, and [calc_delta_q] answers -3/8;
    the weight of the loop, which enters the target community with the
    node, is not added to the internal weight of the target. *)
Lemma calc_delta_q_com_laco :
  exists antes depois delta,
    calcular_modularidade ordem_crescente grafo_laco [(0, 0); (1, 1)]
      = Ok antes
    /\ calcular_modularidade ordem_crescente grafo_laco [(0, 1); (1, 1)]
      = Ok depois
    /\ calc_delta_q ordem_crescente grafo_laco [(0, 0); (1, 1)] 0 1
      = Ok delta
    /\ (depois - antes == 1 # 8)%Q
    /\ (delta == - (3 # 8))%Q
    /\ ~ (Qabs ((depois - antes) - delta) <= 1 # 1000000000)%Q.
Proof.
  do 3 eexists.
  split; [vm_compute; reflexivity|].
  split; [vm_compute; reflexivity|].
  split; [vm_compute; reflexivity|].
  split; [vm_compute; reflexivity|].
  split; [vm_compute; reflexivity|].
  vm_compute; intros H; apply H; reflexivity.
Qed.

(** The graph of [calc_delta_q_com_laco] is what aggregation makes of the
    path 0 - 1 - 2 when nodes 0 and 1 are one community: the edge inside
    the community becomes a self-loop of its node. *)
Example grafo_laco_agregado :
  agrupar_grafo ordem_crescente grafo_caminho [(0, 0); (1, 0); (2, 1)]
  = Ok grafo_laco.
Proof. reflexivity. Qed.

(** C8, as the specification has it, fails: the function receives no
    generator; two calls in a row on the same graphs and the same
    starting partition find the process-wide generator in two states,
    and here the first puts nodes 0 and 1 together and the second
    does not. *)
Lemma movimentacao_local_duas_chamadas :
  let G := grafo_ciclo in
  let P := particao_singular G in
  let s := [0; 0; 0; 0; 0; 0; 0; 2; 1; 0; 0; 0]%nat in
  exists P1 s1 P2 s2,
    encontrar_movimentacao_local ordem_crescente 10 G G P s = Ok (P1, s1)
    /\ encontrar_movimentacao_local ordem_crescente 10 G G P s1 = Ok (P2, s2)
    /\ Dict.get P1 0 = Dict.get P1 1
    /\ Dict.get P2 0 <> Dict.get P2 1.
Proof.
  do 4 eexists.
  split; [vm_compute; reflexivity|].
  split; [vm_compute; reflexivity|].
  split; [reflexivity | discriminate].
Qed.

Close Scope Z_scope.

(** ** The shuffle *)

Lemma length_update (A : Type) (l : list A) (i : nat) (x : A) :
  length (update l i x) = length l.
Proof.
  revert i; induction l as [|y l IH]; intros [|i]; simpl; auto.
Qed.

Lemma nth_error_update (A : Type) (l : list A) (i k : nat) (x : A) :
  (i < length l)%nat ->
  nth_error (update l i x) k = if Nat.eqb k i then Some x else nth_error l k.
Proof.
  revert i k; induction l as [|y l IH]; intros i k Hi; simpl in Hi; [lia|].
  destruct i as [|i], k as [|k]; simpl; try reflexivity.
  apply IH; lia.
Qed.

Lemma nth_error_swap (A : Type) (l : list A) (i j k : nat) (a b : A) :
  nth_error l i = Some a -> nth_error l j = Some b ->
  nth_error (swap l i j) k =
  if Nat.eqb k j then Some a
  else if Nat.eqb k i then Some b
  else nth_error l k.
Proof.
  intros Hi Hj; unfold swap; rewrite Hi, Hj.
  assert (Li : (i < length l)%nat) by (apply nth_error_Some; congruence).
  assert (Lj : (j < length l)%nat) by (apply nth_error_Some; congruence).
  rewrite nth_error_update by (rewrite length_update; assumption).
  rewrite nth_error_update by assumption.
  reflexivity.
Qed.

Lemma In_swap (A : Type) (l : list A) (i j : nat) (y : A) :
  In y (swap l i j) <-> In y l.
Proof.
  destruct (nth_error l i) as [a|] eqn:Hi;
    [|unfold swap; rewrite Hi; reflexivity].
  destruct (nth_error l j) as [b|] eqn:Hj;
    [|unfold swap; rewrite Hi, Hj; reflexivity].
  split; intros H; apply In_nth_error in H; destruct H as [k Hk].
  - rewrite (nth_error_swap _ _ _ _ k _ _ Hi Hj) in Hk.
    destruct (Nat.eqb k j);
      [injection Hk as <-; eapply nth_error_In; eauto|].
    destruct (Nat.eqb k i);
      [injection Hk as <-; eapply nth_error_In; eauto|].
    eapply nth_error_In; eauto.
  - destruct (Nat.eqb_spec k i) as [->|Hki].
    + apply nth_error_In with (n := j).
      rewrite (nth_error_swap _ _ _ _ j _ _ Hi Hj), Nat.eqb_refl; congruence.
    + destruct (Nat.eqb_spec k j) as [->|Hkj].
      * apply nth_error_In with (n := i).
        rewrite (nth_error_swap _ _ _ _ i _ _ Hi Hj), Nat.eqb_refl.
        destruct (Nat.eqb_spec i j); congruence.
      * apply nth_error_In with (n := k).
        rewrite (nth_error_swap _ _ _ _ k _ _ Hi Hj).
        destruct (Nat.eqb_spec k j); [contradiction|].
        destruct (Nat.eqb_spec k i); [contradiction | assumption].
Qed.

Lemma In_shuffle_from (A : Type) (i : nat) (x : list A) (s : rng) (y : A) :
  In y (fst (shuffle_from i x s)) <-> In y x.
Proof.
  revert x s; induction i as [|i IH]; intros x s; [reflexivity|].
  cbn [shuffle_from].
  destruct (randbelow (S i + 1) s) as [j s'].
  rewrite IH; apply In_swap.
Qed.

Lemma In_shuffle (A : Type) (x : list A) (s : rng) (y : A) :
  In y (fst (shuffle x s)) <-> In y x.
Proof. apply In_shuffle_from. Qed.

(** The result of a shuffle is decided by the numbers it draws. *)
Lemma shuffle_from_firstn (A : Type) (i k : nat) (x : list A) (s t : rng) :
  firstn (i + k) s = firstn (i + k) t ->
  fst (shuffle_from i x s) = fst (shuffle_from i x t)
  /\ firstn k (snd (shuffle_from i x s)) = firstn k (snd (shuffle_from i x t)).
Proof.
  revert x s t; induction i as [|i IH]; intros x s t H; simpl.
  - split; [reflexivity | exact H].
  - destruct s as [|r s], t as [|r' t]; simpl in H; try discriminate.
    + split; reflexivity.
    + injection H as <- H; simpl; apply IH; assumption.
Qed.

Section MovimentacaoLocal.

Variable set_iter : list Z -> list Z.

(** C8, as the program has it: the output partition is decided by the
    two graphs, the starting partition and the numbers the process-wide
    generator draws during the call; two runs in which it draws the
    same numbers return the same partition. *)
Theorem movimentacao_local_pelos_sorteios (fuel : nat) (H G : Graph)
  (particao : Dict.t Z) (s t : rng) :
  firstn (fuel * (length (nodes H) - 1)) s
  = firstn (fuel * (length (nodes H) - 1)) t ->
  particao_de_resultado
    (encontrar_movimentacao_local set_iter fuel H G particao s)
  = particao_de_resultado
      (encontrar_movimentacao_local set_iter fuel H G particao t).
Proof.
  revert particao s t; induction fuel as [|fuel IH]; intros P s t Hst;
    [reflexivity|].
  simpl in Hst |- *. unfold shuffle.
  destruct (shuffle_from_firstn _ (length (nodes H) - 1)
              (fuel * (length (nodes H) - 1)) (nodes H) s t Hst)
    as [E1 E2].
  destruct (shuffle_from (length (nodes H) - 1) (nodes H) s) as [l1 s1].
  destruct (shuffle_from (length (nodes H) - 1) (nodes H) t) as [l2 s2].
  simpl in E1, E2; subst l2.
  destruct (foldM (visitar set_iter H G) l1 (P, false)) as [[P' b]| |]; simpl;
    try reflexivity.
  destruct b; [apply IH; assumption | reflexivity].
Qed.

(** *** Sweeps that move nothing *)

Lemma visitar_flag (H G : Graph) (P P' : Dict.t Z) (b b' : bool) (no : Z) :
  visitar set_iter H G (P, b) no = Ok (P', b') ->
  (b' = true) \/ (P' = P /\ b' = b).
Proof.
  unfold visitar; intros E.
  inv_bind E. inv_bind E. inv_bind E. destruct a1 as [c q].
  destruct (Qgt_bool q 0); injection E as <- <-; auto.
Qed.

Lemma visitar_true (H G : Graph) (P P' : Dict.t Z) (b' : bool) (no : Z) :
  visitar set_iter H G (P, true) no = Ok (P', b') -> b' = true.
Proof.
  intros E; apply visitar_flag in E; destruct E as [E|[_ E]]; auto.
Qed.

Lemma varredura_true (H G : Graph) (l : list Z) (P P' : Dict.t Z) (b' : bool) :
  foldM (visitar set_iter H G) l (P, true) = Ok (P', b') -> b' = true.
Proof.
  revert P; induction l as [|no l IH]; intros P E; simpl in E.
  - congruence.
  - inv_bind E. destruct a as [P1 b1].
    apply visitar_true in Ha; subst; eauto.
Qed.

(** A sweep that ends with the flag down moved no node: every node it
    visited was left where it was. *)
Lemma varredura_parada (H G : Graph) (l : list Z) (P P' : Dict.t Z) :
  foldM (visitar set_iter H G) l (P, false) = Ok (P', false) ->
  P' = P
  /\ forall no, In no l ->
       visitar set_iter H G (P, false) no = Ok (P, false).
Proof.
  revert P; induction l as [|no l IH]; intros P E; simpl in E.
  - injection E as <-; split; [reflexivity | intros ? []].
  - inv_bind E. destruct a as [P1 b1].
    destruct (visitar_flag _ _ _ _ _ _ _ Ha) as [->|[-> ->]].
    + apply varredura_true in E; discriminate.
    + destruct (IH _ E) as [-> Hall]; split; [reflexivity|].
      intros no' [<-|Hin]; auto.
Qed.

Lemma varredura_parada_inv (H G : Graph) (l : list Z) (P : Dict.t Z) :
  (forall no, In no l -> visitar set_iter H G (P, false) no = Ok (P, false)) ->
  foldM (visitar set_iter H G) l (P, false) = Ok (P, false).
Proof.
  induction l as [|no l IH]; intros Hall; cbn [foldM]; [reflexivity|].
  rewrite Hall by (left; reflexivity); cbn [bind].
  apply IH; intros; apply Hall; right; assumption.
Qed.

(** What is returned is a partition that no visit changes. *)
Lemma movimentacao_local_parada (fuel : nat) (H G : Graph)
  (P P' : Dict.t Z) (s s' : rng) :
  encontrar_movimentacao_local set_iter fuel H G P s = Ok (P', s') ->
  forall no, In no (nodes H) ->
    visitar set_iter H G (P', false) no = Ok (P', false).
Proof.
  revert P s; induction fuel as [|fuel IH]; intros P s E; [discriminate|].
  simpl in E.
  destruct (shuffle (nodes H) s) as [l s1] eqn:Es.
  inv_bind E. destruct a as [P1 b1]. destruct b1.
  - eapply IH; eauto.
  - injection E as <- <-.
    apply varredura_parada in Ha; destruct Ha as [-> Hall].
    intros no Hin; apply Hall.
    replace l with (fst (shuffle (nodes H) s)) by (rewrite Es; reflexivity).
    apply In_shuffle; assumption.
Qed.

(** C7: local moving returns a fixed point; run again on the partition
    it returned, with the same two graphs and from whatever state of the
    generator, it returns that partition after one sweep. *)
Theorem movimentacao_local_idempotente (fuel fuel2 : nat) (H G : Graph)
  (P P' : Dict.t Z) (s s' s2 : rng) :
  encontrar_movimentacao_local set_iter fuel H G P s = Ok (P', s') ->
  particao_de_resultado
    (encontrar_movimentacao_local set_iter (S fuel2) H G P' s2) = Ok P'.
Proof.
  intros E; simpl.
  destruct (shuffle (nodes H) s2) as [l s3] eqn:Es.
  rewrite varredura_parada_inv; [reflexivity|].
  intros no Hin; eapply movimentacao_local_parada; eauto.
  apply (In_shuffle _ (nodes H) s2).
  rewrite Es; assumption.
Qed.

End MovimentacaoLocal.

Lemma movimentacao_local_pelos_sorteios_witness :
  particao_de_resultado
    (encontrar_movimentacao_local ordem_crescente 3 grafo_ciclo grafo_ciclo
       (particao_singular grafo_ciclo) [0; 2; 1; 0; 0; 0; 4; 4; 4; 7]%nat)
  = particao_de_resultado
      (encontrar_movimentacao_local ordem_crescente 3 grafo_ciclo grafo_ciclo
         (particao_singular grafo_ciclo) [0; 2; 1; 0; 0; 0; 4; 4; 4; 5; 9]%nat).
Proof.
  apply (movimentacao_local_pelos_sorteios ordem_crescente 3 grafo_ciclo
           grafo_ciclo (particao_singular grafo_ciclo)).
  reflexivity.
Defined.

Lemma movimentacao_local_idempotente_witness :
  particao_de_resultado
    (encontrar_movimentacao_local ordem_crescente 5 grafo_ciclo grafo_ciclo
       [(0, 0); (1, 0); (2, 3); (3, 3)]%Z [3; 1; 2]%nat)
  = Ok [(0, 0); (1, 0); (2, 3); (3, 3)]%Z.
Proof.
  apply (movimentacao_local_idempotente ordem_crescente 10 4 grafo_ciclo
           grafo_ciclo (particao_singular grafo_ciclo)
           [(0, 0); (1, 0); (2, 3); (3, 3)]%Z [] [] [3; 1; 2]%nat).
  vm_compute; reflexivity.
Defined.

(** ** Refinement *)

Lemma fold_left_max_ge (l : list Z) (a : Z) :
  (a <= fold_left Z.max l a)%Z
  /\ forall x, In x l -> (x <= fold_left Z.max l a)%Z.
Proof.
  revert a; induction l as [|y l IH]; intros a; simpl.
  - split; [lia | intros ? []].
  - destruct (IH (Z.max a y)) as [H1 H2]; split; [lia|].
    intros x [<-|Hx]; [lia | auto].
Qed.

Lemma primeiro_id_novo_gt (P : Dict.t Z) (k v : Z) :
  Dict.get P k = Some v -> (v < primeiro_id_novo P)%Z.
Proof.
  intros H; apply get_In in H.
  apply (in_map snd) in H; simpl in H.
  unfold primeiro_id_novo, Dict.values.
  destruct (map snd P) as [|c cs]; [destruct H|].
  destruct (fold_left_max_ge cs c) as [H1 H2].
  destruct H as [<-|H]; [lia | specialize (H2 _ H); lia].
Qed.

Lemma In_nos_get (P : Dict.t Z) (c no : Z) :
  NoDup (Dict.keys P) ->
  In no (map fst (filter (fun e => Z.eqb (snd e) c) P)) ->
  Dict.get P no = Some c.
Proof.
  intros Hnd H; apply in_map_iff in H; destruct H as [[n v] [E H]].
  simpl in E; subst n.
  apply filter_In in H; destruct H as [H Hc]; simpl in Hc.
  apply Z.eqb_eq in Hc; subst v.
  apply In_get; assumption.
Qed.

Section Refinamento.

Variable set_iter : list Z -> list Z.
Variable P : Dict.t Z.
Hypothesis P_wf : NoDup (Dict.keys P).

Lemma inv_refinar_next (c c' lo : Z) (F : Dict.t Z) (hi : Z) :
  inv_refinar P c lo F hi -> inv_refinar P c' hi F hi.
Proof.
  intros (Hk & Hlo & H1 & H2 & H3); repeat split; try assumption; try lia.
  - intros a ca fa Ha Hf Hhi.
    destruct (H1 _ _ _ Ha Hf) as [->|?]; [|lia].
    apply primeiro_id_novo_gt in Ha; lia.
  - intros a b ca cb f Ha Hb Hfa Hfb Hf.
    destruct (Z_lt_le_dec f lo) as [Hlt|Hge].
    + eapply H3; eauto; lia.
    + rewrite (H2 _ _ _ Ha Hfa Hge), (H2 _ _ _ Hb Hfb Hge); reflexivity.
Qed.

Lemma renomear_inv (dividida : bool) (c lo : Z)
  (F mapa : Dict.t Z) (hi : Z) (e : Z * Z) (F' mapa' : Dict.t Z) (hi' : Z) :
  Dict.get P (fst e) = Some c ->
  inv_refinar P c lo F hi ->
  (forall k v, Dict.get mapa k = Some v -> (lo <= v < hi)%Z) ->
  renomear dividida c (F, mapa, hi) e = Ok (F', mapa', hi') ->
  inv_refinar P c lo F' hi'
  /\ (forall k v, Dict.get mapa' k = Some v -> (lo <= v < hi')%Z).
Proof.
  destruct e as [no cid]; simpl fst.
  intros Hno (Hk & Hlo & H1 & H2 & H3) Hmapa E.
  assert (Hin : In no (Dict.keys F))
    by (rewrite Hk; eapply get_In_keys; eauto).
  assert (G : forall id, (id = c \/ (lo <= id < hi')%Z) -> (hi <= hi')%Z ->
            inv_refinar P c lo (Dict.set F no id) hi').
  { intros id Hid Hhi; repeat split.
    - rewrite keys_set_mem; assumption.
    - lia.
    - lia.
    - intros a ca fa Ha Hf; rewrite get_set in Hf.
      destruct (Z.eqb_spec a no) as [->|_].
      + injection Hf as <-. rewrite Hno in Ha; injection Ha as <-.
        destruct Hid; [left; assumption | right; lia].
      + destruct (H1 _ _ _ Ha Hf); [left; assumption | right; lia].
    - intros a ca fa Ha Hf Hge; rewrite get_set in Hf.
      destruct (Z.eqb_spec a no) as [->|_]; [congruence|].
      eapply H2; eauto.
    - intros a b ca cb f Ha Hb Hfa Hfb Hf; rewrite get_set in Hfa, Hfb.
      assert (Hc : (c < primeiro_id_novo P)%Z)
        by (eapply primeiro_id_novo_gt; eauto).
      destruct (Z.eqb_spec a no) as [->|_];
        [injection Hfa as <-; lia|].
      destruct (Z.eqb_spec b no) as [->|_];
        [injection Hfb as <-; lia|].
      eapply H3; eauto. }
  unfold renomear in E. destruct dividida.
  - destruct (negb (Dict.mem mapa cid)) eqn:Em.
    + inv_bind E. injection E as <- <- <-.
      apply item_Ok in Ha; rewrite get_set, Z.eqb_refl in Ha.
      injection Ha as <-.
      split; [apply G; lia|].
      intros k v Hv; rewrite get_set in Hv.
      destruct (Z.eqb k cid); [injection Hv as <-; lia|].
      specialize (Hmapa _ _ Hv); lia.
    + inv_bind E. injection E as <- <- <-.
      apply item_Ok in Ha; pose proof (Hmapa _ _ Ha).
      split; [apply G; lia | assumption].
  - injection E as <- <- <-.
    split; [apply G; [left; reflexivity | lia] | assumption].
Qed.

Lemma refinar_comunidade_inv (fuel : nat) (G : Graph) (c c0 lo : Z)
  (F : Dict.t Z) (hi : Z) (s : rng) (F' : Dict.t Z) (hi' : Z) (s' : rng) :
  inv_refinar P c0 lo F hi ->
  refinar_comunidade set_iter fuel G P (F, hi, s) c = Ok (F', hi', s') ->
  inv_refinar P c hi F' hi'.
Proof.
  intros HI E; unfold refinar_comunidade in E.
  set (nos := map fst (filter (fun e => Z.eqb (snd e) c) P)) in E.
  destruct (length nos <=? 1)%nat.
  - injection E as <- <- <-; eapply inv_refinar_next; eauto.
  - inv_bind E. destruct a as [R s1].
    inv_bind E. destruct a as [[F1 mapa1] hi1].
    injection E as <- <- <-.
    set (locais := filter (fun e => memZ (fst e) nos) R) in Ha0.
    pose (J := fun st : Dict.t Z * Dict.t Z * Z =>
                 inv_refinar P c hi (fst (fst st)) (snd st)
                 /\ forall k v, Dict.get (snd (fst st)) k = Some v ->
                                (hi <= v < snd st)%Z).
    assert (HJ : J (F1, mapa1, hi1)).
    { eapply (foldM_inv _ _ J); [| |exact Ha0].
      - intros [[Fa ma] ha] e [[Fb mb] hb] He [Hinv Hm] Hstep.
        unfold J; simpl.
        eapply renomear_inv; eauto.
        apply filter_In in He; destruct He as [_ He].
        apply memZ_In in He.
        apply In_nos_get; assumption.
      - split; simpl; [eapply inv_refinar_next; eauto | discriminate]. }
    destruct HJ as [HJ _]; exact HJ.
Qed.

Lemma refinar_particao_inv (fuel : nat) (G : Graph) (s : rng)
  (F : Dict.t Z) (s' : rng) :
  refinar_particao set_iter fuel G P s = Ok (F, s') ->
  exists c lo hi, inv_refinar P c lo F hi.
Proof.
  unfold refinar_particao; intros E.
  inv_bind E. destruct a as [[F1 hi1] s1]. injection E as <- <-.
  pose (J := fun st : Dict.t Z * Z * rng =>
               exists c lo, inv_refinar P c lo (fst (fst st)) (snd (fst st))).
  assert (HJ : J (F1, hi1, s1)).
  { eapply (foldM_inv _ _ J); [| |exact Ha].
    - intros [[Fa ha] sa] c [[Fb hb] sb] _ [c0 [lo Hinv]] Hstep.
      exists c, ha; cbn [fst snd] in *.
      eapply refinar_comunidade_inv; eauto.
    - exists 0%Z, (primeiro_id_novo P); simpl; repeat split; try lia.
      + intros a ca fa Ha1 Ha2; left; congruence.
      + intros a ca fa Ha1 Ha2 Hge; rewrite Ha1 in Ha2; injection Ha2 as <-.
        apply primeiro_id_novo_gt in Ha1; lia. }
  destruct HJ as [c [lo HJ]]; exists c, lo, hi1; exact HJ.
Qed.

End Refinamento.

(** C4: the refined partition has the keys of the partition it refines,
    and two nodes of different communities of the input are in different
    communities of the output. *)
Theorem refinar_particao_nao_funde (set_iter : list Z -> list Z)
  (fuel : nat) (G : Graph) (P : Dict.t Z) (s : rng)
  (F : Dict.t Z) (s' : rng) :
  wf_dict P = true ->
  refinar_particao set_iter fuel G P s = Ok (F, s') ->
  Dict.keys F = Dict.keys P
  /\ forall a b ca cb fa fb,
      Dict.get P a = Some ca -> Dict.get P b = Some cb -> ca <> cb ->
      Dict.get F a = Some fa -> Dict.get F b = Some fb -> fa <> fb.
Proof.
  intros Hwf E; apply nodupb_NoDup in Hwf.
  destruct (refinar_particao_inv set_iter P Hwf fuel G s F s' E)
    as (c & lo & hi & Hk & Hlo & H1 & H2 & H3).
  split; [assumption|].
  intros a b ca cb fa fb Ha Hb Hne Hfa Hfb Heq; subst fb.
  destruct (H1 _ _ _ Ha Hfa) as [->|Hra].
  - destruct (H1 _ _ _ Hb Hfb) as [->|Hrb]; [contradiction|].
    apply primeiro_id_novo_gt in Ha; lia.
  - destruct (H1 _ _ _ Hb Hfb) as [->|Hrb].
    + apply primeiro_id_novo_gt in Hb; lia.
    + apply Hne. destruct (Z_lt_le_dec fa lo) as [Hlt|Hge].
      * eapply H3; eauto; lia.
      * rewrite (H2 _ _ _ Ha Hfa Hge), (H2 _ _ _ Hb Hfb Hge); reflexivity.
Qed.

Lemma refinar_particao_nao_funde_witness :
  let P := [(0, 1); (1, 1); (2, 1); (3, 1); (4, 2); (5, 2)]%Z in
  let F := [(0, 3); (1, 3); (2, 3); (3, 4); (4, 2); (5, 2)]%Z in
  Dict.keys F = Dict.keys P
  /\ forall a b ca cb fa fb,
      Dict.get P a = Some ca -> Dict.get P b = Some cb -> ca <> cb ->
      Dict.get F a = Some fa -> Dict.get F b = Some fb -> fa <> fb.
Proof.
  apply (refinar_particao_nao_funde ordem_crescente 10 grafo_triangulos
           [(0, 1); (1, 1); (2, 1); (3, 1); (4, 2); (5, 2)]%Z [1; 2; 3]%nat
           [(0, 3); (1, 3); (2, 3); (3, 4); (4, 2); (5, 2)]%Z []).
  - reflexivity.
  - vm_compute; reflexivity.
Defined.

(** ** Sums *)

Lemma somaf_ext (A : Type) (f g : A -> Q) (l : list A) :
  (forall x, In x l -> f x == g x) -> somaf f l == somaf g l.
Proof.
  induction l as [|x l IH]; intros H; simpl; [reflexivity|].
  rewrite (H x) by (left; reflexivity).
  rewrite IH by (intros; apply H; right; assumption).
  reflexivity.
Qed.

Lemma somaf_app (A : Type) (f : A -> Q) (l1 l2 : list A) :
  somaf f (l1 ++ l2) == somaf f l1 + somaf f l2.
Proof.
  induction l1 as [|x l1 IH]; simpl; [ring | rewrite IH; ring].
Qed.

Lemma somaf_plus (A : Type) (f g : A -> Q) (l : list A) :
  somaf (fun x => f x + g x) l == somaf f l + somaf g l.
Proof.
  induction l as [|x l IH]; simpl; [ring | rewrite IH; ring].
Qed.

Lemma somaf_zero (A : Type) (f : A -> Q) (l : list A) :
  (forall x, In x l -> f x == 0) -> somaf f l == 0.
Proof.
  induction l as [|x l IH]; intros H; simpl; [reflexivity|].
  rewrite (H x) by (left; reflexivity).
  rewrite IH by (intros; apply H; right; assumption).
  ring.
Qed.

Lemma somaf_nonneg (A : Type) (f : A -> Q) (l : list A) :
  (forall x, In x l -> 0 <= f x) -> 0 <= somaf f l.
Proof.
  induction l as [|x l IH]; intros H; simpl; [apply Qle_refl|].
  setoid_replace 0 with (0 + 0) at 1 by ring.
  apply Qplus_le_compat; [apply H; left; reflexivity|].
  apply IH; intros; apply H; right; assumption.
Qed.

Lemma somaf_perm (A : Type) (f : A -> Q) (l l' : list A) :
  Permutation l l' -> somaf f l == somaf f l'.
Proof.
  induction 1; simpl.
  - reflexivity.
  - rewrite IHPermutation; reflexivity.
  - ring.
  - rewrite IHPermutation1; assumption.
Qed.

Lemma somaf_filter (A : Type) (f : A -> Q) (p : A -> bool) (l : list A) :
  somaf f (filter p l) == somaf (fun x => if p x then f x else 0) l.
Proof.
  induction l as [|x l IH]; simpl; [reflexivity|].
  destruct (p x); simpl; rewrite IH; ring.
Qed.

Lemma somaf_map (A B : Type) (f : B -> Q) (g : A -> B) (l : list A) :
  somaf f (map g l) = somaf (fun x => f (g x)) l.
Proof.
  induction l as [|x l IH]; simpl; [reflexivity | rewrite IH; reflexivity].
Qed.

Lemma fold_left_Qplus (l : list Q) (a : Q) :
  fold_left Qplus l a == a + somaf (fun x => x) l.
Proof.
  revert a; induction l as [|x l IH]; intros a; cbn [fold_left somaf]; [ring|].
  rewrite IH; ring.
Qed.

Lemma soma_somaf (A : Type) (f : A -> Q) (l : list A) :
  soma (map f l) == somaf f l.
Proof.
  unfold soma; rewrite fold_left_Qplus, somaf_map, Qplus_0_l; reflexivity.
Qed.

(** A sum in which one index only counts. *)
Lemma somaf_um (k0 : Z) (c : Q) (l : list Z) :
  NoDup l ->
  somaf (fun k => if Z.eqb k k0 then c else 0) l
  == if memZ k0 l then c else 0.
Proof.
  induction 1 as [|x l Hx Hnd IH]; simpl; [reflexivity|].
  rewrite IH. rewrite (Z.eqb_sym k0 x).
  destruct (Z.eqb_spec x k0) as [->|Hne]; simpl.
  - apply memZ_false in Hx; rewrite Hx; ring.
  - ring.
Qed.

(** The sum over the entries of a dictionary whose keys are in [S] is the
    sum over [S] of what the dictionary holds. *)
Lemma somaf_dict (V : Type) (f : Z -> V -> Q) (d : Dict.t V) (S : list Z) :
  NoDup (Dict.keys d) -> NoDup S ->
  somaf (fun e => if memZ (fst e) S then f (fst e) (snd e) else 0) d
  == somaf (fun k => match Dict.get d k with
                     | Some x => f k x
                     | None => 0
                     end) S.
Proof.
  intros Hd HS; induction d as [|[k0 x0] d IH]; simpl.
  - symmetry; apply somaf_zero; reflexivity.
  - inversion Hd as [|? ? Hk0 Hd']; subst.
    rewrite (IH Hd').
    rewrite <- (somaf_um k0 (f k0 x0) S HS), <- somaf_plus.
    apply somaf_ext; intros k _.
    destruct (Z.eqb_spec k k0) as [->|Hne]; [|ring].
    apply get_None_keys in Hk0; rewrite Hk0; ring.
Qed.

(** Two sums that differ at two indices. *)
Lemma somaf_dois (f g : Z -> Q) (a b : Z) (l : list Z) :
  NoDup l -> In a l -> In b l -> a <> b ->
  (forall x, In x l -> x <> a -> x <> b -> f x == g x) ->
  somaf f l - somaf g l == (f a - g a) + (f b - g b).
Proof.
  intros Hnd Ha Hb Hab Hfg.
  assert (E : somaf f l ==
              somaf g l
              + somaf (fun k => if Z.eqb k a then f a - g a else 0) l
              + somaf (fun k => if Z.eqb k b then f b - g b else 0) l).
  { rewrite <- !somaf_plus; apply somaf_ext; intros x Hx.
    destruct (Z.eqb_spec x a) as [->|Hxa].
    - destruct (Z.eqb_spec a b); [contradiction | ring].
    - destruct (Z.eqb_spec x b) as [->|Hxb]; [ring|].
      rewrite (Hfg x Hx Hxa Hxb); ring. }
  rewrite E, !somaf_um by assumption.
  apply memZ_In in Ha, Hb; rewrite Ha, Hb; ring.
Qed.

(** ** Well-formed graphs *)

Lemma attrs_eqb_eq (a b : attrs) : attrs_eqb a b = true <-> a = b.
Proof.
  destruct a as [[n1 d1]|], b as [[n2 d2]|]; simpl;
    try (split; intros; congruence).
  rewrite andb_true_iff, Z.eqb_eq, Pos.eqb_eq; split.
  - intros [-> ->]; reflexivity.
  - intros E; injection E as -> ->; split; reflexivity.
Qed.

Lemma wf_graph_spec (G : Graph) :
  wf_graph G = true <->
  NoDup (nodes G)
  /\ forall u nbrs, In (u, nbrs) G ->
       NoDup (Dict.keys nbrs)
       /\ forall v d, In (v, d) nbrs -> adj G v u = Some d.
Proof.
  unfold wf_graph; rewrite andb_true_iff, nodupb_NoDup, forallb_forall.
  split; intros [Hn H]; (split; [exact Hn|]).
  - intros u nbrs Hin; specialize (H _ Hin); simpl in H.
    rewrite andb_true_iff, nodupb_NoDup, forallb_forall in H.
    destruct H as [H1 H2]; split; [exact H1|].
    intros v d Hvd; specialize (H2 _ Hvd); simpl in H2.
    destruct (adj G v u) as [d'|]; [|discriminate].
    apply attrs_eqb_eq in H2; congruence.
  - intros [u nbrs] Hin; destruct (H _ _ Hin) as [H1 H2]; simpl.
    rewrite andb_true_iff, nodupb_NoDup, forallb_forall; split; [exact H1|].
    intros [v d] Hvd; simpl; rewrite (H2 _ _ Hvd).
    apply attrs_eqb_eq; reflexivity.
Qed.

Lemma wf_graph_nodes (G : Graph) : wf_graph G = true -> NoDup (nodes G).
Proof. intros H; apply wf_graph_spec in H; tauto. Qed.

Lemma wf_graph_nbrs (G : Graph) (u : Z) (nbrs : Dict.t attrs) :
  wf_graph G = true -> Dict.get G u = Some nbrs -> NoDup (Dict.keys nbrs).
Proof.
  intros H E; apply wf_graph_spec in H; destruct H as [_ H].
  apply get_In in E; apply (H _ _ E).
Qed.

Lemma adj_sym (G : Graph) (u v : Z) (d : attrs) :
  wf_graph G = true -> adj G u v = Some d -> adj G v u = Some d.
Proof.
  intros H E; apply wf_graph_spec in H; destruct H as [_ H].
  unfold adj in E; destruct (Dict.get G u) as [nbrs|] eqn:Eu; [|discriminate].
  apply get_In in Eu, E; apply (H _ _ Eu); assumption.
Qed.

Lemma adj_nodes (G : Graph) (u v : Z) (d : attrs) :
  wf_graph G = true -> adj G u v = Some d ->
  In u (nodes G) /\ In v (nodes G).
Proof.
  intros H E; pose proof (adj_sym _ _ _ _ H E) as E'.
  unfold adj in E, E'.
  destruct (Dict.get G u) eqn:Eu; [|discriminate].
  destruct (Dict.get G v) eqn:Ev; [|discriminate].
  split; eapply get_In_keys; eauto.
Qed.

Lemma peso_entre_sym (G : Graph) (u v : Z) :
  wf_graph G = true -> peso_entre G u v = peso_entre G v u.
Proof.
  intros H; unfold peso_entre.
  destruct (adj G u v) as [d|] eqn:E1.
  - rewrite (adj_sym _ _ _ _ H E1); reflexivity.
  - destruct (adj G v u) as [d|] eqn:E2; [|reflexivity].
    rewrite (adj_sym _ _ _ _ H E2) in E1; discriminate.
Qed.

Lemma peso_entre_fora (G : Graph) (u v : Z) :
  ~ In u (nodes G) -> peso_entre G u v = 0.
Proof.
  intros H; unfold peso_entre, adj.
  apply get_None_keys in H; rewrite H; reflexivity.
Qed.

Lemma get_filter (V : Type) (p : Z -> bool) (d : Dict.t V) (k : Z) :
  Dict.get (filter (fun a => p (fst a)) d) k
  = if p k then Dict.get d k else None.
Proof.
  induction d as [|[k0 x0] d IH]; simpl; [destruct (p k); reflexivity|].
  destruct (p k0) eqn:E0; simpl; rewrite IH;
    destruct (Z.eqb_spec k k0) as [->|]; try reflexivity.
  - rewrite E0; reflexivity.
  - rewrite E0; reflexivity.
Qed.

Lemma NoDup_filter (A : Type) (p : A -> bool) (l : list A) :
  NoDup l -> NoDup (filter p l).
Proof.
  induction 1 as [|x l Hx Hnd IH]; simpl; [constructor|].
  destruct (p x); [constructor; [|assumption] | assumption].
  intros H; apply filter_In in H; tauto.
Qed.

(** The weights of the neighbours that are in [S]. *)
Lemma somaf_vizinhos (G : Graph) (u : Z) (nbrs : Dict.t attrs) (S : list Z) :
  wf_graph G = true -> Dict.get G u = Some nbrs -> NoDup S ->
  somaf (fun a => if memZ (fst a) S then get_weight (snd a) else 0) nbrs
  == somaf (peso_entre G u) S.
Proof.
  intros Hwf Eu HS.
  rewrite (somaf_dict _ (fun _ d => get_weight d) nbrs S
             (wf_graph_nbrs _ _ _ Hwf Eu) HS).
  apply somaf_ext; intros k _.
  unfold peso_entre, adj; rewrite Eu; reflexivity.
Qed.

Lemma somaf_todos_vizinhos (G : Graph) (u : Z) (nbrs : Dict.t attrs) :
  wf_graph G = true -> Dict.get G u = Some nbrs ->
  somaf (fun a => get_weight (snd a)) nbrs
  == somaf (peso_entre G u) (nodes G).
Proof.
  intros Hwf Eu.
  rewrite <- (somaf_vizinhos G u nbrs (nodes G) Hwf Eu (wf_graph_nodes _ Hwf)).
  apply somaf_ext; intros [v d] Hvd; simpl.
  assert (Hv : In v (nodes G)).
  { apply (adj_nodes G u v d Hwf).
    unfold adj; rewrite Eu; apply In_get;
      [eapply wf_graph_nbrs; eauto | assumption]. }
  apply memZ_In in Hv; rewrite Hv; reflexivity.
Qed.

Lemma degree_nbrs_somaf (n : Z) (nbrs : Dict.t attrs) :
  degree_nbrs n nbrs
  == somaf (fun a => get_weight (snd a)) nbrs
     + match Dict.get nbrs n with Some d => get_weight d | None => 0 end.
Proof.
  unfold degree_nbrs, Dict.values.
  rewrite map_map, soma_somaf; reflexivity.
Qed.

(** The degree is the weight towards every node, the loop twice. *)
Lemma grau_peso_entre (G : Graph) (u : Z) :
  wf_graph G = true ->
  grau G u == somaf (peso_entre G u) (nodes G) + peso_entre G u u.
Proof.
  intros Hwf; unfold grau.
  destruct (Dict.get G u) as [nbrs|] eqn:Eu.
  - rewrite degree_nbrs_somaf, (somaf_todos_vizinhos G u nbrs Hwf Eu).
    unfold peso_entre at 3, adj; rewrite Eu; reflexivity.
  - apply get_None_keys in Eu.
    rewrite (peso_entre_fora G u u Eu).
    rewrite somaf_zero; [reflexivity|].
    intros v _; rewrite (peso_entre_fora G u v Eu); reflexivity.
Qed.

Lemma size_grau (G : Graph) :
  wf_graph G = true -> size G == somaf (grau G) (nodes G) / 2.
Proof.
  intros Hwf; unfold size, nodes, Dict.keys.
  rewrite soma_somaf, somaf_map.
  apply Qdiv_comp; [|reflexivity].
  apply somaf_ext; intros [u nbrs] Hin; simpl.
  unfold grau; rewrite (In_get _ G u nbrs (wf_graph_nodes _ Hwf) Hin).
  reflexivity.
Qed.

(** The size of an induced subgraph. *)
Lemma size_subgraph (G : Graph) (S : list Z) :
  wf_graph G = true -> NoDup S ->
  size (subgraph G S) == peso_dentro G S.
Proof.
  intros Hwf HS; unfold size, subgraph, peso_dentro.
  apply Qdiv_comp; [|reflexivity].
  rewrite soma_somaf, somaf_map; cbn [fst snd].
  rewrite somaf_filter.
  rewrite (somaf_dict (Dict.t attrs)
             (fun u nbrs =>
                degree_nbrs u (filter (fun a => memZ (fst a) S) nbrs))
             G S (wf_graph_nodes _ Hwf) HS).
  apply somaf_ext; intros u Hu; cbv beta.
  destruct (Dict.get G u) as [nbrs|] eqn:Eu.
  - rewrite degree_nbrs_somaf, somaf_filter.
    rewrite (somaf_vizinhos G u nbrs S Hwf Eu HS).
    rewrite (get_filter _ (fun k => memZ k S)).
    apply memZ_In in Hu; rewrite Hu.
    unfold peso_entre at 3, adj; rewrite Eu; reflexivity.
  - apply get_None_keys in Eu.
    rewrite (peso_entre_fora G u u Eu).
    rewrite somaf_zero; [reflexivity|].
    intros v _; rewrite (peso_entre_fora G u v Eu); reflexivity.
Qed.

(** ** Every edge once: the total weight and the sum of the degrees *)

Lemma soma_triangular_dobro (w : Z -> Z -> Q) (l : list Z) :
  (forall u v, w u v == w v u) ->
  somaf (fun u => somaf (w u) l + w u u) l == 2 * soma_triangular w l.
Proof.
  intros Hsym; induction l as [|a l IH]; cbn [somaf soma_triangular]; [ring|].
  rewrite (somaf_ext _ (fun u => w u a + somaf (w u) l + w u u)
             (fun u => w a u + (somaf (w u) l + w u u)) l)
    by (intros u _; rewrite (Hsym u a); ring).
  rewrite somaf_plus, IH; ring.
Qed.

Lemma somaf_restrito (X : Z -> Q) (L S : list Z) :
  NoDup L -> NoDup S -> (forall u, ~ In u L -> X u == 0) ->
  somaf (fun u => if memZ u S then X u else 0) L == somaf X S.
Proof.
  intros HL HS HX.
  pose (d := map (fun u => (u, tt)) L).
  assert (Hk : Dict.keys d = L).
  { unfold d, Dict.keys; rewrite map_map; simpl; apply map_id. }
  assert (E : somaf (fun u => if memZ u S then X u else 0) L
              == somaf (fun e : Z * unit =>
                          if memZ (fst e) S then X (fst e) else 0) d).
  { unfold d; rewrite somaf_map; reflexivity. }
  rewrite E, (somaf_dict unit (fun k _ => X k) d S);
    [|rewrite Hk|]; try assumption.
  apply somaf_ext; intros k _.
  destruct (Dict.get d k) eqn:Ek; [reflexivity|].
  apply get_None_keys in Ek; rewrite Hk in Ek.
  symmetry; apply HX; assumption.
Qed.

Section ArestasUmaVez.

Variable G : Graph.
Hypothesis G_wf : wf_graph G = true.
Variable p : Z -> bool.

Lemma peso_restrito_sym (u v : Z) :
  peso_restrito G p u v == peso_restrito G p v u.
Proof.
  unfold peso_restrito; rewrite (andb_comm (p u)), (peso_entre_sym G u v G_wf).
  reflexivity.
Qed.

Lemma edges_from_somaf (G' : Graph) (seen : list Z) :
  incl G' G ->
  NoDup (Dict.keys G') ->
  (forall v, In v (nodes G) ->
             memZ v seen = negb (memZ v (Dict.keys G'))) ->
  somaf (fun e => if p (fst (fst e)) && p (snd (fst e))
                  then get_weight (snd e) else 0)
        (edges_from G' seen)
  == soma_triangular (peso_restrito G p) (Dict.keys G').
Proof.
  revert seen; induction G' as [|[u nbrs] G' IH]; intros seen Hin Hnd Hseen.
  - reflexivity.
  - cbn [edges_from Dict.keys map fst soma_triangular].
    assert (Eu : Dict.get G u = Some nbrs).
    { apply In_get; [apply wf_graph_nodes; assumption|].
      apply Hin; left; reflexivity. }
    inversion Hnd as [|? ? Hu Hnd']; subst.
    rewrite somaf_app, somaf_map, somaf_filter; cbn [fst snd].
    rewrite IH.
    + apply Qplus_comp; [|reflexivity].
      rewrite (somaf_ext _ _
                 (fun a : Z * attrs =>
                    if memZ (fst a) (u :: Dict.keys G')
                    then (fun v d => if p u && p v then get_weight d else 0)
                           (fst a) (snd a)
                    else 0) nbrs).
      * rewrite (somaf_dict attrs
                   (fun v d => if p u && p v then get_weight d else 0)
                   nbrs (u :: Dict.keys G')
                   (wf_graph_nbrs _ _ _ G_wf Eu) Hnd).
        apply somaf_ext; intros v _.
        unfold peso_restrito, peso_entre, adj; rewrite Eu.
        destruct (Dict.get nbrs v); destruct (p u && p v); reflexivity.
      * intros [v d] Hvd; cbn [fst snd].
        assert (Hv : In v (nodes G)).
        { apply (adj_nodes G u v d G_wf).
          unfold adj; rewrite Eu; apply In_get;
            [eapply wf_graph_nbrs; eauto | assumption]. }
        rewrite (Hseen v Hv), negb_involutive; reflexivity.
    + intros e He; apply Hin; right; assumption.
    + assumption.
    + intros v Hv; cbn [memZ existsb].
      change (existsb (Z.eqb v) seen) with (memZ v seen).
      rewrite (Hseen v Hv); cbn [memZ existsb Dict.keys map fst].
      change (existsb (Z.eqb v) (map fst G')) with (memZ v (Dict.keys G')).
      destruct (Z.eqb_spec v u) as [->|Hne]; cbn [negb orb]; [|reflexivity].
      apply memZ_false in Hu; rewrite Hu; reflexivity.
Qed.

Lemma edges_somaf :
  somaf (fun e => if p (fst (fst e)) && p (snd (fst e))
                  then get_weight (snd e) else 0)
        (edges G)
  == somaf (fun u => somaf (peso_restrito G p u) (nodes G)
                    + peso_restrito G p u u)
           (nodes G) / 2.
Proof.
  unfold edges; rewrite edges_from_somaf.
  - rewrite (soma_triangular_dobro (peso_restrito G p) (nodes G)
               peso_restrito_sym).
    unfold nodes; field.
  - apply incl_refl.
  - apply wf_graph_nodes; assumption.
  - intros v Hv; apply memZ_In in Hv; unfold nodes in Hv; rewrite Hv.
    reflexivity.
Qed.

End ArestasUmaVez.

(** The total weight is [G.size(weight='weight')]. *)
Lemma peso_total_size (G : Graph) :
  wf_graph G = true -> peso_total G == size G.
Proof.
  intros Hwf; unfold peso_total.
  rewrite (somaf_ext _ _
             (fun e : Z * Z * attrs =>
                if (fun _ => true) (fst (fst e))
                   && (fun _ => true) (snd (fst e))
                then get_weight (snd e) else 0))
    by (intros; reflexivity).
  rewrite (edges_somaf G Hwf (fun _ => true)), size_grau by assumption.
  apply Qdiv_comp; [|reflexivity].
  apply somaf_ext; intros u _.
  rewrite grau_peso_entre by assumption; reflexivity.
Qed.

(** The weight inside a community is the size of the subgraph it
    induces. *)
Lemma peso_interno_dentro (G : Graph) (S : list Z) :
  wf_graph G = true -> NoDup S -> peso_interno G S == peso_dentro G S.
Proof.
  intros Hwf HS; unfold peso_interno, peso_dentro.
  rewrite somaf_filter.
  rewrite (edges_somaf G Hwf (fun k => memZ k S)).
  apply Qdiv_comp; [|reflexivity].
  rewrite <- (somaf_restrito
                (fun u => somaf (peso_entre G u) S + peso_entre G u u)
                (nodes G) S (wf_graph_nodes _ Hwf) HS).
  - apply somaf_ext; intros u _; unfold peso_restrito.
    destruct (memZ u S) eqn:Eu; cbn [andb].
    + rewrite (somaf_restrito (peso_entre G u) (nodes G) S
                 (wf_graph_nodes _ Hwf) HS); [reflexivity|].
      intros v Hv; rewrite (peso_entre_sym G u v Hwf).
      rewrite (peso_entre_fora G v u Hv); reflexivity.
    + rewrite somaf_zero; [ring | reflexivity].
  - intros u Hu; rewrite (peso_entre_fora G u u Hu).
    rewrite somaf_zero; [reflexivity|].
    intros v _; rewrite (peso_entre_fora G u v Hu); reflexivity.
Qed.

Lemma peso_interno_subgraph (G : Graph) (S : list Z) :
  wf_graph G = true -> NoDup S -> peso_interno G S == size (subgraph G S).
Proof.
  intros Hwf HS; rewrite peso_interno_dentro, size_subgraph by assumption.
  reflexivity.
Qed.

(** ** The communities of a partition *)

Lemma In_distintos (l : list Z) (x : Z) : In x (distintos l) <-> In x l.
Proof.
  induction l as [|y l IH]; simpl; [reflexivity|].
  rewrite filter_In, IH, negb_true_iff, Z.eqb_neq.
  destruct (Z.eq_dec y x); intuition congruence.
Qed.

Lemma NoDup_distintos (l : list Z) : NoDup (distintos l).
Proof.
  induction l as [|y l IH]; simpl; constructor.
  - rewrite filter_In, negb_true_iff, Z.eqb_neq; intros [_ H]; congruence.
  - apply NoDup_filter; assumption.
Qed.

Lemma distintos_snoc (l : list Z) (c : Z) :
  distintos (l ++ [c])
  = if memZ c l then distintos l else distintos l ++ [c].
Proof.
  induction l as [|x l IH]; simpl; [reflexivity|].
  rewrite IH. rewrite (Z.eqb_sym c x).
  destruct (Z.eqb_spec x c) as [->|Hne]; simpl.
  - destruct (memZ c l); [reflexivity|].
    rewrite filter_app; simpl; rewrite Z.eqb_refl; simpl.
    rewrite app_nil_r; reflexivity.
  - destruct (memZ c l); [reflexivity|].
    rewrite filter_app; simpl.
    destruct (Z.eqb_spec c x); [congruence | reflexivity].
Qed.

Lemma nos_em_snoc (P : Dict.t Z) (n c c' : Z) :
  nos_em (P ++ [(n, c)]) c'
  = nos_em P c' ++ (if Z.eqb c c' then [n] else []).
Proof.
  unfold nos_em; rewrite filter_app, map_app; simpl.
  destruct (Z.eqb c c'); reflexivity.
Qed.

Lemma nos_em_fora (P : Dict.t Z) (c : Z) :
  ~ In c (Dict.values P) -> nos_em P c = [].
Proof.
  unfold nos_em; induction P as [|[n c0] P IH]; simpl; intros H;
    [reflexivity|].
  destruct (Z.eqb_spec c0 c); [exfalso; auto|].
  apply IH; intros Hin; apply H; right; assumption.
Qed.

Lemma get_map_keys (V : Type) (f : Z -> V) (l : list Z) (k : Z) :
  Dict.get (map (fun c => (c, f c)) l) k
  = if memZ k l then Some (f k) else None.
Proof.
  induction l as [|x l IH]; simpl; [reflexivity|].
  destruct (Z.eqb_spec k x) as [->|]; simpl; [reflexivity | exact IH].
Qed.

Lemma set_map_keys (V : Type) (f : Z -> V) (l : list Z) (k : Z) (v : V) :
  NoDup l -> In k l ->
  Dict.set (map (fun c => (c, f c)) l) k v
  = map (fun c => (c, if Z.eqb c k then v else f c)) l.
Proof.
  induction 1 as [|x l Hx Hnd IH]; simpl; [intros []|].
  intros Hk; rewrite (Z.eqb_sym x k).
  destruct (Z.eqb_spec k x) as [->|Hne].
  - f_equal. apply map_ext_in; intros c Hc.
    destruct (Z.eqb_spec c x); [congruence | reflexivity].
  - f_equal. apply IH. destruct Hk; [congruence | assumption].
Qed.

Lemma memZ_distintos (l : list Z) (x : Z) : memZ x (distintos l) = memZ x l.
Proof.
  destruct (memZ x l) eqn:E.
  - apply memZ_In, In_distintos, memZ_In; assumption.
  - apply memZ_false; rewrite In_distintos; apply memZ_false; assumption.
Qed.

Lemma grupos_snoc (P : Dict.t Z) (n c : Z) :
  match Dict.get (grupos P) c with
  | Some s => Dict.set (grupos P) c (s ++ [n])
  | None => Dict.set (grupos P) c [n]
  end = grupos (P ++ [(n, c)]).
Proof.
  unfold grupos at 1 2. rewrite get_map_keys, memZ_distintos.
  unfold grupos, Dict.values. rewrite map_app; simpl; rewrite distintos_snoc.
  fold (Dict.values P).
  destruct (memZ c (Dict.values P)) eqn:Ec.
  - rewrite set_map_keys;
      [|apply NoDup_distintos | apply In_distintos, memZ_In; assumption].
    apply map_ext; intros c'. rewrite nos_em_snoc, (Z.eqb_sym c c').
    destruct (Z.eqb_spec c' c) as [->|_]; [reflexivity|].
    rewrite app_nil_r; reflexivity.
  - apply memZ_false in Ec.
    rewrite keys_set_new.
    + rewrite map_app; simpl. rewrite nos_em_snoc, Z.eqb_refl.
      rewrite (nos_em_fora P c Ec); simpl.
      apply (f_equal (fun x => x ++ [(c, [n])])).
      apply map_ext_in; intros c' Hc'. rewrite nos_em_snoc.
      rewrite In_distintos in Hc'.
      destruct (Z.eqb_spec c c'); [subst; exfalso; apply Ec; exact Hc'|].
      rewrite app_nil_r; reflexivity.
    + unfold Dict.keys; rewrite map_map; simpl; rewrite map_id.
      rewrite In_distintos; assumption.
Qed.

Lemma agrupar_por_comunidade_app (P1 P2 : Dict.t Z) :
  fold_left
    (fun mapa e =>
       let '(no, id_comunidade) := e in
       match Dict.get mapa id_comunidade with
       | Some s => Dict.set mapa id_comunidade (s ++ [no])
       | None => Dict.set mapa id_comunidade [no]
       end)
    P2 (grupos P1)
  = grupos (P1 ++ P2).
Proof.
  revert P1; induction P2 as [|[n c] P2 IH]; intros P1; simpl.
  - rewrite app_nil_r; reflexivity.
  - rewrite grupos_snoc, IH, <- app_assoc; reflexivity.
Qed.

(** [agrupar_por_comunidade] lists every community once, in the order of
    appearance, with its members in the order of the partition. *)
Lemma agrupar_por_comunidade_grupos (P : Dict.t Z) :
  agrupar_por_comunidade P = grupos P.
Proof.
  unfold agrupar_por_comunidade.
  apply (agrupar_por_comunidade_app [] P).
Qed.

Lemma NoDup_nos_em (P : Dict.t Z) (c : Z) :
  NoDup (Dict.keys P) -> NoDup (nos_em P c).
Proof.
  unfold nos_em, Dict.keys; induction P as [|[n c0] P IH]; simpl;
    intros H; [constructor|].
  inversion H as [|? ? Hn Hnd]; subst.
  destruct (Z.eqb c0 c); simpl; [|auto].
  constructor; [|auto].
  intros Hin; apply Hn. apply in_map_iff in Hin.
  destruct Hin as [e [E He]]; apply filter_In in He.
  apply in_map_iff; exists e; tauto.
Qed.

Lemma In_nos_em (P : Dict.t Z) (c n : Z) :
  In n (nos_em P c) <-> In (n, c) P.
Proof.
  unfold nos_em; rewrite in_map_iff; split.
  - intros [[n' c'] [E H]]; apply filter_In in H; destruct H as [H Hc].
    simpl in *; apply Z.eqb_eq in Hc; subst; assumption.
  - intros H; exists (n, c); split; [reflexivity|].
    apply filter_In; split; [assumption | apply Z.eqb_refl].
Qed.

Lemma In_nos_em_keys (P : Dict.t Z) (c n : Z) :
  In n (nos_em P c) -> In n (Dict.keys P).
Proof.
  intros H; apply In_nos_em in H.
  apply (in_map fst) in H; exact H.
Qed.

(** ** The modularity the program computes *)

Section Modularidade.

Variable set_iter : list Z -> list Z.
Hypothesis set_iter_NoDup : forall l, NoDup (set_iter l).
Hypothesis set_iter_In : forall l x, In x (set_iter l) <-> In x l.

Lemma set_iter_perm (l : list Z) : NoDup l -> Permutation (set_iter l) l.
Proof.
  intros H; apply NoDup_Permutation; auto.
Qed.

Lemma soma_graus_acc (G : Graph) (l : list Z) (acc : Q) :
  (forall n, In n l -> In n (nodes G)) ->
  exists r,
    foldM (fun acc no => k <- degree G no ;; Ok (acc + k)) l acc = Ok r
    /\ r == acc + somaf (grau G) l.
Proof.
  revert acc; induction l as [|n l IH]; intros acc H; cbn [foldM somaf].
  - exists acc; split; [reflexivity | ring].
  - assert (Hn : In n (nodes G)) by (apply H; left; reflexivity).
    apply In_keys_get in Hn; destruct Hn as [nbrs En].
    unfold degree at 1, grau at 1; rewrite En; cbn [bind].
    destruct (IH (acc + degree_nbrs n nbrs)) as [r [E1 E2]];
      [intros; apply H; right; assumption|].
    exists r; split; [exact E1 | rewrite E2; ring].
Qed.

(** The sum of the degrees of a community of nodes of the graph is
    computed, and is Sigma-deg. *)
Lemma soma_graus_vale (G : Graph) (nos : list Z) :
  NoDup nos -> (forall n, In n nos -> In n (nodes G)) ->
  exists r, soma_graus set_iter G nos = Ok r /\ r == soma_dos_graus G nos.
Proof.
  intros Hnd Hin; unfold soma_graus.
  destruct (soma_graus_acc G (set_iter nos) 0) as [r [E1 E2]].
  - intros n Hn; apply Hin, set_iter_In; assumption.
  - exists r; split; [exact E1|].
    rewrite E2, (somaf_perm _ _ _ _ (set_iter_perm nos Hnd)).
    unfold soma_dos_graus; ring.
Qed.

Lemma calcular_modularidade_acc (G : Graph) (m : Q) (l : list (Z * list Z))
  (acc : Q) :
  wf_graph G = true -> m == peso_total G ->
  (forall c nos, In (c, nos) l ->
     NoDup nos /\ forall n, In n nos -> In n (nodes G)) ->
  exists r,
    foldM
      (fun modularidade_total e =>
         let nos_comunidade := snd e in
         soma_graus <- soma_graus set_iter G nos_comunidade ;;
         let subgrafo := subgraph G nos_comunidade in
         let peso_arestas_internas := size subgrafo in
         let frac_interna := peso_arestas_internas / m in
         let frac_graus := soma_graus / (2 * m) in
         Ok (modularidade_total + (frac_interna - frac_graus ^ 2)))
      l acc = Ok r
    /\ r == acc + somaf (fun e => contribuicao G (snd e)) l.
Proof.
  intros Hwf Hm; revert acc; induction l as [|[c nos] l IH]; intros acc H;
    cbn [foldM somaf snd].
  - exists acc; split; [reflexivity | ring].
  - destruct (H c nos (or_introl eq_refl)) as [Hnd Hin].
    destruct (soma_graus_vale G nos Hnd Hin) as [sg [E1 E2]].
    rewrite E1; cbn [bind].
    destruct (IH (acc + (size (subgraph G nos) / m - (sg / (2 * m)) ^ 2)))
      as [r [E3 E4]]; [intros; eapply H; right; eauto|].
    exists r; split; [exact E3|].
    rewrite E4; unfold contribuicao.
    rewrite (peso_interno_subgraph G nos Hwf Hnd), E2, Hm; ring.
Qed.

Lemma calcular_modularidade_vale (G : Graph) (particao : Dict.t Z) :
  wf_graph G = true ->
  particao_parcial G particao = true ->
  vale (calcular_modularidade set_iter G particao) (modularidade G particao).
Proof.
  intros Hwf HP; unfold particao_parcial, wf_dict in HP.
  apply andb_true_iff in HP; destruct HP as [Hnd Hin].
  apply nodupb_NoDup in Hnd. rewrite forallb_forall in Hin.
  unfold calcular_modularidade, modularidade; cbv zeta.
  rewrite agrupar_por_comunidade_grupos.
  pose proof (peso_total_size G Hwf) as Hm.
  destruct (Qeq_bool (size G) 0) eqn:E0.
  - apply Qeq_bool_eq in E0.
    rewrite (Qeq_eq_bool (peso_total G) 0) by (rewrite Hm; assumption).
    reflexivity.
  - assert (E0' : Qeq_bool (peso_total G) 0 = false).
    { destruct (Qeq_bool (peso_total G) 0) eqn:E; [|reflexivity].
      apply Qeq_bool_eq in E; rewrite Hm in E.
      rewrite (Qeq_eq_bool _ _ E) in E0; discriminate. }
    rewrite E0'.
    destruct (calcular_modularidade_acc G (size G) (grupos particao) 0 Hwf)
      as [r [E1 E2]].
    + symmetry; assumption.
    + intros c nos Hc; unfold grupos in Hc.
      apply in_map_iff in Hc; destruct Hc as [c' [E _]].
      injection E as <- <-.
      split; [apply NoDup_nos_em; assumption|].
      intros n Hn; apply mem_In_keys, Hin.
      eapply In_nos_em_keys; eauto.
    + cbv zeta in E1; rewrite E1; unfold vale.
      rewrite E2, Qplus_0_l; unfold grupos; rewrite somaf_map.
      reflexivity.
Qed.

(** C10: on a partition of some of the nodes of the graph the modularity
    is computed without an exception, and it is the sum of the
    contributions of the communities the partition forms; a node that
    the partition does not cover is in no community and adds no term. *)
Theorem calcular_modularidade_parcial (G : Graph) (particao : Dict.t Z) :
  wf_graph G = true ->
  particao_parcial G particao = true ->
  vale (calcular_modularidade set_iter G particao) (modularidade G particao).
Proof.
  intros Hwf HP; apply calcular_modularidade_vale; assumption.
Qed.

End Modularidade.

Lemma calcular_modularidade_parcial_witness :
  vale (calcular_modularidade ordem_crescente grafo_caminho
          [(0, 7); (2, 7)]%Z)
       (modularidade grafo_caminho [(0, 7); (2, 7)]%Z).
Proof.
  apply (calcular_modularidade_parcial ordem_crescente
           ordem_crescente_NoDup ordem_crescente_In);
    reflexivity.
Defined.

(** ** The gain of a move *)

Lemma particao_de_spec (G : Graph) (P : Dict.t Z) :
  particao_de G P = true <->
  NoDup (Dict.keys P)
  /\ (forall n, In n (nodes G) -> In n (Dict.keys P))
  /\ (forall n, In n (Dict.keys P) -> In n (nodes G)).
Proof.
  unfold particao_de, wf_dict.
  rewrite !andb_true_iff, nodupb_NoDup, !forallb_forall.
  split.
  - intros [[H1 H2] H3]; repeat split; try assumption.
    + intros n Hn; apply mem_In_keys, H2, Hn.
    + intros n Hn; apply (mem_In_keys _ G), H3, Hn.
  - intros (H1 & H2 & H3); repeat split; try assumption.
    + intros n Hn; apply mem_In_keys, H2, Hn.
    + intros n Hn; apply mem_In_keys, H3, Hn.
Qed.

Lemma set_split (V : Type) (d : Dict.t V) (k : Z) (v v' : V) :
  Dict.get d k = Some v ->
  exists d1 d2,
    d = d1 ++ (k, v) :: d2
    /\ Dict.set d k v' = d1 ++ (k, v') :: d2
    /\ ~ In k (Dict.keys d1).
Proof.
  induction d as [|[k0 v0] d IH]; simpl; [discriminate|].
  destruct (Z.eqb_spec k k0) as [->|Hne].
  - intros E; injection E as ->.
    exists [], d; repeat split; intros [].
  - intros E; destruct (IH E) as (d1 & d2 & E1 & E2 & Hk).
    exists ((k0, v0) :: d1), d2; simpl; rewrite <- E1, E2.
    repeat split. intros [H|H]; [congruence | contradiction].
Qed.

Lemma nos_em_meio (P1 P2 : Dict.t Z) (n x c : Z) :
  nos_em (P1 ++ (n, x) :: P2) c
  = nos_em P1 c ++ (if Z.eqb x c then [n] else []) ++ nos_em P2 c.
Proof.
  unfold nos_em; rewrite filter_app, map_app; simpl.
  destruct (Z.eqb x c); reflexivity.
Qed.

Lemma nos_em_memZ (P : Dict.t Z) (c v cv : Z) :
  NoDup (Dict.keys P) -> Dict.get P v = Some cv ->
  memZ v (nos_em P c) = Z.eqb cv c.
Proof.
  intros Hnd Hv.
  destruct (Z.eqb_spec cv c) as [->|Hne].
  - apply memZ_In, In_nos_em, get_In; assumption.
  - apply memZ_false; intros H; apply In_nos_em in H.
    apply (In_get _ P v c Hnd) in H; congruence.
Qed.

Lemma soma_dos_graus_perm (G : Graph) (l l' : list Z) :
  Permutation l l' -> soma_dos_graus G l == soma_dos_graus G l'.
Proof. apply somaf_perm. Qed.

Lemma peso_dentro_perm (G : Graph) (l l' : list Z) :
  Permutation l l' -> peso_dentro G l == peso_dentro G l'.
Proof.
  intros H; unfold peso_dentro.
  apply Qdiv_comp; [|reflexivity].
  rewrite (somaf_perm _ _ _ _ H).
  apply somaf_ext; intros u _.
  rewrite (somaf_perm _ _ _ _ H); reflexivity.
Qed.

(** The weight inside a community that receives a node. *)
Lemma peso_dentro_cons (G : Graph) (n : Z) (S : list Z) :
  wf_graph G = true ->
  peso_dentro G (n :: S)
  == peso_dentro G S + somaf (peso_entre G n) S + peso_entre G n n.
Proof.
  intros Hwf; unfold peso_dentro; cbn [somaf].
  rewrite (somaf_ext _
             (fun u => peso_entre G u n + somaf (peso_entre G u) S
                       + peso_entre G u u)
             (fun u => peso_entre G n u
                       + (somaf (peso_entre G u) S + peso_entre G u u)) S)
    by (intros u _; rewrite (peso_entre_sym G u n Hwf); ring).
  rewrite somaf_plus; field.
Qed.

Lemma contribuicao_vazia (G : Graph) : contribuicao G [] == 0.
Proof.
  unfold contribuicao, peso_interno, soma_dos_graus.
  rewrite somaf_filter; cbn [somaf memZ existsb andb].
  rewrite somaf_zero by reflexivity.
  unfold Qdiv; ring.
Qed.

(** The modularity as a sum over any list of identifiers that has every
    community of the partition. *)
Lemma modularidade_sobre (G : Graph) (P : Dict.t Z) (C : list Z) :
  NoDup C -> (forall c, In c (Dict.values P) -> In c C) ->
  Qeq_bool (peso_total G) 0 = false ->
  modularidade G P == somaf (fun c => contribuicao G (nos_em P c)) C.
Proof.
  intros HC Hin Hm; unfold modularidade; rewrite Hm.
  rewrite <- (somaf_restrito (fun c => contribuicao G (nos_em P c))
                (distintos (Dict.values P)) C
                (NoDup_distintos _) HC).
  - apply somaf_ext; intros c Hc.
    rewrite In_distintos in Hc; apply Hin, memZ_In in Hc; rewrite Hc.
    reflexivity.
  - intros c Hc; rewrite In_distintos in Hc.
    rewrite (nos_em_fora P c Hc); apply contribuicao_vazia.
Qed.

Section Ganho.

Variable set_iter : list Z -> list Z.
Hypothesis set_iter_NoDup : forall l, NoDup (set_iter l).
Hypothesis set_iter_In : forall l x, In x (set_iter l) <-> In x l.

Variable G : Graph.
Hypothesis G_wf : wf_graph G = true.
Variable P : Dict.t Z.
Hypothesis P_de_G : particao_de G P = true.

Lemma calc_propriedades_vale (c : Z) :
  exists d w,
    calc_propriedades set_iter G (nos_em P c) = Ok (d, w)
    /\ d == soma_dos_graus G (nos_em P c)
    /\ w == peso_dentro G (nos_em P c).
Proof.
  destruct (proj1 (particao_de_spec G P) P_de_G) as (Hnd & _ & Hin).
  unfold calc_propriedades.
  destruct (soma_graus_vale set_iter set_iter_NoDup set_iter_In G
              (nos_em P c)) as [d [E1 E2]].
  - apply NoDup_nos_em; assumption.
  - intros n Hn; apply Hin; eapply In_nos_em_keys; eauto.
  - rewrite E1; cbn [bind].
    exists d, (size (subgraph G (nos_em P c))); repeat split.
    + assumption.
    + apply size_subgraph; [assumption | apply NoDup_nos_em; assumption].
Qed.

Lemma pesos_para_acc (atual alvo : Z) (vizinhos : list (Z * attrs))
  (a t : Q) :
  (forall e, In e vizinhos -> In (fst e) (Dict.keys P)) ->
  exists ka kt,
    foldM
      (fun acc e =>
         let '(no_k_para_atual, no_k_para_alvo) := acc in
         let '(vizinho, data) := e in
         let peso := get_weight data in
         c1 <- Dict.item P vizinho ;;
         let no_k_para_atual :=
           if Z.eqb c1 atual then no_k_para_atual + peso
           else no_k_para_atual in
         c2 <- Dict.item P vizinho ;;
         let no_k_para_alvo :=
           if Z.eqb c2 alvo then no_k_para_alvo + peso
           else no_k_para_alvo in
         Ok (no_k_para_atual, no_k_para_alvo))
      vizinhos (a, t) = Ok (ka, kt)
    /\ ka == a + somaf (fun e => if memZ (fst e) (nos_em P atual)
                                 then get_weight (snd e) else 0) vizinhos
    /\ kt == t + somaf (fun e => if memZ (fst e) (nos_em P alvo)
                                 then get_weight (snd e) else 0) vizinhos.
Proof.
  pose proof (proj1 (proj1 (particao_de_spec G P) P_de_G)) as Hnd.
  revert a t; induction vizinhos as [|[v d] l IH]; intros a t H;
    cbn [foldM somaf fst snd].
  - exists a, t; repeat split; ring.
  - assert (Hv : In v (Dict.keys P)) by (apply (H (v, d)); left; reflexivity).
    apply In_keys_get in Hv; destruct Hv as [cv Hv].
    unfold Dict.item; rewrite Hv; cbn [bind].
    rewrite (nos_em_memZ P atual v cv Hnd Hv),
            (nos_em_memZ P alvo v cv Hnd Hv).
    destruct (IH (if Z.eqb cv atual then a + get_weight d else a)
                 (if Z.eqb cv alvo then t + get_weight d else t))
      as (ka & kt & E & Ea & Et);
      [intros; apply H; right; assumption|].
    exists ka, kt; split; [exact E|]; split.
    + rewrite Ea; destruct (Z.eqb cv atual); ring.
    + rewrite Et; destruct (Z.eqb cv alvo); ring.
Qed.

Lemma pesos_para_vale (n atual alvo : Z) (nbrs : Dict.t attrs) :
  Dict.get G n = Some nbrs ->
  exists ka kt,
    pesos_para P atual alvo nbrs = Ok (ka, kt)
    /\ ka == somaf (peso_entre G n) (nos_em P atual)
    /\ kt == somaf (peso_entre G n) (nos_em P alvo).
Proof.
  intros En.
  destruct (proj1 (particao_de_spec G P) P_de_G) as (Hnd & Htot & Hin).
  destruct (pesos_para_acc atual alvo nbrs 0 0) as (ka & kt & E & Ea & Et).
  - intros [v d] Hvd; apply Htot; simpl.
    apply (adj_nodes G n v d G_wf).
    unfold adj; rewrite En; apply In_get;
      [eapply wf_graph_nbrs; eauto | assumption].
  - exists ka, kt; split; [exact E|]; split.
    + rewrite Ea, Qplus_0_l.
      apply somaf_vizinhos; [assumption.. | apply NoDup_nos_em; assumption].
    + rewrite Et, Qplus_0_l.
      apply somaf_vizinhos; [assumption.. | apply NoDup_nos_em; assumption].
Qed.

Lemma contribuicao_dentro (S : list Z) :
  NoDup S ->
  contribuicao G S
  == peso_dentro G S / peso_total G
     - (soma_dos_graus G S / (2 * peso_total G)) ^ 2.
Proof.
  intros HS; unfold contribuicao.
  rewrite (peso_interno_dentro G S G_wf HS); reflexivity.
Qed.

(** What moving a node changes in the modularity: the two communities of
    the move. *)
Lemma modularidade_mover (n atual alvo : Z) :
  Dict.get P n = Some atual -> atual <> alvo ->
  Qeq_bool (peso_total G) 0 = false ->
  exists A T,
    Permutation (nos_em P atual) (n :: A)
    /\ nos_em P alvo = T
    /\ nos_em (Dict.set P n alvo) atual = A
    /\ Permutation (nos_em (Dict.set P n alvo) alvo) (n :: T)
    /\ NoDup (n :: A) /\ NoDup (n :: T)
    /\ modularidade G (Dict.set P n alvo) - modularidade G P
       == (contribuicao G A - contribuicao G (nos_em P atual))
          + (contribuicao G (nos_em (Dict.set P n alvo) alvo)
             - contribuicao G T).
Proof.
  intros Hn Hne Hm.
  destruct (proj1 (particao_de_spec G P) P_de_G) as (Hnd & _ & _).
  destruct (set_split _ P n atual alvo Hn) as (P1 & P2 & E1 & E2 & Hk).
  assert (Hnd' : NoDup (Dict.keys (Dict.set P n alvo))).
  { rewrite keys_set_mem; [assumption | eapply get_In_keys; eauto]. }
  assert (Ea : Z.eqb atual alvo = false) by (apply Z.eqb_neq; assumption).
  assert (Eb : Z.eqb alvo atual = false)
    by (apply Z.eqb_neq; intros E; apply Hne; symmetry; assumption).
  exists (nos_em P1 atual ++ nos_em P2 atual),
         (nos_em P1 alvo ++ nos_em P2 alvo).
  assert (HA : nos_em P atual = nos_em P1 atual ++ n :: nos_em P2 atual).
  { rewrite E1 at 1; rewrite nos_em_meio, Z.eqb_refl; reflexivity. }
  assert (HT : nos_em P alvo = nos_em P1 alvo ++ nos_em P2 alvo).
  { rewrite E1 at 1; rewrite nos_em_meio, Ea; reflexivity. }
  assert (HA' : nos_em (Dict.set P n alvo) atual
                = nos_em P1 atual ++ nos_em P2 atual).
  { rewrite E2, nos_em_meio, Eb; reflexivity. }
  assert (HT' : nos_em (Dict.set P n alvo) alvo
                = nos_em P1 alvo ++ n :: nos_em P2 alvo).
  { rewrite E2, nos_em_meio, Z.eqb_refl; reflexivity. }
  assert (PA : Permutation (nos_em P atual)
                 (n :: nos_em P1 atual ++ nos_em P2 atual)).
  { rewrite HA; symmetry; apply Permutation_middle. }
  assert (PT : Permutation (nos_em (Dict.set P n alvo) alvo)
                 (n :: nos_em P1 alvo ++ nos_em P2 alvo)).
  { rewrite HT'; symmetry; apply Permutation_middle. }
  split; [exact PA|]. split; [exact HT|]. split; [exact HA'|].
  split; [exact PT|].
  split;
    [eapply Permutation_NoDup; [exact PA | apply NoDup_nos_em; assumption]|].
  split;
    [eapply Permutation_NoDup; [exact PT | apply NoDup_nos_em; assumption]|].
  pose (C := distintos (alvo :: Dict.values P)).
  assert (HC : NoDup C) by apply NoDup_distintos.
  assert (HinP : forall c, In c (Dict.values P) -> In c C).
  { intros c Hc; apply In_distintos; right; assumption. }
  assert (HinP' : forall c, In c (Dict.values (Dict.set P n alvo)) -> In c C).
  { intros c Hc; apply In_distintos.
    rewrite E2 in Hc; unfold Dict.values in Hc |- *.
    rewrite map_app in Hc; simpl in Hc.
    rewrite E1, map_app; simpl.
    apply in_app_iff in Hc; destruct Hc as [Hc|[Hc|Hc]].
    - right; apply in_app_iff; left; assumption.
    - left; assumption.
    - right; apply in_app_iff; right; right; assumption. }
  rewrite (modularidade_sobre G (Dict.set P n alvo) C HC HinP' Hm).
  rewrite (modularidade_sobre G P C HC HinP Hm).
  rewrite (somaf_dois
             (fun c => contribuicao G (nos_em (Dict.set P n alvo) c))
             (fun c => contribuicao G (nos_em P c)) atual alvo C HC).
  - rewrite HA', HT; reflexivity.
  - apply HinP. apply get_In in Hn. apply (in_map snd) in Hn; exact Hn.
  - apply In_distintos; left; reflexivity.
  - assumption.
  - intros c _ Hc1 Hc2.
    rewrite E2, E1 at 1. rewrite !nos_em_meio.
    replace (Z.eqb alvo c) with false
      by (symmetry; apply Z.eqb_neq; intros E; apply Hc2; symmetry; exact E).
    replace (Z.eqb atual c) with false
      by (symmetry; apply Z.eqb_neq; intros E; apply Hc1; symmetry; exact E).
    reflexivity.
Qed.

(** The gain [calc_delta_q] answers is the change of the modularity of
    the move less the weight of the self-loop of the node over the total
    weight. *)
Lemma calc_delta_q_ganho (n atual alvo : Z) :
  Dict.get P n = Some atual -> atual <> alvo ->
  Qeq_bool (peso_total G) 0 = false ->
  exists d,
    calc_delta_q set_iter G P n alvo = Ok d
    /\ modularidade G (Dict.set P n alvo) - modularidade G P
       == d + peso_entre G n n / peso_total G.
Proof.
  intros Hn Hne Hm.
  destruct (proj1 (particao_de_spec G P) P_de_G) as (Hnd & Htot & Hin).
  pose proof (peso_total_size G G_wf) as Hsz.
  assert (Hm' : Qeq_bool (size G) 0 = false).
  { destruct (Qeq_bool (size G) 0) eqn:E; [|reflexivity].
    apply Qeq_bool_eq in E; rewrite <- Hsz in E.
    rewrite (Qeq_eq_bool _ _ E) in Hm; discriminate. }
  assert (Hm0 : ~ peso_total G == 0).
  { intros E; rewrite (Qeq_eq_bool _ _ E) in Hm; discriminate. }
  assert (HnG : In n (nodes G)) by (apply Hin; eapply get_In_keys; eauto).
  apply In_keys_get in HnG; destruct HnG as [nbrs En].
  destruct (calc_propriedades_vale atual) as (dA & wA & EA & EdA & EwA).
  destruct (calc_propriedades_vale alvo) as (dT & wT & ET & EdT & EwT).
  destruct (pesos_para_vale n atual alvo nbrs En)
    as (ka & kt & Ek & Eka & Ekt).
  unfold calc_delta_q; cbv zeta.
  rewrite Hm'. unfold Dict.item; rewrite Hn; cbn [bind].
  replace (Z.eqb atual alvo) with false
    by (symmetry; apply Z.eqb_neq; assumption).
  rewrite EA; cbn [bind]. rewrite ET; cbn [bind].
  unfold degree, adj_items; rewrite En; cbn [bind].
  rewrite Ek; cbn [bind].
  eexists; split; [reflexivity|].
  destruct (modularidade_mover n atual alvo Hn Hne Hm)
    as (A & T & PA & HT & HA' & PT & NA & NT & Hmod).
  rewrite Hmod.
  assert (NA' : NoDup A) by (inversion NA; assumption).
  assert (NT' : NoDup T) by (inversion NT; assumption).
  rewrite (contribuicao_dentro A NA').
  rewrite (contribuicao_dentro (nos_em P atual))
    by (apply NoDup_nos_em; assumption).
  rewrite (contribuicao_dentro T NT').
  rewrite (contribuicao_dentro (nos_em (Dict.set P n alvo) alvo))
    by (eapply Permutation_NoDup; [symmetry; exact PT | exact NT]).
  rewrite (peso_dentro_perm G _ _ PT), (soma_dos_graus_perm G _ _ PT).
  rewrite (peso_dentro_perm G _ _ PA), (soma_dos_graus_perm G _ _ PA).
  rewrite !(peso_dentro_cons G n _ G_wf).
  rewrite EdA, EwA, EdT, EwT, Eka, Ekt, HT.
  rewrite (soma_dos_graus_perm G _ _ PA), (peso_dentro_perm G _ _ PA).
  rewrite (somaf_perm _ (peso_entre G n) _ _ PA).
  rewrite !(peso_dentro_cons G n _ G_wf).
  unfold soma_dos_graus; cbn [somaf].
  assert (Eg : grau G n = degree_nbrs n nbrs)
    by (unfold grau; rewrite En; reflexivity).
  rewrite Eg, Hsz.
  rewrite Hsz in Hm0.
  field; assumption.
Qed.

(** For a node without a self-loop the gain is the change of the
    modularity. *)
Lemma calc_delta_q_sem_laco (n atual alvo : Z) :
  Dict.get P n = Some atual -> atual <> alvo ->
  Qeq_bool (peso_total G) 0 = false ->
  adj G n n = None ->
  exists d,
    calc_delta_q set_iter G P n alvo = Ok d
    /\ modularidade G (Dict.set P n alvo) - modularidade G P == d.
Proof.
  intros Hn Hne Hm Hl.
  destruct (calc_delta_q_ganho n atual alvo Hn Hne Hm) as [d [Ed Hd]].
  exists d; split; [exact Ed|].
  rewrite Hd; unfold peso_entre; rewrite Hl.
  unfold Qdiv; ring.
Qed.

End Ganho.

(** ** Building a graph *)

(** Well-formedness through [adj]. *)
Lemma wf_graph_adj (G : Graph) :
  wf_graph G = true <->
  NoDup (nodes G)
  /\ (forall u nbrs, Dict.get G u = Some nbrs -> NoDup (Dict.keys nbrs))
  /\ (forall u v d, adj G u v = Some d -> adj G v u = Some d).
Proof.
  split.
  - intros H; split; [apply wf_graph_nodes; assumption|]; split.
    + intros u nbrs E; eapply wf_graph_nbrs; eauto.
    + intros u v d; apply adj_sym; assumption.
  - intros (H1 & H2 & H3); apply wf_graph_spec; split; [assumption|].
    intros u nbrs Hin.
    assert (Eu : Dict.get G u = Some nbrs) by (apply In_get; assumption).
    split; [eapply H2; eauto|].
    intros v d Hvd; apply H3; unfold adj; rewrite Eu.
    apply In_get; [eapply H2; eauto | assumption].
Qed.

Lemma nodes_set_adj (G : Graph) (u v : Z) (d : attrs) :
  nodes (set_adj G u v d) = nodes G.
Proof.
  unfold set_adj, nodes.
  destruct (Dict.get G u) eqn:Eu; [|reflexivity].
  apply keys_set_mem; eapply get_In_keys; eauto.
Qed.

Lemma get_set_adj (G : Graph) (u v x : Z) (d : attrs) :
  Dict.get (set_adj G u v d) x
  = match Dict.get G x with
    | Some nbrs => Some (if Z.eqb x u then Dict.set nbrs v d else nbrs)
    | None => None
    end.
Proof.
  unfold set_adj.
  destruct (Dict.get G u) as [nu|] eqn:Eu.
  - rewrite get_set. destruct (Z.eqb_spec x u) as [->|_].
    + rewrite Eu; reflexivity.
    + destruct (Dict.get G x); reflexivity.
  - destruct (Z.eqb_spec x u) as [->|_].
    + rewrite Eu; reflexivity.
    + destruct (Dict.get G x); reflexivity.
Qed.

Lemma adj_set_adj (G : Graph) (u v x y : Z) (d : attrs) :
  In u (nodes G) ->
  adj (set_adj G u v d) x y
  = if Z.eqb x u && Z.eqb y v then Some d else adj G x y.
Proof.
  intros Hu; unfold adj; rewrite get_set_adj.
  destruct (Z.eqb_spec x u) as [->|_]; simpl.
  - apply In_keys_get in Hu; destruct Hu as [nu Eu]; rewrite Eu.
    apply get_set.
  - destruct (Dict.get G x); reflexivity.
Qed.

Lemma NoDup_keys_set (V : Type) (d : Dict.t V) (k : Z) (v : V) :
  NoDup (Dict.keys d) -> NoDup (Dict.keys (Dict.set d k v)).
Proof.
  intros H; destruct (in_dec Z.eq_dec k (Dict.keys d)) as [Hin|Hout].
  - rewrite keys_set_mem; assumption.
  - rewrite keys_set_new by assumption.
    unfold Dict.keys in *; rewrite map_app; simpl.
    apply NoDup_app; [assumption | repeat constructor; intros [] |].
    intros x Hx [<-|[]]; contradiction.
Qed.

Lemma nbrs_set_adj (G : Graph) (u v : Z) (d : attrs) :
  (forall x nbrs, Dict.get G x = Some nbrs -> NoDup (Dict.keys nbrs)) ->
  forall x nbrs, Dict.get (set_adj G u v d) x = Some nbrs ->
                 NoDup (Dict.keys nbrs).
Proof.
  intros H x nbrs E; rewrite get_set_adj in E.
  destruct (Dict.get G x) as [nx|] eqn:Ex; [|discriminate].
  injection E as <-.
  destruct (Z.eqb x u); [apply NoDup_keys_set|]; eapply H; eauto.
Qed.

Lemma nodes_por_aresta (G : Graph) (u v : Z) (d : attrs) :
  nodes (por_aresta G u v d) = nodes G.
Proof. unfold por_aresta; rewrite !nodes_set_adj; reflexivity. Qed.

Lemma adj_por_aresta (G : Graph) (u v x y : Z) (d : attrs) :
  In u (nodes G) -> In v (nodes G) ->
  adj (por_aresta G u v d) x y
  = if (Z.eqb x v && Z.eqb y u) || (Z.eqb x u && Z.eqb y v)
    then Some d else adj G x y.
Proof.
  intros Hu Hv; unfold por_aresta.
  rewrite adj_set_adj by (rewrite nodes_set_adj; assumption).
  rewrite adj_set_adj by assumption.
  destruct (Z.eqb x v && Z.eqb y u); reflexivity.
Qed.

Lemma wf_por_aresta (G : Graph) (u v : Z) (d : attrs) :
  wf_graph G = true -> In u (nodes G) -> In v (nodes G) ->
  wf_graph (por_aresta G u v d) = true.
Proof.
  intros Hwf Hu Hv; apply wf_graph_adj in Hwf.
  destruct Hwf as (H1 & H2 & H3); apply wf_graph_adj.
  split; [rewrite nodes_por_aresta; assumption|]; split.
  - unfold por_aresta; apply nbrs_set_adj, nbrs_set_adj; assumption.
  - intros x y d'; rewrite !adj_por_aresta by assumption.
    rewrite (orb_comm (Z.eqb y v && Z.eqb x u)).
    rewrite (andb_comm (Z.eqb y u)), (andb_comm (Z.eqb y v)).
    destruct ((Z.eqb x v && Z.eqb y u) || (Z.eqb x u && Z.eqb y v));
      [trivial | apply H3].
Qed.

(** The sum of the degrees from the weights between the nodes. *)
Lemma size_peso_entre (G : Graph) :
  wf_graph G = true ->
  size G
  == somaf (fun x => somaf (peso_entre G x) (nodes G) + peso_entre G x x)
           (nodes G) / 2.
Proof.
  intros Hwf; rewrite size_grau by assumption.
  apply Qdiv_comp; [|reflexivity].
  apply somaf_ext; intros x _; apply grau_peso_entre; assumption.
Qed.

Lemma somaf_peso_par (u v : Z) (w : Q) (L : list Z) :
  NoDup L -> In u L -> In v L ->
  somaf (fun x => somaf (peso_par u v w x) L + peso_par u v w x x) L
  == 2 * w.
Proof.
  intros HL Hu Hv.
  apply memZ_In in Hu, Hv.
  destruct (Z.eqb_spec u v) as [->|Hne].
  - rewrite (somaf_ext _ _ (fun x => (if Z.eqb x v then w else 0)
                                     + (if Z.eqb x v then w else 0)) L).
    + rewrite somaf_plus, somaf_um, Hv by assumption; ring.
    + intros x _; unfold peso_par.
      rewrite (somaf_ext _ _ (fun y => if Z.eqb y v
                                       then (if Z.eqb x v then w else 0)
                                       else 0) L)
        by (intros y _; destruct (Z.eqb x v), (Z.eqb y v); reflexivity).
      rewrite somaf_um, Hv by assumption.
      destruct (Z.eqb x v); reflexivity.
  - rewrite (somaf_ext _ _ (fun x => (if Z.eqb x v then w else 0)
                                     + (if Z.eqb x u then w else 0)) L).
    + rewrite somaf_plus, !somaf_um, Hu, Hv by assumption; ring.
    + intros x _; unfold peso_par.
      rewrite (somaf_ext _ _
                 (fun y => (if Z.eqb y u
                            then (if Z.eqb x v then w else 0) else 0)
                           + (if Z.eqb y v
                              then (if Z.eqb x u then w else 0) else 0)) L).
      * rewrite somaf_plus, !somaf_um, Hu, Hv by assumption.
        destruct (Z.eqb_spec x v), (Z.eqb_spec x u);
          try (exfalso; congruence); simpl; ring.
      * intros y _.
        destruct (Z.eqb_spec x v), (Z.eqb_spec x u),
                 (Z.eqb_spec y u), (Z.eqb_spec y v);
          try (exfalso; congruence); simpl; ring.
Qed.

(** Writing the weight [w'] on an edge of weight [w0] adds the
    difference to the size; [w0] is zero when the edge is new. *)
Lemma size_por_aresta (G : Graph) (u v : Z) (w0 w' : Q) :
  wf_graph G = true -> In u (nodes G) -> In v (nodes G) ->
  peso_entre G u v == w0 ->
  size (por_aresta G u v (Some w')) == size G + (w' - w0).
Proof.
  intros Hwf Hu Hv Hw0.
  pose proof (wf_por_aresta G u v (Some w') Hwf Hu Hv) as Hwf'.
  rewrite (size_peso_entre _ Hwf'), (size_peso_entre _ Hwf).
  rewrite nodes_por_aresta.
  assert (E : forall x y,
             peso_entre (por_aresta G u v (Some w')) x y
             == peso_entre G x y + peso_par u v (w' - w0) x y).
  { intros x y; unfold peso_entre at 1, peso_par.
    rewrite adj_por_aresta by assumption.
    destruct (Z.eqb_spec x v), (Z.eqb_spec y u),
             (Z.eqb_spec x u), (Z.eqb_spec y v);
      subst; cbn [andb orb get_weight];
      try rewrite (peso_entre_sym G v u Hwf);
      try rewrite Hw0; unfold peso_entre; ring. }
  rewrite (somaf_ext _ _
             (fun x => (somaf (peso_entre G x) (nodes G) + peso_entre G x x)
                       + (somaf (peso_par u v (w' - w0) x) (nodes G)
                          + peso_par u v (w' - w0) x x)) (nodes G)).
  - rewrite somaf_plus, (somaf_peso_par u v (w' - w0) (nodes G))
      by (try apply wf_graph_nodes; assumption).
    field.
  - intros x _; rewrite E.
    rewrite (somaf_ext _ _
               (fun y => peso_entre G x y + peso_par u v (w' - w0) x y))
      by (intros; apply E).
    rewrite somaf_plus; ring.
Qed.

(** ** Aggregation *)

Lemma Qgt_bool_lt (a b : Q) : Qgt_bool a b = true <-> b < a.
Proof.
  unfold Qgt_bool; rewrite negb_true_iff.
  split.
  - intros H; apply Qnot_le_lt; intros Hle.
    apply Qle_bool_iff in Hle; congruence.
  - intros H; destruct (Qle_bool a b) eqn:E; [|reflexivity].
    apply Qle_bool_iff in E; exfalso; eapply Qlt_not_le; eauto.
Qed.

Lemma pesos_positivos_spec (G : Graph) :
  pesos_positivos G = true <->
  forall u nbrs v d, In (u, nbrs) G -> In (v, d) nbrs -> 0 < get_weight d.
Proof.
  unfold pesos_positivos; rewrite forallb_forall; split.
  - intros H u nbrs v d Hu Hv; specialize (H _ Hu); simpl in H.
    rewrite forallb_forall in H; specialize (H _ Hv).
    apply Qgt_bool_lt in H; exact H.
  - intros H [u nbrs] Hu; simpl; apply forallb_forall; intros [v d] Hv.
    apply Qgt_bool_lt; eapply H; eauto.
Qed.

Lemma In_edges_from (G : Graph) (seen : list Z) (u v : Z) (d : attrs) :
  In (u, v, d) (edges_from G seen) ->
  exists nbrs, In (u, nbrs) G /\ In (v, d) nbrs.
Proof.
  revert seen; induction G as [|[n nbrs] G IH]; intros seen H; simpl in H;
    [destruct H|].
  apply in_app_iff in H; destruct H as [H|H].
  - apply in_map_iff in H; destruct H as [[v' d'] [E H]].
    injection E as <- <- <-. apply filter_In in H; destruct H as [H _].
    exists nbrs; split; [left; reflexivity | assumption].
  - destruct (IH _ H) as [nb [H1 H2]].
    exists nb; split; [right; assumption | assumption].
Qed.

Lemma In_edges (G : Graph) (u v : Z) (d : attrs) :
  wf_graph G = true -> In (u, v, d) (edges G) ->
  In u (nodes G) /\ In v (nodes G)
  /\ (pesos_positivos G = true -> 0 < get_weight d).
Proof.
  intros Hwf H; apply In_edges_from in H; destruct H as [nbrs [Hu Hv]].
  assert (Eu : Dict.get G u = Some nbrs)
    by (apply In_get; [apply wf_graph_nodes|]; assumption).
  assert (Ea : adj G u v = Some d).
  { unfold adj; rewrite Eu; apply In_get;
      [eapply wf_graph_nbrs; eauto | assumption]. }
  destruct (adj_nodes G u v d Hwf Ea) as [H1 H2].
  repeat split; try assumption.
  intros Hp; eapply pesos_positivos_spec; eauto.
Qed.

Lemma add_node_mem (G : Graph) (n : Z) : In n (nodes G) -> add_node G n = G.
Proof.
  intros H; unfold add_node.
  apply mem_In_keys in H; rewrite H; reflexivity.
Qed.

Lemma get_grafo_vazio (l : list Z) (x : Z) :
  Dict.get (grafo_vazio l) x = if memZ x l then Some [] else None.
Proof. apply (get_map_keys _ (fun _ => [])). Qed.

Lemma nodes_grafo_vazio (l : list Z) : nodes (grafo_vazio l) = l.
Proof.
  unfold nodes, Dict.keys, grafo_vazio; rewrite map_map; simpl.
  apply map_id.
Qed.

Lemma grafo_vazio_snoc (l : list Z) (n : Z) :
  grafo_vazio l ++ [(n, [])] = grafo_vazio (l ++ [n]).
Proof. unfold grafo_vazio; rewrite map_app; reflexivity. Qed.

Lemma add_nodes_from_vazios (l0 l : list Z) :
  NoDup (l0 ++ l) ->
  add_nodes_from (grafo_vazio l0) l = grafo_vazio (l0 ++ l).
Proof.
  unfold add_nodes_from.
  revert l0; induction l as [|n l IH]; intros l0 H; cbn [fold_left].
  - rewrite app_nil_r; reflexivity.
  - unfold add_node at 2, Dict.mem.
    rewrite get_grafo_vazio.
    assert (Hn : memZ n l0 = false).
    { apply memZ_false; intros E. apply NoDup_remove_2 in H.
      apply H, in_app_iff; left; assumption. }
    rewrite Hn, grafo_vazio_snoc, IH, <- app_assoc; [reflexivity|].
    rewrite <- app_assoc; assumption.
Qed.

Lemma grafo_vazio_wf (l : list Z) : NoDup l -> wf_graph (grafo_vazio l) = true.
Proof.
  intros H; apply wf_graph_spec; split.
  - rewrite nodes_grafo_vazio; assumption.
  - intros u nbrs Hin; apply in_map_iff in Hin.
    destruct Hin as [n [E _]]; injection E as <- <-.
    split; [constructor | intros ? ? []].
Qed.

Lemma grafo_vazio_adj (l : list Z) (x y : Z) : adj (grafo_vazio l) x y = None.
Proof.
  unfold adj; rewrite get_grafo_vazio.
  destruct (memZ x l); reflexivity.
Qed.

Lemma grafo_vazio_size (l : list Z) : size (grafo_vazio l) == 0.
Proof.
  unfold size, grafo_vazio; rewrite soma_somaf, somaf_map.
  rewrite somaf_zero; [reflexivity|].
  intros n _; reflexivity.
Qed.

Section Agrupamento.

Variable set_iter : list Z -> list Z.
Hypothesis set_iter_NoDup : forall l, NoDup (set_iter l).
Hypothesis set_iter_In : forall l x, In x (set_iter l) <-> In x l.

Variable G : Graph.
Hypothesis G_wf : wf_graph G = true.
Variable P : Dict.t Z.
Hypothesis P_total : forall n, In n (nodes G) -> In n (Dict.keys P).

Lemma inv_agrupar_por_aresta (Ga : Graph) (cu cv : Z) (w : Q) :
  inv_agrupar set_iter G P Ga -> In cu (nodes Ga) -> In cv (nodes Ga) ->
  (pesos_positivos G = true -> 0 < w) ->
  inv_agrupar set_iter G P (por_aresta Ga cu cv (Some w)).
Proof.
  intros (H1 & H2 & H3) Hu Hv Hw; split; [|split].
  - apply wf_por_aresta; assumption.
  - rewrite nodes_por_aresta; assumption.
  - intros x y d; rewrite adj_por_aresta by assumption.
    destruct ((Z.eqb x cv && Z.eqb y cu) || (Z.eqb x cu && Z.eqb y cv)).
    + intros E; injection E as <-; exists w; split; [reflexivity | exact Hw].
    + apply H3.
Qed.

Lemma agrupar_aresta_inv (Ga : Graph) (u v : Z) (d : attrs) :
  inv_agrupar set_iter G P Ga ->
  In u (nodes G) -> In v (nodes G) ->
  (pesos_positivos G = true -> 0 < get_weight d) ->
  exists Ga',
    agrupar_aresta P Ga (u, v, d) = Ok Ga'
    /\ inv_agrupar set_iter G P Ga'
    /\ size Ga' == size Ga + get_weight d.
Proof.
  intros HI Hu Hv Hd.
  pose proof HI as (H1 & H2 & H3).
  destruct (In_keys_get _ P u (P_total u Hu)) as [cu Ecu].
  destruct (In_keys_get _ P v (P_total v Hv)) as [cv Ecv].
  assert (Hcu : In cu (nodes Ga)).
  { rewrite H2; apply set_iter_In.
    apply get_In in Ecu; apply (in_map snd) in Ecu; exact Ecu. }
  assert (Hcv : In cv (nodes Ga)).
  { rewrite H2; apply set_iter_In.
    apply get_In in Ecv; apply (in_map snd) in Ecv; exact Ecv. }
  unfold agrupar_aresta, Dict.item; rewrite Ecu, Ecv; cbn [bind].
  destruct (has_edge Ga cu cv) eqn:Eh.
  - unfold has_edge in Eh.
    destruct (Dict.get Ga cu) as [nbrs|] eqn:Enb; [|discriminate].
    unfold Dict.mem in Eh.
    destruct (Dict.get nbrs cv) as [d0|] eqn:Ed0; [|discriminate].
    assert (Ea : adj Ga cu cv = Some d0)
      by (unfold adj; rewrite Enb; assumption).
    destruct (H3 _ _ _ Ea) as [w0 [-> Hw0]].
    unfold add_weight, Dict.item; rewrite Enb; cbn [bind].
    rewrite Ed0; cbn [bind].
    exists (por_aresta Ga cu cv (Some (w0 + get_weight d))).
    split; [reflexivity|]; split.
    + apply inv_agrupar_por_aresta; try assumption.
      intros Hp; specialize (Hw0 Hp); specialize (Hd Hp).
      setoid_replace 0 with (0 + 0) by ring.
      apply Qplus_lt_le_compat; [assumption | apply Qlt_le_weak; assumption].
    + rewrite (size_por_aresta Ga cu cv w0 (w0 + get_weight d) H1 Hcu Hcv).
      * ring.
      * unfold peso_entre; rewrite Ea; reflexivity.
  - unfold add_edge.
    rewrite (add_node_mem Ga cu Hcu), (add_node_mem Ga cv Hcv).
    exists (por_aresta Ga cu cv (Some (get_weight d))).
    split; [reflexivity|]; split.
    + apply inv_agrupar_por_aresta; assumption.
    + rewrite (size_por_aresta Ga cu cv 0 (get_weight d) H1 Hcu Hcv).
      * ring.
      * unfold has_edge in Eh; unfold peso_entre, adj.
        destruct (Dict.get Ga cu) as [nbrs|]; [|reflexivity].
        unfold Dict.mem in Eh.
        destruct (Dict.get nbrs cv); [discriminate | reflexivity].
Qed.

Lemma agrupar_arestas_inv (l : list (Z * Z * attrs)) (Ga : Graph) :
  (forall u v d, In (u, v, d) l ->
     In u (nodes G) /\ In v (nodes G)
     /\ (pesos_positivos G = true -> 0 < get_weight d)) ->
  inv_agrupar set_iter G P Ga ->
  exists Ga',
    foldM (agrupar_aresta P) l Ga = Ok Ga'
    /\ inv_agrupar set_iter G P Ga'
    /\ size Ga' == size Ga + somaf (fun e => get_weight (snd e)) l.
Proof.
  revert Ga; induction l as [|[[u v] d] l IH]; intros Ga Hl HI;
    cbn [foldM somaf snd].
  - exists Ga; repeat split; try apply HI. ring.
  - destruct (Hl u v d (or_introl eq_refl)) as (Hu & Hv & Hd).
    destruct (agrupar_aresta_inv Ga u v d HI Hu Hv Hd) as (G1 & E1 & I1 & S1).
    rewrite E1; cbn [bind].
    destruct (IH G1) as (G2 & E2 & I2 & S2);
      [intros; apply Hl; right; assumption | assumption |].
    exists G2; split; [exact E2|]; split; [exact I2|].
    rewrite S2, S1; ring.
Qed.

(** The aggregated graph: it is built without an exception, it is a
    well-formed graph whose nodes are the communities, its weights are
    positive when those of the graph are, and it has the size of the
    graph. *)
Lemma agrupar_grafo_inv :
  exists G',
    agrupar_grafo set_iter G P = Ok G'
    /\ wf_graph G' = true
    /\ nodes G' = set_iter (Dict.values P)
    /\ (pesos_positivos G = true -> pesos_positivos G' = true)
    /\ size G' == size G.
Proof.
  unfold agrupar_grafo.
  pose proof (add_nodes_from_vazios [] (set_iter (Dict.values P))
                (set_iter_NoDup _)) as E0.
  change (add_nodes_from [] (set_iter (Dict.values P)))
    with (add_nodes_from (grafo_vazio []) (set_iter (Dict.values P))).
  rewrite E0; cbn [app].
  destruct (agrupar_arestas_inv (edges G)
              (grafo_vazio (set_iter (Dict.values P))))
    as (G' & E & (H1 & H2 & H3) & HS).
  - intros u v d; apply In_edges; assumption.
  - split; [apply grafo_vazio_wf, set_iter_NoDup|]; split.
    + apply nodes_grafo_vazio.
    + intros x y d; rewrite grafo_vazio_adj; discriminate.
  - exists G'; split; [exact E|]; split; [exact H1|]; split; [exact H2|].
    split.
    + intros Hp; apply pesos_positivos_spec; intros u nbrs v d Hu Hv.
      assert (Ea : adj G' u v = Some d).
      { unfold adj.
        rewrite (In_get _ G' u nbrs (wf_graph_nodes _ H1) Hu).
        apply In_get; [|assumption].
        eapply wf_graph_nbrs; [exact H1|].
        apply In_get; [apply wf_graph_nodes|]; eassumption. }
      destruct (H3 _ _ _ Ea) as [w [-> Hw]]; apply Hw, Hp.
    + rewrite HS, grafo_vazio_size, Qplus_0_l.
      apply (peso_total_size G G_wf).
Qed.

End Agrupamento.

(** C6, with the weights added without rounding: for a partition that
    has every node of the graph as a key the aggregated graph is built,
    and its total weight, a self-loop counted once, is the total weight
    of the graph.  The two totals add the same weights, in different
    orders. *)
Theorem agrupar_grafo_conserva_peso (set_iter : list Z -> list Z)
  (G : Graph) (P : Dict.t Z) :
  (forall l, NoDup (set_iter l)) ->
  (forall l x, In x (set_iter l) <-> In x l) ->
  wf_graph G = true -> cobre G P = true ->
  exists G',
    agrupar_grafo set_iter G P = Ok G'
    /\ peso_total G' == peso_total G.
Proof.
  intros Hnd Hin Hwf HP.
  assert (Htot : forall n, In n (nodes G) -> In n (Dict.keys P)).
  { unfold cobre in HP; rewrite forallb_forall in HP.
    intros n Hn; apply mem_In_keys, HP, Hn. }
  destruct (agrupar_grafo_inv set_iter Hnd Hin G Hwf P Htot)
    as (G' & E & Hwf' & _ & _ & HS).
  exists G'; split; [exact E|].
  rewrite (peso_total_size G' Hwf'), (peso_total_size G Hwf); exact HS.
Qed.

Lemma agrupar_grafo_conserva_peso_witness :
  exists G',
    agrupar_grafo ordem_crescente grafo_triangulos
      [(0, 0); (1, 0); (2, 0); (3, 4); (4, 4); (5, 0)]%Z = Ok G'
    /\ peso_total G' == peso_total grafo_triangulos.
Proof.
  apply (agrupar_grafo_conserva_peso ordem_crescente grafo_triangulos
           [(0, 0); (1, 0); (2, 0); (3, 4); (4, 4); (5, 0)]%Z
           ordem_crescente_NoDup ordem_crescente_In);
    reflexivity.
Defined.

(** ** Local moving ends, when the gains are computed without rounding *)

Lemma length_flat_map_map (A B C : Type) (g : A -> B -> C) (L : list B)
  (V : list A) :
  length (flat_map (fun v => map (g v) L) V) = (length V * length L)%nat.
Proof.
  induction V as [|v V IH]; simpl; [reflexivity|].
  rewrite length_app, length_map, IH; reflexivity.
Qed.

Lemma length_todas (ks V : list Z) :
  length (todas ks V) = (length V ^ length ks)%nat.
Proof.
  induction ks as [|k ks IH]; [reflexivity|].
  change (todas (k :: ks) V)
    with (flat_map (fun v => map (fun d => (k, v) :: d) (todas ks V)) V).
  rewrite length_flat_map_map.
  apply (f_equal (Nat.mul (length V))); exact IH.
Qed.

Lemma In_todas (ks V : list Z) (d : Dict.t Z) :
  Dict.keys d = ks -> (forall v, In v (Dict.values d) -> In v V) ->
  In d (todas ks V).
Proof.
  revert d; induction ks as [|k ks IH]; intros d Hk Hv.
  - destruct d; [left; reflexivity | discriminate].
  - destruct d as [|[k' v] d]; [discriminate|].
    simpl in Hk; injection Hk as -> Hk.
    simpl; apply in_flat_map; exists v; split.
    + apply Hv; left; reflexivity.
    + apply in_map, IH; [assumption|].
      intros x Hx; apply Hv; right; assumption.
Qed.

Lemma filter_length_lt (A : Type) (p q : A -> bool) (l : list A) (x : A) :
  (forall y, In y l -> p y = true -> q y = true) ->
  In x l -> q x = true -> p x = false ->
  (length (filter p l) < length (filter q l))%nat.
Proof.
  intros Hpq; induction l as [|y l IH]; intros Hx Hq Hp; [destruct Hx|].
  assert (Hle : forall l', (forall y, In y l' -> p y = true -> q y = true) ->
                  (length (filter p l') <= length (filter q l'))%nat).
  { induction l' as [|z l' IH']; intros H; simpl; [lia|].
    assert (H' : (length (filter p l') <= length (filter q l'))%nat)
      by (apply IH'; intros; apply H; [right|]; assumption).
    destruct (p z) eqn:Ez.
    - rewrite (H z (or_introl eq_refl) Ez); simpl; lia.
    - destruct (q z); simpl; lia. }
  simpl; destruct Hx as [->|Hx].
  - rewrite Hp, Hq; simpl.
    assert (H' : (length (filter p l) <= length (filter q l))%nat)
      by (apply Hle; intros; apply Hpq; [right|]; assumption).
    lia.
  - assert (H' : (length (filter p l) < length (filter q l))%nat)
      by (apply IH; try assumption; intros; apply Hpq; [right|]; assumption).
    destruct (p y) eqn:Ey.
    + rewrite (Hpq y (or_introl eq_refl) Ey); simpl; lia.
    + destruct (q y); simpl; lia.
Qed.

Lemma posto_le (G : Graph) (ks V : list Z) (P : Dict.t Z) :
  (posto G ks V P <= length V ^ length ks)%nat.
Proof.
  unfold posto; rewrite <- length_todas; apply filter_length_le.
Qed.

(** A partition of a greater modularity is of a smaller rank. *)
Lemma posto_lt (G : Graph) (ks V : list Z) (P P' : Dict.t Z) :
  In P' (todas ks V) -> modularidade G P < modularidade G P' ->
  (posto G ks V P' < posto G ks V P)%nat.
Proof.
  intros Hin Hlt; unfold posto.
  apply filter_length_lt with (x := P').
  - intros X _ HX; apply Qgt_bool_lt in HX; apply Qgt_bool_lt.
    eapply Qlt_trans; eauto.
  - assumption.
  - apply Qgt_bool_lt; assumption.
  - destruct (Qgt_bool (modularidade G P') (modularidade G P')) eqn:E;
      [|reflexivity].
    apply Qgt_bool_lt in E; exfalso; eapply Qlt_irrefl; eauto.
Qed.

Lemma alcancavel_refl (P : Dict.t Z) : alcancavel P P.
Proof. split; [reflexivity | auto]. Qed.

Lemma alcancavel_particao_de (G : Graph) (P0 P : Dict.t Z) :
  particao_de G P0 = true -> alcancavel P0 P -> particao_de G P = true.
Proof.
  intros H0 [Hk _]; apply particao_de_spec in H0; apply particao_de_spec.
  rewrite Hk; assumption.
Qed.

Lemma In_values_set (V : Type) (d : Dict.t V) (k : Z) (v x : V) :
  In x (Dict.values (Dict.set d k v)) -> x = v \/ In x (Dict.values d).
Proof.
  induction d as [|[k0 v0] d IH]; simpl.
  - intros [<-|[]]; left; reflexivity.
  - destruct (Z.eqb k k0); simpl.
    + intros [<-|H]; [left; reflexivity | right; right; assumption].
    + intros [<-|H]; [right; left; reflexivity|].
      destruct (IH H); [left | right; right]; assumption.
Qed.

Lemma alcancavel_set (P0 P : Dict.t Z) (n c : Z) :
  alcancavel P0 P -> In n (Dict.keys P) -> In c (Dict.values P0) ->
  alcancavel P0 (Dict.set P n c).
Proof.
  intros [Hk Hv] Hn Hc; split.
  - rewrite keys_set_mem; assumption.
  - intros x Hx; apply In_values_set in Hx.
    destruct Hx as [->|Hx]; [assumption | apply Hv; assumption].
Qed.

Lemma alcancavel_todas (P0 P : Dict.t Z) :
  alcancavel P0 P -> In P (todas (Dict.keys P0) (Dict.values P0)).
Proof. intros [Hk Hv]; apply In_todas; assumption. Qed.

Lemma peso_entre_nonneg (G : Graph) (u v : Z) :
  wf_graph G = true -> pesos_positivos G = true -> 0 <= peso_entre G u v.
Proof.
  intros Hwf Hp; unfold peso_entre, adj.
  destruct (Dict.get G u) as [nbrs|] eqn:Eu; [|apply Qle_refl].
  destruct (Dict.get nbrs v) as [d|] eqn:Ev; [|apply Qle_refl].
  apply Qlt_le_weak.
  apply (proj1 (pesos_positivos_spec G) Hp u nbrs v d); apply get_In;
    assumption.
Qed.

Lemma peso_total_nonneg (G : Graph) :
  wf_graph G = true -> pesos_positivos G = true -> 0 <= peso_total G.
Proof.
  intros Hwf Hp; unfold peso_total; apply somaf_nonneg.
  intros [[u v] d] He; simpl.
  apply Qlt_le_weak; apply (In_edges G u v d Hwf He); assumption.
Qed.

Section Termina.

Variable set_iter : list Z -> list Z.
Hypothesis set_iter_NoDup : forall l, NoDup (set_iter l).
Hypothesis set_iter_In : forall l x, In x (set_iter l) <-> In x l.

Variable G : Graph.
Hypothesis G_wf : wf_graph G = true.
Hypothesis G_pos : pesos_positivos G = true.

(** The graph of the candidates: its nodes and their neighbours are
    nodes of the reference graph. *)
Variable H : Graph.
Hypothesis H_nodes : forall no, In no (nodes H) -> In no (nodes G).
Hypothesis H_nbrs :
  forall no nbrs v,
    Dict.get H no = Some nbrs -> In v (Dict.keys nbrs) -> In v (nodes G).

Variable P0 : Dict.t Z.
Hypothesis P0_de_G : particao_de G P0 = true.

(** A move that [calc_delta_q] finds of a positive gain raises the
    modularity. *)
Lemma calc_delta_q_sobe (P : Dict.t Z) (n atual alvo : Z) (d : Q) :
  particao_de G P = true ->
  Dict.get P n = Some atual -> atual <> alvo ->
  calc_delta_q set_iter G P n alvo = Ok d -> 0 < d ->
  modularidade G P < modularidade G (Dict.set P n alvo).
Proof.
  intros HP Hn Hne Ed Hd.
  destruct (Qeq_bool (peso_total G) 0) eqn:Em.
  - exfalso. apply Qeq_bool_eq in Em.
    rewrite (peso_total_size G G_wf) in Em.
    unfold calc_delta_q in Ed; cbv zeta in Ed.
    rewrite (Qeq_eq_bool _ _ Em) in Ed; injection Ed as <-.
    eapply Qlt_irrefl; eauto.
  - destruct (calc_delta_q_ganho set_iter set_iter_NoDup set_iter_In G G_wf
                P HP n atual alvo Hn Hne Em) as [d' [Ed' Hgain]].
    rewrite Ed in Ed'; injection Ed' as <-.
    assert (Hm : 0 < peso_total G).
    { destruct (Qlt_le_dec 0 (peso_total G)) as [Hlt|Hle]; [assumption|].
      exfalso.
      assert (E : peso_total G == 0)
        by (apply Qle_antisym;
            [assumption | apply peso_total_nonneg; assumption]).
      rewrite (Qeq_eq_bool _ _ E) in Em; discriminate. }
    assert (Hl : 0 <= peso_entre G n n / peso_total G).
    { apply Qle_shift_div_l; [assumption|].
      rewrite Qmult_0_l; apply peso_entre_nonneg; assumption. }
    apply (Qplus_lt_l _ _ (- modularidade G P)).
    setoid_replace (modularidade G P + - modularidade G P) with 0 by ring.
    setoid_replace (modularidade G (Dict.set P n alvo) + - modularidade G P)
      with (d + peso_entre G n n / peso_total G)
      by (rewrite <- Hgain; ring).
    setoid_replace 0 with (0 + 0) by ring.
    apply Qplus_lt_le_compat; assumption.
Qed.

(** [calc_delta_q] raises no exception on a partition of the graph. *)
Lemma calc_delta_q_ok (P : Dict.t Z) (n atual alvo : Z) :
  particao_de G P = true -> Dict.get P n = Some atual ->
  exists d, calc_delta_q set_iter G P n alvo = Ok d.
Proof.
  intros HP Hn.
  destruct (Qeq_bool (peso_total G) 0) eqn:Em.
  - apply Qeq_bool_eq in Em. rewrite (peso_total_size G G_wf) in Em.
    unfold calc_delta_q; cbv zeta.
    rewrite (Qeq_eq_bool _ _ Em); eexists; reflexivity.
  - destruct (Z.eq_dec atual alvo) as [<-|Hne].
    + unfold calc_delta_q; cbv zeta.
      destruct (Qeq_bool (size G) 0); [eexists; reflexivity|].
      unfold Dict.item; rewrite Hn; cbn [bind].
      rewrite Z.eqb_refl; eexists; reflexivity.
    + destruct (calc_delta_q_ganho set_iter set_iter_NoDup set_iter_In G
                  G_wf P HP n atual alvo Hn Hne Em) as [d [Ed _]].
      exists d; exact Ed.
Qed.

Lemma melhor_vizinha_ok (P : Dict.t Z) (no atual : Z) (todos l : list Z)
  (c0 : Z) (q0 : Q) :
  particao_de G P = true -> Dict.get P no = Some atual ->
  incl l todos ->
  (0 < q0 ->
   c0 <> atual /\ In c0 todos /\ calc_delta_q set_iter G P no c0 = Ok q0) ->
  exists c q,
    foldM
      (fun acc comunidade_vizinho =>
         let '(melhor_comunidade, melhor_delta_q) := acc in
         if negb (Z.eqb atual comunidade_vizinho) then
           delta_q <- calc_delta_q set_iter G P no comunidade_vizinho ;;
           if Qgt_bool delta_q melhor_delta_q
           then Ok (comunidade_vizinho, delta_q)
           else Ok (melhor_comunidade, melhor_delta_q)
         else Ok (melhor_comunidade, melhor_delta_q))
      l (c0, q0) = Ok (c, q)
    /\ (0 <= q0 -> 0 <= q)
    /\ (0 < q ->
        c <> atual /\ In c todos /\ calc_delta_q set_iter G P no c = Ok q).
Proof.
  intros HP Hn; revert c0 q0; induction l as [|x l IH]; intros c0 q0 Hl H0;
    cbn [foldM].
  - exists c0, q0; split; [reflexivity | split; auto].
  - assert (Hl' : incl l todos) by (intros y Hy; apply Hl; right; assumption).
    destruct (Z.eqb_spec atual x) as [->|Hne]; cbn [negb bind].
    + apply IH; assumption.
    + destruct (calc_delta_q_ok P no atual x HP Hn) as [d Ed].
      rewrite Ed; cbn [bind].
      destruct (Qgt_bool d q0) eqn:Egt; cbn [bind].
      * destruct (IH x d Hl') as (c & q & E & Hq0 & Hq).
        { intros _; split; [congruence|]; split; [|assumption].
          apply Hl; left; reflexivity. }
        exists c, q; split; [exact E|]; split; [|exact Hq].
        intros Hq0'; apply Hq0. apply Qgt_bool_lt in Egt.
        apply Qlt_le_weak; eapply Qle_lt_trans; eauto.
      * apply IH; assumption.
Qed.

Lemma comunidades_dos_vizinhos_ok (P : Dict.t Z) (no : Z) :
  particao_de G P = true -> In no (nodes H) ->
  exists viz,
    comunidades_dos_vizinhos H P no = Ok viz
    /\ forall c, In c viz -> In c (Dict.values P).
Proof.
  intros HP Hno.
  destruct (proj1 (particao_de_spec G P) HP) as (Hnd & Htot & _).
  apply In_keys_get in Hno; destruct Hno as [nbrs En].
  unfold comunidades_dos_vizinhos, neighbors; rewrite En; cbn [bind].
  assert (Hk : forall v, In v (Dict.keys nbrs) -> In v (Dict.keys P))
    by (intros v Hv; eapply Htot, H_nbrs; eauto).
  clear En.
  assert (Hgen : forall l acc,
             (forall v, In v l -> In v (Dict.keys P)) ->
             (forall c, In c acc -> In c (Dict.values P)) ->
             exists viz,
               foldM (fun acc vizinho =>
                        c <- Dict.item P vizinho ;; Ok (acc ++ [c]))
                     l acc = Ok viz
               /\ forall c, In c viz -> In c (Dict.values P)).
  { induction l as [|v l IH]; intros acc Hl Hacc; cbn [foldM].
    - exists acc; split; [reflexivity | assumption].
    - destruct (In_keys_get _ P v (Hl v (or_introl eq_refl))) as [c Ec].
      unfold Dict.item; rewrite Ec; cbn [bind].
      apply IH; [intros; apply Hl; right; assumption|].
      intros c' Hc'; apply in_app_iff in Hc'.
      destruct Hc' as [Hc'|[<-|[]]]; [auto|].
      apply get_In in Ec; apply (in_map snd) in Ec; exact Ec. }
  apply Hgen; [assumption | intros ? []].
Qed.

(** A visit raises no exception; it leaves the partition as it is or
    moves the node to a community of a greater modularity. *)
Lemma visitar_ok (P : Dict.t Z) (b : bool) (no : Z) :
  alcancavel P0 P -> In no (nodes H) ->
  exists P' b',
    visitar set_iter H G (P, b) no = Ok (P', b')
    /\ alcancavel P0 P'
    /\ ((P' = P /\ b' = b)
        \/ (b' = true /\ modularidade G P < modularidade G P')).
Proof.
  intros HA Hno.
  pose proof (alcancavel_particao_de G P0 P P0_de_G HA) as HP.
  destruct (proj1 (particao_de_spec G P) HP) as (Hnd & Htot & _).
  assert (Hk : In no (Dict.keys P)) by (apply Htot, H_nodes; assumption).
  destruct (In_keys_get _ P no Hk) as [atual Hn].
  destruct (comunidades_dos_vizinhos_ok P no HP Hno) as [viz [Ev Hviz]].
  destruct (melhor_vizinha_ok P no atual (set_iter viz) (set_iter viz)
              atual 0 HP Hn (incl_refl _))
    as (c & q & E & Hq0 & Hq).
  { intros Hlt; exfalso; eapply Qlt_irrefl; eauto. }
  unfold visitar, Dict.item; rewrite Hn; cbn [bind].
  rewrite Ev; cbn [bind].
  unfold melhor_vizinha; rewrite E; cbn [bind].
  destruct (Qgt_bool q 0) eqn:Egt.
  - apply Qgt_bool_lt in Egt. destruct (Hq Egt) as (Hc & Hin & Ed).
    exists (Dict.set P no c), true; split; [reflexivity|]; split.
    + apply alcancavel_set; try assumption.
      apply (proj2 HA), Hviz, set_iter_In; assumption.
    + right; split; [reflexivity|].
      eapply calc_delta_q_sobe; eauto.
  - exists P, b; split; [reflexivity|]; split; [assumption|].
    left; split; reflexivity.
Qed.

Lemma varredura_ok (l : list Z) (P : Dict.t Z) (b : bool) :
  alcancavel P0 P -> incl l (nodes H) ->
  exists P' b',
    foldM (visitar set_iter H G) l (P, b) = Ok (P', b')
    /\ alcancavel P0 P'
    /\ ((P' = P /\ b' = b)
        \/ (b' = true /\ modularidade G P < modularidade G P')).
Proof.
  revert P b; induction l as [|no l IH]; intros P b HA Hl; cbn [foldM].
  - exists P, b; split; [reflexivity|]; split; [assumption|].
    left; split; reflexivity.
  - destruct (visitar_ok P b no HA (Hl no (or_introl eq_refl)))
      as (P1 & b1 & E1 & HA1 & H1).
    rewrite E1; cbn [bind].
    destruct (IH P1 b1 HA1) as (P2 & b2 & E2 & HA2 & H2);
      [intros x Hx; apply Hl; right; assumption|].
    exists P2, b2; split; [exact E2|]; split; [exact HA2|].
    destruct H1 as [[-> ->]|[-> Hlt1]]; [exact H2|].
    right; destruct H2 as [[-> ->]|[-> Hlt2]]; split; try reflexivity;
      [assumption | eapply Qlt_trans; eauto].
Qed.

(** Local moving returns when it is given more sweeps than there are
    partitions of a greater modularity than the one it starts from. *)
Lemma movimentacao_local_termina (fuel : nat) (P : Dict.t Z) (s : rng) :
  alcancavel P0 P ->
  (posto G (Dict.keys P0) (Dict.values P0) P < fuel)%nat ->
  exists P' s',
    encontrar_movimentacao_local set_iter fuel H G P s = Ok (P', s')
    /\ alcancavel P0 P'.
Proof.
  revert P s; induction fuel as [|fuel IH]; intros P s HA Hf; [lia|].
  cbn [encontrar_movimentacao_local].
  destruct (shuffle (nodes H) s) as [l s1] eqn:Es.
  destruct (varredura_ok l P false HA) as (P1 & b1 & E1 & HA1 & H1).
  { intros x Hx; apply (In_shuffle _ (nodes H) s); rewrite Es; exact Hx. }
  rewrite E1; cbn [bind].
  destruct H1 as [[-> ->]|[-> Hlt]].
  - exists P, s1; split; [reflexivity | assumption].
  - apply IH; [assumption|].
    pose proof (posto_lt G _ _ P P1 (alcancavel_todas P0 P1 HA1) Hlt).
    lia.
Qed.

End Termina.

(** ** The phases return, when the gains are computed without rounding *)

Lemma nodes_subgraph (G : Graph) (S : list Z) (no : Z) :
  In no (nodes (subgraph G S)) -> In no (nodes G).
Proof.
  unfold nodes, Dict.keys, subgraph; rewrite map_map; simpl.
  intros H; apply in_map_iff in H; destruct H as [e [<- He]].
  apply filter_In in He; apply in_map; tauto.
Qed.

Lemma nbrs_subgraph (G : Graph) (S : list Z) (no v : Z)
  (nbrs : Dict.t attrs) :
  wf_graph G = true ->
  Dict.get (subgraph G S) no = Some nbrs -> In v (Dict.keys nbrs) ->
  In v (nodes G).
Proof.
  intros Hwf E Hv; apply get_In in E; unfold subgraph in E.
  apply in_map_iff in E; destruct E as [[u nu] [E He]].
  simpl in E; injection E as -> <-.
  apply filter_In in He; destruct He as [He _].
  apply in_map_iff in Hv; destruct Hv as [[v' d] [<- Hd]].
  apply filter_In in Hd; destruct Hd as [Hd _]; simpl.
  apply (adj_nodes G no v' d Hwf).
  unfold adj.
  rewrite (In_get _ G no nu (wf_graph_nodes _ Hwf) He).
  apply In_get; [|assumption].
  eapply wf_graph_nbrs; [exact Hwf|].
  apply In_get; [apply wf_graph_nodes|]; eassumption.
Qed.

Lemma nbrs_graph (G : Graph) (no v : Z) (nbrs : Dict.t attrs) :
  wf_graph G = true ->
  Dict.get G no = Some nbrs -> In v (Dict.keys nbrs) -> In v (nodes G).
Proof.
  intros Hwf E Hv; apply In_keys_get in Hv; destruct Hv as [d Hd].
  apply (adj_nodes G no v d Hwf); unfold adj; rewrite E; exact Hd.
Qed.

Lemma particao_singular_map (l : list Z) (acc : list Z) :
  NoDup (acc ++ l) ->
  fold_left (fun p no => Dict.set p no no) l (map (fun n => (n, n)) acc)
  = map (fun n => (n, n)) (acc ++ l).
Proof.
  revert acc; induction l as [|n l IH]; intros acc H; simpl.
  - rewrite app_nil_r; reflexivity.
  - rewrite keys_set_new.
    + replace (map (fun n0 : Z => (n0, n0)) acc ++ [(n, n)])
        with (map (fun n0 : Z => (n0, n0)) (acc ++ [n]))
        by (rewrite map_app; reflexivity).
      rewrite IH; rewrite <- app_assoc; [reflexivity | assumption].
    + unfold Dict.keys; rewrite map_map; simpl; rewrite map_id.
      apply NoDup_remove_2 in H; intros Hn; apply H, in_app_iff; left.
      assumption.
Qed.

Lemma particao_singular_nodes (G : Graph) :
  wf_graph G = true ->
  particao_singular G = map (fun n => (n, n)) (nodes G).
Proof.
  intros Hwf; unfold particao_singular.
  apply (particao_singular_map (nodes G) []).
  apply wf_graph_nodes; assumption.
Qed.

Lemma particao_singular_de (G : Graph) :
  wf_graph G = true -> particao_de G (particao_singular G) = true.
Proof.
  intros Hwf; rewrite particao_singular_nodes by assumption.
  assert (Hk : Dict.keys (map (fun n => (n, n)) (nodes G)) = nodes G).
  { unfold Dict.keys; rewrite map_map; simpl; apply map_id. }
  apply particao_de_spec; rewrite Hk.
  split; [apply wf_graph_nodes; assumption | split; auto].
Qed.

Lemma length_particao_de (G : Graph) (P : Dict.t Z) :
  wf_graph G = true -> particao_de G P = true ->
  length P = length (nodes G).
Proof.
  intros Hwf HP; apply particao_de_spec in HP; destruct HP as (H1 & H2 & H3).
  rewrite <- (length_map fst P).
  apply Nat.le_antisymm; apply NoDup_incl_length; try assumption.
  apply wf_graph_nodes; assumption.
Qed.

(** The rank of a partition of a graph of [n] nodes is below
    [varreduras n]. *)
Lemma posto_varreduras (G : Graph) (P0 P : Dict.t Z) (n : nat) :
  wf_graph G = true -> particao_de G P0 = true ->
  (length (nodes G) <= n)%nat ->
  (posto G (Dict.keys P0) (Dict.values P0) P < varreduras n)%nat.
Proof.
  intros Hwf HP Hn; unfold varreduras.
  pose proof (posto_le G (Dict.keys P0) (Dict.values P0) P) as Hle.
  pose proof (length_particao_de G P0 Hwf HP) as Hlen.
  unfold Dict.keys, Dict.values in Hle; rewrite !length_map, Hlen in Hle.
  assert (Hpow : (length (nodes G) ^ length (nodes G) <= n ^ n)%nat).
  { destruct (length (nodes G)) as [|k] eqn:Ek.
    - simpl. destruct n; [simpl; lia|].
      apply Nat.neq_0_lt_0, Nat.pow_nonzero; lia.
    - apply Nat.pow_le_mono; lia. }
  unfold Dict.keys, Dict.values; lia.
Qed.

Lemma mapear_de_volta_wf (mapa particao m : Dict.t Z) :
  mapear_de_volta mapa particao = Ok m -> NoDup (Dict.keys m).
Proof.
  unfold mapear_de_volta; intros E.
  eapply (foldM_inv _ _ (fun d : Dict.t Z => NoDup (Dict.keys d)));
    [| |exact E].
  - intros d [no id] d' _ Hd Hstep.
    destruct (Dict.mem particao id); [|injection Hstep as <-; assumption].
    inv_bind Hstep; injection Hstep as <-.
    apply NoDup_keys_set; assumption.
  - constructor.
Qed.

Lemma mapear_de_volta_get (mapa particao : Dict.t Z) :
  NoDup (Dict.keys mapa) ->
  exists m,
    mapear_de_volta mapa particao = Ok m
    /\ forall no,
        Dict.get m no =
        match Dict.get mapa no with
        | Some id => Dict.get particao id
        | None => None
        end.
Proof.
  intros Hnd.
  destruct (mapear_de_volta_acc particao mapa [] Hnd) as [m [Hm Hget]].
  exists m; split; [exact Hm|].
  intros no; rewrite Hget; simpl.
  destruct (Dict.get mapa no) as [id|]; [|reflexivity].
  destruct (Dict.get particao id); reflexivity.
Qed.

Lemma In_values_get (V : Type) (d : Dict.t V) (v : V) :
  NoDup (Dict.keys d) -> In v (Dict.values d) ->
  exists k, Dict.get d k = Some v.
Proof.
  intros Hnd H; apply in_map_iff in H; destruct H as [[k v'] [E H]].
  simpl in E; subst v'; exists k; apply In_get; assumption.
Qed.

Lemma get_In_values (V : Type) (d : Dict.t V) (k : Z) (v : V) :
  Dict.get d k = Some v -> In v (Dict.values d).
Proof.
  intros H; apply get_In in H; apply (in_map snd) in H; exact H.
Qed.

(** The mapping back of a level whose partition covers the working
    graph: a partition of the original graph into communities of the
    level. *)
Lemma mapear_de_volta_de (G_orig G : Graph) (mapa particao : Dict.t Z) :
  particao_de G_orig mapa = true ->
  (forall c, In c (Dict.values mapa) -> In c (nodes G)) ->
  particao_de G particao = true ->
  exists m,
    mapear_de_volta mapa particao = Ok m
    /\ particao_de G_orig m = true
    /\ (forall c, In c (Dict.values m) -> In c (Dict.values particao)).
Proof.
  intros Hmapa Hval HP.
  destruct (proj1 (particao_de_spec _ _) Hmapa) as (M1 & M2 & M3).
  destruct (proj1 (particao_de_spec _ _) HP) as (P1 & P2 & P3).
  destruct (mapear_de_volta_get mapa particao M1) as [m [Em Hget]].
  pose proof (mapear_de_volta_wf _ _ _ Em) as Hnd.
  exists m; split; [exact Em|]; split.
  - apply particao_de_spec; split; [exact Hnd|]; split.
    + intros n Hn; apply M2 in Hn.
      destruct (In_keys_get _ mapa n Hn) as [id Eid].
      assert (Hid : In id (Dict.keys particao))
        by (apply P2, Hval; eapply get_In_values; eauto).
      destruct (In_keys_get _ particao id Hid) as [c Ec].
      apply mem_In_keys; unfold Dict.mem; rewrite Hget, Eid, Ec.
      reflexivity.
    + intros n Hn; apply M3.
      destruct (In_keys_get _ m n Hn) as [c Ec].
      rewrite Hget in Ec.
      destruct (Dict.get mapa n) eqn:En; [|discriminate].
      eapply get_In_keys; eauto.
  - intros c Hc; destruct (In_values_get _ m c Hnd Hc) as [n En].
    rewrite Hget in En.
    destruct (Dict.get mapa n); [|discriminate].
    eapply get_In_values; eauto.
Qed.

Lemma crescente_snoc (h : list Q) (q : Q) :
  crescente h -> (forall x, In x h -> x < q) -> crescente (h ++ [q]).
Proof.
  induction h as [|x h IH]; intros Hc Hq; simpl; [trivial|].
  destruct h as [|y h]; simpl.
  - split; [apply Hq; left; reflexivity | trivial].
  - simpl in Hc; destruct Hc as [Hxy Hc]; split; [assumption|].
    apply IH; [assumption | intros z Hz; apply Hq; right; assumption].
Qed.

Section Niveis.

Variable set_iter : list Z -> list Z.
Hypothesis set_iter_NoDup : forall l, NoDup (set_iter l).
Hypothesis set_iter_In : forall l x, In x (set_iter l) <-> In x l.

(** Local moving on the whole graph returns a partition of the graph. *)
Lemma movimentacao_local_retorna (fuel : nat) (G : Graph) (P : Dict.t Z)
  (s : rng) :
  wf_graph G = true -> pesos_positivos G = true ->
  particao_de G P = true ->
  (varreduras (length (nodes G)) <= fuel)%nat ->
  exists P' s',
    encontrar_movimentacao_local set_iter fuel G G P s = Ok (P', s')
    /\ particao_de G P' = true.
Proof.
  intros Hwf Hpos HP Hf.
  destruct (movimentacao_local_termina set_iter set_iter_NoDup set_iter_In
              G Hwf Hpos G (fun no H => H) (fun no nbrs v => nbrs_graph G no
              v nbrs Hwf) P HP fuel P s (alcancavel_refl P))
    as (P' & s' & E & HA).
  - pose proof (posto_varreduras G P P (length (nodes G)) Hwf HP
                  (Nat.le_refl _)).
    lia.
  - exists P', s'; split; [exact E|].
    eapply alcancavel_particao_de; eauto.
Qed.

Lemma keys_fold_set (nos : list Z) (P : Dict.t Z) :
  (forall n, In n nos -> In n (Dict.keys P)) ->
  Dict.keys (fold_left (fun p no => Dict.set p no no) nos P) = Dict.keys P.
Proof.
  revert P; induction nos as [|n nos IH]; intros P H; simpl; [reflexivity|].
  rewrite IH.
  - apply keys_set_mem, H; left; reflexivity.
  - intros x Hx; rewrite keys_set_mem by (apply H; left; reflexivity).
    apply H; right; assumption.
Qed.

Lemma renomear_ok (dividida : bool) (c : Z) (F mapa : Dict.t Z) (hi : Z)
  (e : Z * Z) :
  In (fst e) (Dict.keys F) ->
  exists F' mapa' hi',
    renomear dividida c (F, mapa, hi) e = Ok (F', mapa', hi')
    /\ Dict.keys F' = Dict.keys F.
Proof.
  destruct e as [no cid]; simpl; intros Hno; unfold renomear.
  destruct dividida.
  - destruct (negb (Dict.mem mapa cid)) eqn:Em.
    + unfold Dict.item; rewrite get_set, Z.eqb_refl; cbn [bind].
      do 3 eexists; split; [reflexivity | apply keys_set_mem; assumption].
    + apply negb_false_iff in Em; unfold Dict.mem in Em.
      unfold Dict.item.
      destruct (Dict.get mapa cid); [|discriminate]; cbn [bind].
      do 3 eexists; split; [reflexivity | apply keys_set_mem; assumption].
  - do 3 eexists; split; [reflexivity | apply keys_set_mem; assumption].
Qed.

Lemma renomear_todos_ok (dividida : bool) (c : Z) (l : list (Z * Z))
  (F mapa : Dict.t Z) (hi : Z) :
  (forall e, In e l -> In (fst e) (Dict.keys F)) ->
  exists F' mapa' hi',
    foldM (renomear dividida c) l (F, mapa, hi) = Ok (F', mapa', hi')
    /\ Dict.keys F' = Dict.keys F.
Proof.
  revert F mapa hi; induction l as [|e l IH]; intros F mapa hi H;
    cbn [foldM].
  - do 3 eexists; split; reflexivity.
  - destruct (renomear_ok dividida c F mapa hi e (H e (or_introl eq_refl)))
      as (F1 & m1 & h1 & E1 & K1).
    rewrite E1; cbn [bind].
    destruct (IH F1 m1 h1) as (F2 & m2 & h2 & E2 & K2).
    + intros x Hx; rewrite K1; apply H; right; assumption.
    + do 3 eexists; split; [exact E2 | congruence].
Qed.

Lemma refinar_comunidade_ok (fuel : nat) (G : Graph) (P F : Dict.t Z)
  (hi : Z) (s : rng) (c : Z) :
  wf_graph G = true -> pesos_positivos G = true ->
  particao_de G P = true ->
  (varreduras (length (nodes G)) <= fuel)%nat ->
  Dict.keys F = Dict.keys P ->
  exists F' hi' s',
    refinar_comunidade set_iter fuel G P (F, hi, s) c = Ok (F', hi', s')
    /\ Dict.keys F' = Dict.keys P.
Proof.
  intros Hwf Hpos HP Hf HF; unfold refinar_comunidade; cbv zeta.
  set (nos := map fst (filter (fun e => Z.eqb (snd e) c) P)).
  destruct (length nos <=? 1)%nat;
    [do 3 eexists; split; [reflexivity | assumption]|].
  assert (Hnos : forall n, In n nos -> In n (Dict.keys P)).
  { intros n Hn; unfold nos in Hn; apply in_map_iff in Hn.
    destruct Hn as [e [<- He]]; apply filter_In in He.
    apply in_map; tauto. }
  set (Pu := fold_left (fun p no => Dict.set p no no) nos P).
  assert (Hku : Dict.keys Pu = Dict.keys P)
    by (apply keys_fold_set; exact Hnos).
  assert (HPu : particao_de G Pu = true).
  { apply particao_de_spec in HP; apply particao_de_spec.
    rewrite Hku; assumption. }
  destruct (movimentacao_local_termina set_iter set_iter_NoDup set_iter_In
              G Hwf Hpos (subgraph G nos) (nodes_subgraph G nos)
              (fun no nbrs v => nbrs_subgraph G nos no v nbrs Hwf)
              Pu HPu fuel Pu s (alcancavel_refl Pu))
    as (R & s' & E & HA).
  - pose proof (posto_varreduras G Pu Pu (length (nodes G)) Hwf HPu
                  (Nat.le_refl _)).
    lia.
  - rewrite E; cbn [bind].
    destruct (renomear_todos_ok
                (1 <? length (set_iter
                                (Dict.values
                                   (filter (fun e => memZ (fst e) nos) R))))%nat
                c (filter (fun e => memZ (fst e) nos) R) F [] hi)
      as (F' & m' & hi' & E' & K').
    + intros e He; apply filter_In in He; destruct He as [_ He].
      apply memZ_In in He; rewrite HF; apply Hnos; assumption.
    + match goal with
      | |- context [bind ?x _] =>
          replace x with (Ok (A := Dict.t Z * Dict.t Z * Z) (F', m', hi'))
            by (symmetry; exact E')
      end.
      cbn [bind].
      do 3 eexists; split; [reflexivity | congruence].
Qed.

(** Refinement returns a partition of the graph. *)
Lemma refinar_particao_retorna (fuel : nat) (G : Graph) (P : Dict.t Z)
  (s : rng) :
  wf_graph G = true -> pesos_positivos G = true ->
  particao_de G P = true ->
  (varreduras (length (nodes G)) <= fuel)%nat ->
  exists F s',
    refinar_particao set_iter fuel G P s = Ok (F, s')
    /\ particao_de G F = true.
Proof.
  intros Hwf Hpos HP Hf; unfold refinar_particao.
  assert (Hgen : forall ids F hi s0,
             Dict.keys F = Dict.keys P ->
             exists F' hi' s',
               foldM (refinar_comunidade set_iter fuel G P) ids (F, hi, s0)
               = Ok (F', hi', s')
               /\ Dict.keys F' = Dict.keys P).
  { induction ids as [|c ids IH]; intros F hi s0 HF; cbn [foldM].
    - do 3 eexists; split; [reflexivity | assumption].
    - destruct (refinar_comunidade_ok fuel G P F hi s0 c Hwf Hpos HP Hf HF)
        as (F1 & h1 & s1 & E1 & K1).
      rewrite E1; cbn [bind]; apply IH; assumption. }
  destruct (Hgen (set_iter (Dict.values P)) P (primeiro_id_novo P) s
              eq_refl) as (F & hi & s' & E & K).
  rewrite E; cbn [bind].
  exists F, s'; split; [reflexivity|].
  apply particao_de_spec in HP; apply particao_de_spec.
  rewrite K; assumption.
Qed.

End Niveis.

Lemma particao_de_parcial (G : Graph) (P : Dict.t Z) :
  particao_de G P = true -> particao_parcial G P = true.
Proof.
  unfold particao_de, particao_parcial; rewrite !andb_true_iff; tauto.
Qed.

Lemma varreduras_mono (a b : nat) :
  (a <= b)%nat -> (varreduras a <= varreduras b)%nat.
Proof.
  intros H; unfold varreduras; apply le_n_S.
  destruct a as [|a].
  - simpl; destruct b; [simpl; lia|].
    apply Nat.neq_0_lt_0, Nat.pow_nonzero; lia.
  - apply Nat.pow_le_mono; lia.
Qed.

Lemma varreduras_gt (n : nat) : (n < varreduras n)%nat.
Proof.
  unfold varreduras; apply le_n_S.
  destruct n as [|[|n]]; [lia | simpl; lia |].
  assert (H : (1 < S (S n))%nat) by lia.
  pose proof (Nat.pow_gt_lin_r (S (S n)) (S (S n)) H); lia.
Qed.

Section Laco.

Variable set_iter : list Z -> list Z.
Hypothesis set_iter_NoDup : forall l, NoDup (set_iter l).
Hypothesis set_iter_In : forall l x, In x (set_iter l) <-> In x l.

Variable G_orig : Graph.
Hypothesis G_orig_wf : wf_graph G_orig = true.

(** The evaluation of a level raises no exception; it returns a
    partition of the original graph and an increasing history, or
    goes to a state with fewer nodes. *)
Lemma avaliar_nivel_ok (st : estado) (P : Dict.t Z) :
  inv_estado G_orig st ->
  particao_de (grafo_atual st) P = true ->
  exists r,
    avaliar_nivel set_iter G_orig st P = Ok r
    /\ match r with
       | inl (p, h) => particao_de G_orig p = true /\ crescente h
       | inr st' =>
           inv_estado G_orig st'
           /\ (length (nodes (grafo_atual st'))
               < length (nodes (grafo_atual st)))%nat
       end.
Proof.
  intros (I1 & I2 & I3 & I4 & I5 & I6 & I7 & I8) HP.
  unfold avaliar_nivel; cbv zeta.
  destruct (mapear_de_volta_de G_orig (grafo_atual st)
              (no_em_mapa_comunidade st) P I4 I5 HP) as (m & Em & Hm & Hvm).
  rewrite Em; cbn [bind].
  pose proof (calcular_modularidade_vale set_iter set_iter_NoDup set_iter_In
                G_orig m G_orig_wf (particao_de_parcial _ _ Hm)) as Hq.
  destruct (calcular_modularidade set_iter G_orig m) as [q| |];
    simpl in Hq; try contradiction.
  cbn [bind].
  destruct (Qle_bool q (melhor_modularidade st)) eqn:Ele.
  - eexists; split; [reflexivity|]; split; assumption.
  - assert (Hlt : melhor_modularidade st < q).
    { apply Qnot_le_lt; intros Hle; apply Qle_bool_iff in Hle; congruence. }
    assert (Hc : crescente (modularidades_por_nivel st ++ [q])).
    { apply crescente_snoc; [assumption|].
      intros x Hx; eapply Qle_lt_trans; eauto. }
    destruct (proj1 (particao_de_spec _ _) HP) as (P1 & P2 & P3).
    destruct (agrupar_grafo_inv set_iter set_iter_NoDup set_iter_In
                (grafo_atual st) I1 P P2)
      as (G' & EG & W1 & W2 & W3 & W4).
    rewrite EG; cbn [bind].
    destruct (length (nodes G') =? length (nodes (grafo_atual st)))%nat
      eqn:El.
    + eexists; split; [reflexivity|]; split; assumption.
    + apply Nat.eqb_neq in El.
      assert (Hlen : (length (nodes G')
                      <= length (nodes (grafo_atual st)))%nat).
      { rewrite W2, <- (length_particao_de _ P I1 HP).
        rewrite <- (length_map snd P).
        apply NoDup_incl_length; [apply set_iter_NoDup|].
        intros x Hx; rewrite set_iter_In in Hx; exact Hx. }
      eexists; split; [reflexivity|]; split; [|cbn [grafo_atual]; lia].
      repeat split; cbn [grafo_atual no_em_mapa_comunidade
                          melhor_particao_geral melhor_modularidade
                          modularidades_por_nivel];
        try assumption.
      * apply W3; assumption.
      * lia.
      * intros c Hc'; rewrite W2; apply set_iter_In, Hvm; assumption.
      * intros x Hx; apply in_app_iff in Hx.
        destruct Hx as [Hx|[<-|[]]]; [|apply Qle_refl].
        apply Qlt_le_weak; eapply Qle_lt_trans; eauto.
Qed.

Lemma estado_inicial_inv :
  pesos_positivos G_orig = true -> inv_estado G_orig (estado_inicial G_orig).
Proof.
  intros Hpos; unfold estado_inicial, inv_estado.
  cbn [grafo_atual no_em_mapa_comunidade melhor_particao_geral
       melhor_modularidade modularidades_por_nivel].
  split; [assumption|]. split; [assumption|]. split; [lia|].
  split; [apply particao_singular_de; assumption|].
  split.
  - intros c Hc. rewrite particao_singular_nodes in Hc by assumption.
    unfold Dict.values in Hc; rewrite map_map in Hc; simpl in Hc.
    rewrite map_id in Hc; exact Hc.
  - split; [apply particao_singular_de; assumption|].
    split; [exact I | intros x []].
Qed.

Lemma leiden_niveis_ok (niveis fuel : nat) (st : estado) (s : rng) :
  inv_estado G_orig st ->
  (length (nodes (grafo_atual st)) < niveis)%nat ->
  (varreduras (length (nodes G_orig)) <= fuel)%nat ->
  exists P h s',
    leiden_niveis set_iter niveis fuel G_orig st s = Ok (P, h, s')
    /\ particao_de G_orig P = true /\ crescente h.
Proof.
  revert st s; induction niveis as [|niveis IH]; intros st s HI Hn Hf;
    [lia|].
  pose proof HI as (I1 & I2 & I3 & _).
  assert (Hf' : (varreduras (length (nodes (grafo_atual st))) <= fuel)%nat).
  { pose proof (varreduras_mono _ _ I3); lia. }
  cbn [leiden_niveis]; cbv zeta.
  destruct (movimentacao_local_retorna set_iter set_iter_NoDup set_iter_In
              fuel (grafo_atual st) (particao_singular (grafo_atual st)) s
              I1 I2 (particao_singular_de _ I1) Hf')
    as (P1 & s1 & E1 & HP1).
  rewrite E1; cbn [bind].
  destruct (refinar_particao_retorna set_iter set_iter_NoDup set_iter_In
              fuel (grafo_atual st) P1 s1 I1 I2 HP1 Hf')
    as (P2 & s2 & E2 & HP2).
  rewrite E2; cbn [bind].
  destruct (avaliar_nivel_ok st P2 HI HP2) as (r & Er & Hr).
  rewrite Er; cbn [bind].
  destruct r as [[p h]|st'].
  - exists p, h, s2; split; [reflexivity | exact Hr].
  - destruct Hr as [HI' Hlt]; apply IH; [assumption | lia | assumption].
Qed.

Lemma louvain_niveis_ok (niveis fuel : nat) (st : estado) (s : rng) :
  inv_estado G_orig st ->
  (length (nodes (grafo_atual st)) < niveis)%nat ->
  (varreduras (length (nodes G_orig)) <= fuel)%nat ->
  exists P h s',
    louvain_niveis set_iter niveis fuel G_orig st s = Ok (P, h, s')
    /\ particao_de G_orig P = true /\ crescente h.
Proof.
  revert st s; induction niveis as [|niveis IH]; intros st s HI Hn Hf;
    [lia|].
  pose proof HI as (I1 & I2 & I3 & _).
  assert (Hf' : (varreduras (length (nodes (grafo_atual st))) <= fuel)%nat).
  { pose proof (varreduras_mono _ _ I3); lia. }
  cbn [louvain_niveis]; cbv zeta.
  destruct (movimentacao_local_retorna set_iter set_iter_NoDup set_iter_In
              fuel (grafo_atual st) (particao_singular (grafo_atual st)) s
              I1 I2 (particao_singular_de _ I1) Hf')
    as (P1 & s1 & E1 & HP1).
  rewrite E1; cbn [bind].
  destruct (avaliar_nivel_ok st P1 HI HP1) as (r & Er & Hr).
  rewrite Er; cbn [bind].
  destruct r as [[p h]|st'].
  - exists p, h, s1; split; [reflexivity | exact Hr].
  - destruct Hr as [HI' Hlt]; apply IH; [assumption | lia | assumption].
Qed.

(** With the numbers computed without rounding, both algorithms
    return, with a partition of the input graph and an increasing
    history, when they are given [varreduras n] turns, [n] the number of
    nodes.  In binary64 they need not, as the last part shows. *)
Lemma leiden_louvain_ok (fuel : nat) (s : rng) :
  pesos_positivos G_orig = true ->
  (varreduras (length (nodes G_orig)) <= fuel)%nat ->
  (exists P h s',
      leiden set_iter fuel G_orig s = Ok (P, h, s')
      /\ particao_de G_orig P = true /\ crescente h)
  /\ (exists P h s',
         louvain set_iter fuel G_orig s = Ok (P, h, s')
         /\ particao_de G_orig P = true /\ crescente h).
Proof.
  intros Hpos Hf.
  pose proof (estado_inicial_inv Hpos) as HI.
  pose proof (varreduras_gt (length (nodes G_orig))) as Hgt.
  split; [apply leiden_niveis_ok | apply louvain_niveis_ok];
    try assumption; cbn [estado_inicial grafo_atual]; lia.
Qed.

End Laco.

(** ** The scenarios of the specification *)

(** Two disjoint edges: each edge is a community, and the modularity is
    one half. *)
Example duas_arestas :
  exists q s' q' s'',
    leiden ordem_crescente 10 grafo_duas_arestas [5; 3; 1; 4; 1; 5]%nat
    = Ok ([(0, 1); (1, 1); (2, 3); (3, 3)]%Z, [q], s')
    /\ q == 1 # 2
    /\ louvain ordem_crescente 10 grafo_duas_arestas [5; 3; 1; 4; 1; 5]%nat
       = Ok ([(0, 1); (1, 1); (2, 3); (3, 3)]%Z, [q'], s'')
    /\ q' == 1 # 2.
Proof.
  do 4 eexists; split; [vm_compute; reflexivity|].
  split; [reflexivity|].
  split; [vm_compute; reflexivity | reflexivity].
Qed.

(** Two disjoint triangles: each triangle is a community, and the
    modularity is one half. *)
Example dois_triangulos :
  exists q s',
    leiden ordem_crescente 10 grafo_triangulos [5; 3; 1; 4; 1; 5; 9]%nat
    = Ok ([(0, 1); (1, 1); (2, 1); (3, 3); (4, 3); (5, 3)]%Z, [q], s')
    /\ q == 1 # 2.
Proof.
  do 2 eexists; split; [vm_compute; reflexivity | reflexivity].
Qed.

(** A single node without edges: the node is its own community, and the
    history has the one entry zero. *)
Example um_no :
  leiden ordem_crescente 10 (grafo_vazio [7%Z]) [] = Ok ([(7, 7)]%Z, [0], [])
  /\ louvain ordem_crescente 10 (grafo_vazio [7%Z]) []
     = Ok ([(7, 7)]%Z, [0], []).
Proof. split; reflexivity. Qed.


(** * Further properties of the program *)

(** ** The grouping of a partition *)

(** X1: [agrupar_por_comunidade] has one entry for every community
    identifier that occurs in the partition and none for any other; the
    entry of a community is not empty and holds the nodes the partition
    sends to that community, each once. *)
Theorem agrupar_por_comunidade_membros (P : Dict.t Z) :
  NoDup (Dict.keys P) ->
  NoDup (Dict.keys (agrupar_por_comunidade P))
  /\ forall c,
       match Dict.get (agrupar_por_comunidade P) c with
       | Some nos =>
           nos <> [] /\ NoDup nos
           /\ forall n, In n nos <-> Dict.get P n = Some c
       | None => forall n, Dict.get P n <> Some c
       end.
Proof.
  intros Hnd; rewrite agrupar_por_comunidade_grupos; unfold grupos; split.
  - unfold Dict.keys; rewrite map_map; simpl; rewrite map_id.
    apply NoDup_distintos.
  - intros c; rewrite get_map_keys, memZ_distintos.
    destruct (memZ c (Dict.values P)) eqn:Ec.
    + apply memZ_In in Ec. split; [|split].
      * apply in_map_iff in Ec; destruct Ec as [[n c'] [E Hin]].
        simpl in E; subst c'.
        intros E0; apply (In_nos_em P c n) in Hin; rewrite E0 in Hin.
        destruct Hin.
      * apply NoDup_nos_em; assumption.
      * intros n; rewrite In_nos_em; split;
          [apply In_get; assumption | apply get_In].
    + apply memZ_false in Ec; intros n E; apply Ec.
      eapply get_In_values; eauto.
Qed.

Lemma agrupar_por_comunidade_membros_witness :
  NoDup (Dict.keys (agrupar_por_comunidade [(0, 5); (1, 3); (2, 5)]%Z))
  /\ forall c,
       match Dict.get (agrupar_por_comunidade [(0, 5); (1, 3); (2, 5)]%Z) c
       with
       | Some nos =>
           nos <> [] /\ NoDup nos
           /\ forall n,
                In n nos <-> Dict.get [(0, 5); (1, 3); (2, 5)]%Z n = Some c
       | None => forall n, Dict.get [(0, 5); (1, 3); (2, 5)]%Z n <> Some c
       end.
Proof.
  apply (agrupar_por_comunidade_membros [(0, 5); (1, 3); (2, 5)]%Z).
  apply nodupb_NoDup; reflexivity.
Defined.

(** ** The exceptions of the modularity *)

(** A loop whose body raises only exceptions of one kind, and raises at
    some element whatever the accumulator, ends in an exception of that
    kind. *)
Lemma foldM_raise (A B : Type) (Bad : exn -> Prop) (f : B -> A -> result B)
  (l : list A) :
  (forall b x, In x l ->
     (exists b', f b x = Ok b') \/ (exists e, f b x = Raise e /\ Bad e)) ->
  (exists x, In x l /\ forall b, exists e, f b x = Raise e /\ Bad e) ->
  forall b, exists e, foldM f l b = Raise e /\ Bad e.
Proof.
  induction l as [|x l IH]; intros Hf [y [Hy Hbad]] b; [destruct Hy|].
  cbn [foldM].
  destruct (Hf b x (or_introl eq_refl)) as [[b' E]|[e [E He]]].
  - rewrite E; cbn [bind]. apply IH.
    + intros; apply Hf; right; assumption.
    + destruct Hy as [->|Hy].
      * destruct (Hbad b) as [e [E' _]]; congruence.
      * exists y; split; assumption.
  - rewrite E; cbn [bind]; exists e; split; [reflexivity | assumption].
Qed.

Section Excecoes.

Variable set_iter : list Z -> list Z.
Hypothesis set_iter_In : forall l x, In x (set_iter l) <-> In x l.

(** The sum of the degrees of a collection of nodes is a number, or the
    error of networkx for one of them that is not in the graph. *)
Lemma soma_graus_casos (G : Graph) (l : list Z) (acc : Q) :
  (exists r,
      foldM (fun acc no => k <- degree G no ;; Ok (acc + k)) l acc = Ok r)
  \/ (exists k,
         foldM (fun acc no => k <- degree G no ;; Ok (acc + k)) l acc
         = Raise (NetworkXError k)
         /\ In k l /\ ~ In k (nodes G)).
Proof.
  revert acc; induction l as [|n l IH]; intros acc; cbn [foldM].
  - left; eexists; reflexivity.
  - assert (Hd : degree G n
                 = match Dict.get G n with
                   | Some nbrs => Ok (degree_nbrs n nbrs)
                   | None => Raise (NetworkXError n)
                   end) by reflexivity.
    rewrite Hd; clear Hd.
    destruct (Dict.get G n) as [nbrs|] eqn:En; cbn [bind].
    + destruct (IH (acc + degree_nbrs n nbrs)) as [[r E]|[k [E [Hk Hn]]]].
      * left; exists r; exact E.
      * right; exists k; split; [exact E|]; split; [right|]; assumption.
    + right; exists n; split; [reflexivity|]; split; [left; reflexivity|].
      apply get_None_keys; assumption.
Qed.

Lemma soma_graus_falha (G : Graph) (l : list Z) (acc : Q) (n : Z) :
  In n l -> ~ In n (nodes G) ->
  exists k,
    foldM (fun acc no => k <- degree G no ;; Ok (acc + k)) l acc
    = Raise (NetworkXError k)
    /\ In k l /\ ~ In k (nodes G).
Proof.
  intros Hin Hn.
  destruct (soma_graus_casos G l acc) as [[r E]|H]; [|exact H].
  exfalso; revert acc r E; induction l as [|x l IH]; intros acc r E;
    [destruct Hin|].
  cbn [foldM] in E.
  assert (Hd : degree G x
               = match Dict.get G x with
                 | Some nbrs => Ok (degree_nbrs x nbrs)
                 | None => Raise (NetworkXError x)
                 end) by reflexivity.
  rewrite Hd in E; clear Hd.
  destruct (Dict.get G x) as [nbrs|] eqn:Ex; cbn [bind] in E;
    [|discriminate].
  destruct Hin as [->|Hin].
  - apply Hn; eapply get_In_keys; eauto.
  - eapply IH; eauto.
Qed.

(** X2: on a graph of a total weight other than zero,
    [calcular_modularidade] raises the error of networkx when a key of
    the partition is not a node of the graph, and the error names such
    a key. *)
Theorem calcular_modularidade_no_fora (G : Graph) (particao : Dict.t Z)
  (n : Z) :
  Qeq_bool (size G) 0 = false ->
  In n (Dict.keys particao) -> ~ In n (nodes G) ->
  exists k,
    calcular_modularidade set_iter G particao = Raise (NetworkXError k)
    /\ In k (Dict.keys particao) /\ ~ In k (nodes G).
Proof.
  intros Hm Hn Hout.
  unfold calcular_modularidade; cbv zeta; rewrite Hm.
  rewrite agrupar_por_comunidade_grupos.
  destruct (foldM_raise (Z * list Z) Q
              (fun e => exists k, e = NetworkXError k
                                  /\ In k (Dict.keys particao)
                                  /\ ~ In k (nodes G))
              (fun modularidade_total e =>
                 let nos_comunidade := snd e in
                 soma_graus <- soma_graus set_iter G nos_comunidade ;;
                 let subgrafo := subgraph G nos_comunidade in
                 let peso_arestas_internas := size subgrafo in
                 let frac_interna := peso_arestas_internas / size G in
                 let frac_graus := soma_graus / (2 * size G) in
                 Ok (modularidade_total + (frac_interna - frac_graus ^ 2)))
              (grupos particao)) with (b := 0) as [e [E [k [-> Hk]]]].
  - intros b [c nos] Hin; cbv zeta; cbn [snd].
    unfold grupos in Hin; apply in_map_iff in Hin.
    destruct Hin as [c' [Ec _]]; injection Ec as -> <-.
    unfold soma_graus.
    destruct (soma_graus_casos G (set_iter (nos_em particao c)) 0)
      as [[r E]|[k [E [Hk Hg]]]]; rewrite E; cbn [bind].
    + left; eexists; reflexivity.
    + right; eexists; split; [reflexivity|].
      exists k; split; [reflexivity|]; split; [|assumption].
      apply (proj1 (set_iter_In _ _)) in Hk; eapply In_nos_em_keys; eauto.
  - apply in_map_iff in Hn; destruct Hn as [[n' c] [En Hin]].
    simpl in En; subst n'.
    exists (c, nos_em particao c); split.
    + unfold grupos; apply in_map_iff; exists c; split; [reflexivity|].
      apply In_distintos. apply in_map_iff; exists (n, c); split;
        [reflexivity | assumption].
    + intros b; cbv zeta; cbn [snd]; unfold soma_graus.
      destruct (soma_graus_falha G (set_iter (nos_em particao c)) 0 n)
        as [k [E [Hk Hg]]].
      * apply set_iter_In, In_nos_em; assumption.
      * assumption.
      * rewrite E; cbn [bind]; eexists; split; [reflexivity|].
        exists k; split; [reflexivity|]; split; [|assumption].
        apply (proj1 (set_iter_In _ _)) in Hk; eapply In_nos_em_keys; eauto.
  - exists k; split; [exact E | exact Hk].
Qed.

End Excecoes.

Lemma calcular_modularidade_no_fora_witness :
  exists k,
    calcular_modularidade ordem_crescente grafo_caminho
      [(0, 0); (9, 0); (1, 1)]%Z
    = Raise (NetworkXError k)
    /\ In k (Dict.keys [(0, 0); (9, 0); (1, 1)]%Z)
    /\ ~ In k (nodes grafo_caminho).
Proof.
  apply (calcular_modularidade_no_fora ordem_crescente ordem_crescente_In
           grafo_caminho [(0, 0); (9, 0); (1, 1)]%Z 9%Z).
  - reflexivity.
  - right; left; reflexivity.
  - intros H; apply memZ_In in H; discriminate.
Defined.

(** ** The gain of a move, as the program computes it *)

Section Variacao.

Variable set_iter : list Z -> list Z.
Hypothesis set_iter_NoDup : forall l, NoDup (set_iter l).
Hypothesis set_iter_In : forall l x, In x (set_iter l) <-> In x l.

Lemma calcular_modularidade_devolve (G : Graph) (P : Dict.t Z) :
  wf_graph G = true -> particao_parcial G P = true ->
  exists q,
    calcular_modularidade set_iter G P = Ok q /\ q == modularidade G P.
Proof.
  intros Hwf HP.
  pose proof (calcular_modularidade_vale set_iter set_iter_NoDup set_iter_In
                G P Hwf HP) as H.
  destruct (calcular_modularidade set_iter G P) as [q| |];
    simpl in H; try contradiction.
  exists q; split; [reflexivity | exact H].
Qed.



End Variacao.



(** ** Local moving: what it keeps and where it stops *)

Lemma Qgt_bool_le (a b : Q) : Qgt_bool a b = false <-> a <= b.
Proof.
  unfold Qgt_bool; rewrite negb_false_iff; apply Qle_bool_iff.
Qed.

Section MovimentacaoLocalGeral.

Variable set_iter : list Z -> list Z.
Hypothesis set_iter_In : forall l x, In x (set_iter l) <-> In x l.

(** The loop over the communities of the neighbours returns the start or
    one of the candidates, and a gain that no candidate exceeds. *)
Lemma melhor_vizinha_max (G : Graph) (P : Dict.t Z) (no atual : Z)
  (l : list Z) (c0 : Z) (q0 : Q) (c : Z) (q : Q) :
  foldM
    (fun acc comunidade_vizinho =>
       let '(melhor_comunidade, melhor_delta_q) := acc in
       if negb (Z.eqb atual comunidade_vizinho) then
         delta_q <- calc_delta_q set_iter G P no comunidade_vizinho ;;
         if Qgt_bool delta_q melhor_delta_q
         then Ok (comunidade_vizinho, delta_q)
         else Ok (melhor_comunidade, melhor_delta_q)
       else Ok (melhor_comunidade, melhor_delta_q))
    l (c0, q0) = Ok (c, q) ->
  q0 <= q
  /\ (c = c0 \/ In c l)
  /\ forall x, In x l -> x <> atual ->
       exists d, calc_delta_q set_iter G P no x = Ok d /\ d <= q.
Proof.
  revert c0 q0; induction l as [|y l IH]; intros c0 q0 E; cbn [foldM] in E.
  - injection E as <- <-; split; [apply Qle_refl|]; split;
      [left; reflexivity | intros x []].
  - destruct (Z.eqb_spec atual y) as [<-|Hne]; cbn [negb bind] in E.
    + destruct (IH _ _ E) as (Hq & Hc & Hmax); split; [exact Hq|]; split.
      * destruct Hc; [left | right; right]; assumption.
      * intros x [<-|Hx] Hxa; [congruence | auto].
    + destruct (calc_delta_q set_iter G P no y) as [d| |] eqn:Ed;
        cbn [bind] in E; try discriminate.
      destruct (Qgt_bool d q0) eqn:Egt; cbn [bind] in E;
        destruct (IH _ _ E) as (Hq & Hc & Hmax).
      * apply Qgt_bool_lt in Egt. split; [|split].
        -- apply Qlt_le_weak; eapply Qlt_le_trans; eauto.
        -- right; destruct Hc as [->|Hc]; [left; reflexivity | right];
             assumption.
        -- intros x [<-|Hx] Hxa; [exists d; split; auto | auto].
      * apply Qgt_bool_le in Egt. split; [exact Hq|]; split.
        -- destruct Hc; [left | right; right]; assumption.
        -- intros x [<-|Hx] Hxa; [|auto].
           exists d; split; [assumption | eapply Qle_trans; eauto].
Qed.

(** The communities of the neighbours, when they are found: every
    neighbour is a key of the partition and its community is among
    them, and each of them is a community of the partition. *)
Lemma comunidades_dos_vizinhos_inv (H : Graph) (P : Dict.t Z) (no : Z)
  (viz : list Z) :
  comunidades_dos_vizinhos H P no = Ok viz ->
  (exists nbrs, Dict.get H no = Some nbrs
                /\ forall v, In v (Dict.keys nbrs) ->
                     exists c, Dict.get P v = Some c /\ In c viz)
  /\ forall c, In c viz -> In c (Dict.values P).
Proof.
  unfold comunidades_dos_vizinhos, neighbors.
  destruct (Dict.get H no) as [nbrs|]; cbn [bind]; [|discriminate].
  intros E.
  assert (Hgen : forall l acc viz,
             foldM (fun acc vizinho =>
                      c <- Dict.item P vizinho ;; Ok (acc ++ [c]))
                   l acc = Ok viz ->
             (forall c, In c acc -> In c viz)
             /\ (forall v, In v l ->
                   exists c, Dict.get P v = Some c /\ In c viz)
             /\ (forall c, In c viz ->
                   In c acc \/ In c (Dict.values P))).
  { clear; induction l as [|v l IH]; intros acc viz E; cbn [foldM] in E.
    - injection E as <-; split; [auto|]; split; [intros v []|auto].
    - unfold Dict.item in E.
      destruct (Dict.get P v) as [c|] eqn:Ec; cbn [bind] in E;
        [|discriminate].
      destruct (IH _ _ E) as (Hacc & Hl & Hviz); split; [|split].
      + intros x Hx; apply Hacc, in_app_iff; left; assumption.
      + intros x [<-|Hx]; [|auto].
        exists c; split; [assumption|].
        apply Hacc, in_app_iff; right; left; reflexivity.
      + intros x Hx; destruct (Hviz x Hx) as [Hx'|Hx']; [|right; assumption].
        apply in_app_iff in Hx'; destruct Hx' as [Hx'|[<-|[]]];
          [left; assumption|].
        right; eapply get_In_values; eauto. }
  destruct (Hgen _ _ _ E) as (_ & Hl & Hviz); split.
  - exists nbrs; split; [reflexivity | exact Hl].
  - intros c Hc; destruct (Hviz c Hc) as [[]|Hc']; exact Hc'.
Qed.

(** A visit keeps the keys of the partition and gives the node a
    community that the partition already has. *)
Lemma visitar_alcancavel (H G : Graph) (P0 P P' : Dict.t Z) (b b' : bool)
  (no : Z) :
  alcancavel P0 P ->
  visitar set_iter H G (P, b) no = Ok (P', b') ->
  alcancavel P0 P'.
Proof.
  intros HA E; unfold visitar in E.
  unfold Dict.item at 1 in E.
  destruct (Dict.get P no) as [atual|] eqn:En; cbn [bind] in E;
    [|discriminate].
  destruct (comunidades_dos_vizinhos H P no) as [viz| |] eqn:Ev;
    cbn [bind] in E; try discriminate.
  destruct (melhor_vizinha set_iter G P no atual (set_iter viz))
    as [[c q]| |] eqn:Em; cbn [bind] in E; try discriminate.
  destruct (Qgt_bool q 0); injection E as <- <-; [|assumption].
  apply alcancavel_set; [assumption | eapply get_In_keys; eauto|].
  apply (proj2 HA).
  destruct (melhor_vizinha_max G P no atual _ _ _ _ _ Em)
    as (_ & [->|Hc] & _).
  - eapply get_In_values; eauto.
  - apply (proj1 (set_iter_In _ _)) in Hc.
    apply (proj2 (comunidades_dos_vizinhos_inv H P no viz Ev)); assumption.
Qed.

(** Local moving keeps the keys of the partition and gives out no
    community that the partition does not have. *)
Lemma movimentacao_local_alcancavel (fuel : nat) (H G : Graph)
  (P P' : Dict.t Z) (s s' : rng) :
  encontrar_movimentacao_local set_iter fuel H G P s = Ok (P', s') ->
  alcancavel P P'.
Proof.
  intros E.
  assert (Hgen : forall P1, alcancavel P P1 ->
             forall s1,
               encontrar_movimentacao_local set_iter fuel H G P1 s1
               = Ok (P', s') ->
               alcancavel P P').
  { clear E; induction fuel as [|fuel IH]; intros P1 HA s1 E;
      cbn [encontrar_movimentacao_local] in E; [discriminate|].
    destruct (shuffle (nodes H) s1) as [l s2].
    destruct (foldM (visitar set_iter H G) l (P1, false))
      as [[P2 b]| |] eqn:Ef; cbn [bind] in E; try discriminate.
    assert (HA2 : alcancavel P P2).
    { apply (foldM_inv Z (Dict.t Z * bool)
               (fun st => alcancavel P (fst st))
               (visitar set_iter H G) l) with (b := (P1, false))
                                              (b' := (P2, b));
        [|exact HA|exact Ef].
      intros [Pa ba] x [Pb bb] _ Ha Ex; simpl in *.
      eapply visitar_alcancavel; eauto. }
    destruct b; [eapply IH; eauto|].
    injection E as <- <-; exact HA2. }
  eapply Hgen; [apply alcancavel_refl | exact E].
Qed.

(** X5: local moving changes no key of the partition and invents no
    community: whenever it returns, the partition it returns has the
    keys of the one it started from, in the same order, and every
    community identifier in it is one of the start.  This holds for any
    two graphs and any dictionary. *)
Theorem movimentacao_local_conserva (fuel : nat) (H G : Graph)
  (P P' : Dict.t Z) (s s' : rng) :
  encontrar_movimentacao_local set_iter fuel H G P s = Ok (P', s') ->
  Dict.keys P' = Dict.keys P
  /\ forall c, In c (Dict.values P') -> In c (Dict.values P).
Proof.
  intros E; exact (movimentacao_local_alcancavel fuel H G P P' s s' E).
Qed.

(** X6: local moving stops at a partition that no move it considers
    improves: in the partition it returns, for every node of the graph
    of candidates and every neighbour of that node there, the gain that
    [calc_delta_q] computes for moving the node to the community of the
    neighbour is not positive. *)
Theorem movimentacao_local_otimo (fuel : nat) (H G : Graph)
  (P P' : Dict.t Z) (s s' : rng) (no v : Z) (nbrs : Dict.t attrs) :
  encontrar_movimentacao_local set_iter fuel H G P s = Ok (P', s') ->
  Dict.get H no = Some nbrs -> In v (Dict.keys nbrs) ->
  exists c d,
    Dict.get P' v = Some c
    /\ calc_delta_q set_iter G P' no c = Ok d
    /\ d <= 0.
Proof.
  intros E Hno Hv.
  pose proof (movimentacao_local_parada set_iter fuel H G P P' s s' E no
                (get_In_keys _ H no nbrs Hno)) as Ev.
  unfold visitar in Ev. unfold Dict.item at 1 in Ev.
  destruct (Dict.get P' no) as [atual|] eqn:En; cbn [bind] in Ev;
    [|discriminate].
  destruct (comunidades_dos_vizinhos H P' no) as [viz| |] eqn:Eviz;
    cbn [bind] in Ev; try discriminate.
  destruct (melhor_vizinha set_iter G P' no atual (set_iter viz))
    as [[c q]| |] eqn:Em; cbn [bind] in Ev; try discriminate.
  destruct (Qgt_bool q 0) eqn:Egt; [discriminate|].
  apply Qgt_bool_le in Egt.
  destruct (comunidades_dos_vizinhos_inv H P' no viz Eviz)
    as [[nbrs' [Hno' Hviz]] _].
  rewrite Hno in Hno'; injection Hno' as <-.
  destruct (Hviz v Hv) as [cv [Ecv Hin]].
  exists cv.
  destruct (Z.eq_dec cv atual) as [->|Hne].
  - exists 0; split; [assumption|]; split; [|apply Qle_refl].
    unfold calc_delta_q; cbv zeta.
    destruct (Qeq_bool (size G) 0); [reflexivity|].
    unfold Dict.item; rewrite En; cbn [bind]; rewrite Z.eqb_refl.
    reflexivity.
  - destruct (melhor_vizinha_max G P' no atual _ _ _ _ _ Em)
      as (_ & _ & Hmax).
    destruct (Hmax cv (proj2 (set_iter_In _ _) Hin) Hne) as [d [Ed Hd]].
    exists d; split; [assumption|]; split; [assumption|].
    eapply Qle_trans; eauto.
Qed.

End MovimentacaoLocalGeral.

Lemma movimentacao_local_conserva_witness :
  Dict.keys [(0, 0); (1, 0); (2, 0)]%Z = Dict.keys [(0, 0); (1, 1); (2, 2)]%Z
  /\ forall c, In c (Dict.values [(0, 0); (1, 0); (2, 0)]%Z) ->
               In c (Dict.values [(0, 0); (1, 1); (2, 2)]%Z).
Proof.
  apply (movimentacao_local_conserva ordem_crescente ordem_crescente_In 5
           grafo_caminho grafo_caminho
           [(0, 0); (1, 1); (2, 2)]%Z [(0, 0); (1, 0); (2, 0)]%Z
           [] []).
  vm_compute; reflexivity.
Defined.

Lemma movimentacao_local_otimo_witness :
  exists c d,
    Dict.get [(0, 0); (1, 0); (2, 0)]%Z 2 = Some c
    /\ calc_delta_q ordem_crescente grafo_caminho
         [(0, 0); (1, 0); (2, 0)]%Z 1 c = Ok d
    /\ d <= 0.
Proof.
  apply (movimentacao_local_otimo ordem_crescente ordem_crescente_In
           5 grafo_caminho grafo_caminho
           [(0, 0); (1, 1); (2, 2)]%Z [(0, 0); (1, 0); (2, 0)]%Z
           [] [] 1 2 [(0%Z, Some 1); (2%Z, Some 1)]).
  - vm_compute; reflexivity.
  - reflexivity.
  - right; left; reflexivity.
Defined.

(** ** Refinement: a community is kept whole or renamed whole *)

Lemma In_keys_filter (V : Type) (d : Dict.t V) (S : list Z) (a : Z) :
  In a (map fst (filter (fun e => memZ (fst e) S) d))
  <-> In a (Dict.keys d) /\ In a S.
Proof.
  unfold Dict.keys; rewrite !in_map_iff; split.
  - intros [e [<- He]]; apply filter_In in He; destruct He as [He Hm].
    split; [exists e; split; [reflexivity | assumption]|].
    apply memZ_In; assumption.
  - intros [[e [<- He]] HS]; exists e; split; [reflexivity|].
    apply filter_In; split; [assumption | apply memZ_In; assumption].
Qed.

(** The loop that renames the nodes of a community: it keeps the keys,
    every node it meets receives the identifier of the community, or a
    new one when the community is divided, and no other node changes. *)
Lemma renomear_laco (dividida : bool) (c lo : Z) (l : list (Z * Z))
  (F mapa : Dict.t Z) (hi : Z) (F' mapa' : Dict.t Z) (hi' : Z) :
  (forall k v, Dict.get mapa k = Some v -> (lo <= v < hi)%Z) ->
  (lo <= hi)%Z ->
  (forall a, In a (map fst l) -> In a (Dict.keys F)) ->
  foldM (renomear dividida c) l (F, mapa, hi) = Ok (F', mapa', hi') ->
  Dict.keys F' = Dict.keys F /\ (hi <= hi')%Z
  /\ (forall a, In a (map fst l) ->
        exists fa, Dict.get F' a = Some fa
                   /\ if dividida then (lo <= fa)%Z else fa = c)
  /\ (forall a, ~ In a (map fst l) -> Dict.get F' a = Dict.get F a).
Proof.
  revert F mapa hi; induction l as [|[no cid] l IH];
    intros F mapa hi Hmapa Hlo Hkeys E; cbn [foldM] in E.
  - injection E as <- <- <-; repeat split; try lia; intros a [].
  - inv_bind E. destruct a as [[F1 mapa1] hi1].
    assert (Hno : In no (Dict.keys F)) by (apply Hkeys; left; reflexivity).
    assert (Hstep : exists id,
               F1 = Dict.set F no id
               /\ (if dividida then (lo <= id)%Z else id = c)
               /\ (hi <= hi1)%Z
               /\ forall k v, Dict.get mapa1 k = Some v ->
                              (lo <= v < hi1)%Z).
    { unfold renomear in Ha. destruct dividida.
      - destruct (negb (Dict.mem mapa cid)) eqn:Em.
        + inv_bind Ha. injection Ha as <- <- <-.
          apply item_Ok in Ha0; rewrite get_set, Z.eqb_refl in Ha0.
          injection Ha0 as <-.
          exists hi; repeat split; try lia;
            rewrite get_set in H; destruct (Z.eqb k cid);
            [injection H as <-; lia | specialize (Hmapa _ _ H); lia
            |injection H as <-; lia | specialize (Hmapa _ _ H); lia].
        + inv_bind Ha. injection Ha as <- <- <-.
          apply item_Ok in Ha0; pose proof (Hmapa _ _ Ha0).
          exists a; repeat split; try lia; specialize (Hmapa _ _ H0); lia.
      - injection Ha as <- <- <-.
        exists c; repeat split; try lia; specialize (Hmapa _ _ H); lia. }
    destruct Hstep as (id & -> & Hid & Hhi & Hmapa1).
    assert (Hlo1 : (lo <= hi1)%Z) by lia.
    assert (Hkeys1 : forall a, In a (map fst l) ->
                               In a (Dict.keys (Dict.set F no id))).
    { intros a Ha'; rewrite keys_set_mem by assumption.
      apply Hkeys; right; assumption. }
    destruct (IH _ _ _ Hmapa1 Hlo1 Hkeys1 E) as (Hk & Hhi' & Hin & Hout).
    split; [rewrite Hk; apply keys_set_mem; assumption|].
    split; [lia|]; split.
    + intros a Ha'.
      destruct (in_dec Z.eq_dec a (map fst l)) as [Hl|Hl]; [auto|].
      destruct Ha' as [<-|Ha']; [|contradiction].
      exists id; split; [|assumption].
      rewrite (Hout _ Hl), get_set, Z.eqb_refl; reflexivity.
    + intros a Ha'. rewrite Hout by (intros Hl; apply Ha'; right; assumption).
      rewrite get_set.
      destruct (Z.eqb_spec a no) as [->|_]; [|reflexivity].
      exfalso; apply Ha'; left; reflexivity.
Qed.

Section RefinamentoInteiro.

Variable set_iter : list Z -> list Z.
Hypothesis set_iter_In : forall l x, In x (set_iter l) <-> In x l.

Variable P : Dict.t Z.
Hypothesis P_wf : NoDup (Dict.keys P).

(** What holds of the refined partition between two communities: a
    community has its identifier on all of its nodes, or it has more
    than one node and all of them have new identifiers. *)
Lemma refinar_comunidade_inteira (fuel : nat) (G : Graph) (c : Z)
  (F : Dict.t Z) (hi : Z) (s : rng) (F' : Dict.t Z) (hi' : Z) (s' : rng) :
  Dict.keys F = Dict.keys P -> (primeiro_id_novo P <= hi)%Z ->
  (forall x,
     (forall a, Dict.get P a = Some x -> Dict.get F a = Some x)
     \/ ((1 < length (nos_em P x))%nat
         /\ forall a, Dict.get P a = Some x ->
              exists fa, Dict.get F a = Some fa
                         /\ (primeiro_id_novo P <= fa)%Z)) ->
  refinar_comunidade set_iter fuel G P (F, hi, s) c = Ok (F', hi', s') ->
  Dict.keys F' = Dict.keys P /\ (primeiro_id_novo P <= hi')%Z
  /\ forall x,
       (forall a, Dict.get P a = Some x -> Dict.get F' a = Some x)
       \/ ((1 < length (nos_em P x))%nat
           /\ forall a, Dict.get P a = Some x ->
                exists fa, Dict.get F' a = Some fa
                           /\ (primeiro_id_novo P <= fa)%Z).
Proof.
  intros Hk Hhi HK E; unfold refinar_comunidade in E.
  change (map fst (filter (fun e => Z.eqb (snd e) c) P)) with (nos_em P c)
    in E.
  destruct (length (nos_em P c) <=? 1)%nat eqn:El.
  - injection E as <- <- <-; repeat split; assumption.
  - apply Nat.leb_gt in El.
    inv_bind E. destruct a as [R s1].
    inv_bind E. destruct a as [[F1 mapa1] hi1].
    injection E as <- <- <-.
    assert (HR : Dict.keys R = Dict.keys P).
    { destruct (movimentacao_local_alcancavel set_iter set_iter_In _ _ _ _ _
                  _ _ Ha) as [HkR _].
      rewrite HkR; apply keys_fold_set.
      intros n Hn; eapply In_nos_em_keys; eauto. }
    assert (H1 : forall k v, Dict.get (@nil (Z * Z)) k = Some v ->
                             (hi <= v < hi)%Z) by discriminate.
    assert (H3 : forall a,
               In a (map fst (filter (fun e => memZ (fst e) (nos_em P c))
                                     R)) ->
               In a (Dict.keys F)).
    { intros a Ha'; apply In_keys_filter in Ha'; destruct Ha' as [Ha' _].
      rewrite Hk, <- HR; assumption. }
    destruct (renomear_laco _ c hi _ F [] hi F1 mapa1 hi1 H1 (Z.le_refl hi)
                H3 Ha0) as (Hk1 & Hhi1 & Hin & Hout).
    split; [rewrite Hk1; assumption|]; split; [lia|].
    assert (Hmem : forall a x, Dict.get P a = Some x ->
               In a (map fst (filter (fun e => memZ (fst e) (nos_em P c)) R))
               <-> x = c).
    { intros a x Hax; rewrite In_keys_filter, HR; split.
      - intros [_ Hc]; apply In_nos_get in Hc; [congruence | assumption].
      - intros ->; split; [eapply get_In_keys; eauto|].
        apply In_nos_em, get_In; assumption. }
    intros x; destruct (Z.eq_dec x c) as [->|Hne].
    + destruct (1 <? length
                       (set_iter
                          (Dict.values
                             (filter (fun e => memZ (fst e) (nos_em P c))
                                     R))))%nat.
      * right; split; [assumption|].
        intros a Ha'.
        destruct (Hin a (proj2 (Hmem a c Ha') eq_refl)) as [fa [Efa Hfa]].
        exists fa; split; [assumption | lia].
      * left; intros a Ha'.
        destruct (Hin a (proj2 (Hmem a c Ha') eq_refl)) as [fa [Efa ->]].
        assumption.
    + assert (Hsame : forall a, Dict.get P a = Some x ->
                 Dict.get F1 a = Dict.get F a).
      { intros a Ha'; apply Hout; intros Hl.
        apply (Hmem a x Ha') in Hl; contradiction. }
      destruct (HK x) as [HKx|[Hlen HKx]].
      * left; intros a Ha'; rewrite (Hsame a Ha'); auto.
      * right; split; [assumption|].
        intros a Ha'; rewrite (Hsame a Ha'); auto.
Qed.

Lemma refinar_particao_inteira (fuel : nat) (G : Graph) (s : rng)
  (F : Dict.t Z) (s' : rng) :
  refinar_particao set_iter fuel G P s = Ok (F, s') ->
  forall x,
    (forall a, Dict.get P a = Some x -> Dict.get F a = Some x)
    \/ ((1 < length (nos_em P x))%nat
        /\ forall a, Dict.get P a = Some x ->
             exists fa, Dict.get F a = Some fa
                        /\ (primeiro_id_novo P <= fa)%Z).
Proof.
  unfold refinar_particao; intros E.
  inv_bind E. destruct a as [[F1 hi1] s1]. injection E as <- <-.
  pose (J := fun st : Dict.t Z * Z * rng =>
               Dict.keys (fst (fst st)) = Dict.keys P
               /\ (primeiro_id_novo P <= snd (fst st))%Z
               /\ forall x,
                    (forall a, Dict.get P a = Some x ->
                               Dict.get (fst (fst st)) a = Some x)
                    \/ ((1 < length (nos_em P x))%nat
                        /\ forall a, Dict.get P a = Some x ->
                             exists fa,
                               Dict.get (fst (fst st)) a = Some fa
                               /\ (primeiro_id_novo P <= fa)%Z)).
  assert (HJ : J (F1, hi1, s1)).
  { eapply (foldM_inv _ _ J); [| |exact Ha].
    - intros [[Fa ha] sa] c [[Fb hb] sb] _ (H1 & H2 & H3) Hstep.
      unfold J; cbn [fst snd] in *.
      eapply refinar_comunidade_inteira; eauto.
    - unfold J; cbn [fst snd]; split; [reflexivity|]; split; [lia|].
      intros x; left; auto. }
  destruct HJ as (_ & _ & HJ); exact HJ.
Qed.

(** X8: refinement keeps every community whole under its identifier, or
    renames it whole: when [refinar_particao] returns, the nodes of a
    community of the input all have the identifier of that community
    still, or the community has more than one node and each of its
    nodes has an identifier greater than every identifier of the
    input. *)
Theorem refinar_particao_inteira_ou_nova (fuel : nat) (G : Graph) (s : rng)
  (F : Dict.t Z) (s' : rng) (c : Z) :
  refinar_particao set_iter fuel G P s = Ok (F, s') ->
  (forall a, Dict.get P a = Some c -> Dict.get F a = Some c)
  \/ ((1 < length (nos_em P c))%nat
      /\ forall a, Dict.get P a = Some c ->
           exists fa, Dict.get F a = Some fa
                      /\ forall b cb, Dict.get P b = Some cb -> (cb < fa)%Z).
Proof.
  intros E.
  destruct (refinar_particao_inteira fuel G s F s' E c) as [H|[Hlen H]];
    [left; exact H | right; split; [exact Hlen|]].
  intros a Ha; destruct (H a Ha) as [fa [Efa Hfa]].
  exists fa; split; [exact Efa|].
  intros b cb Hb; apply primeiro_id_novo_gt in Hb; lia.
Qed.

End RefinamentoInteiro.

Lemma refinar_particao_inteira_ou_nova_witness :
  (forall a,
     Dict.get [(0, 1); (1, 1); (2, 1); (3, 1); (4, 2); (5, 2)]%Z a = Some 1%Z ->
     Dict.get [(0, 3); (1, 3); (2, 3); (3, 4); (4, 2); (5, 2)]%Z a = Some 1%Z)
  \/ ((1 < length (nos_em [(0, 1); (1, 1); (2, 1); (3, 1); (4, 2); (5, 2)]%Z
                          1))%nat
      /\ forall a,
           Dict.get [(0, 1); (1, 1); (2, 1); (3, 1); (4, 2); (5, 2)]%Z a
           = Some 1%Z ->
           exists fa,
             Dict.get [(0, 3); (1, 3); (2, 3); (3, 4); (4, 2); (5, 2)]%Z a
             = Some fa
             /\ forall b cb,
                  Dict.get [(0, 1); (1, 1); (2, 1); (3, 1); (4, 2); (5, 2)]%Z
                           b = Some cb ->
                  (cb < fa)%Z).
Proof.
  apply (refinar_particao_inteira_ou_nova ordem_crescente ordem_crescente_In
           [(0, 1); (1, 1); (2, 1); (3, 1); (4, 2); (5, 2)]%Z
           ltac:(apply nodupb_NoDup; reflexivity)
           10 grafo_triangulos [1; 2; 3]%nat
           [(0, 3); (1, 3); (2, 3); (3, 4); (4, 2); (5, 2)]%Z [] 1%Z).
  vm_compute; reflexivity.
Defined.

(** ** Sums over two lists and over the edges *)

Lemma somaf_troca (A B : Type) (f : A -> B -> Q) (l : list A) (m : list B) :
  somaf (fun a => somaf (f a) m) l
  == somaf (fun b => somaf (fun a => f a b) l) m.
Proof.
  induction l as [|a l IH]; cbn [somaf].
  - rewrite somaf_zero; [reflexivity | intros; reflexivity].
  - rewrite IH, <- somaf_plus; reflexivity.
Qed.

Lemma somaf_escala (A : Type) (c : Q) (f : A -> Q) (l : list A) :
  somaf (fun x => c * f x) l == c * somaf f l.
Proof.
  induction l as [|a l IH]; cbn [somaf]; [ring | rewrite IH; ring].
Qed.

Section ArestasComCoeficiente.

Variable G : Graph.
Hypothesis G_wf : wf_graph G = true.
Variable k : Z -> Z -> Q.

Lemma edges_from_coef (G' : Graph) (seen : list Z) :
  incl G' G ->
  NoDup (Dict.keys G') ->
  (forall v, In v (nodes G) ->
             memZ v seen = negb (memZ v (Dict.keys G'))) ->
  somaf (fun e => k (fst (fst e)) (snd (fst e)) * get_weight (snd e))
        (edges_from G' seen)
  == soma_triangular (fun u v => k u v * peso_entre G u v) (Dict.keys G').
Proof.
  revert seen; induction G' as [|[u nbrs] G' IH]; intros seen Hin Hnd Hseen.
  - reflexivity.
  - cbn [edges_from Dict.keys map fst soma_triangular].
    assert (Eu : Dict.get G u = Some nbrs).
    { apply In_get; [apply wf_graph_nodes; assumption|].
      apply Hin; left; reflexivity. }
    inversion Hnd as [|? ? Hu Hnd']; subst.
    rewrite somaf_app, somaf_map, somaf_filter; cbn [fst snd].
    rewrite IH.
    + apply Qplus_comp; [|reflexivity].
      rewrite (somaf_ext _ _
                 (fun a : Z * attrs =>
                    if memZ (fst a) (u :: Dict.keys G')
                    then (fun v d => k u v * get_weight d) (fst a) (snd a)
                    else 0) nbrs).
      * rewrite (somaf_dict attrs
                   (fun v d => k u v * get_weight d)
                   nbrs (u :: Dict.keys G')
                   (wf_graph_nbrs _ _ _ G_wf Eu) Hnd).
        apply somaf_ext; intros v _.
        unfold peso_entre, adj; rewrite Eu.
        destruct (Dict.get nbrs v); [reflexivity | ring].
      * intros [v d] Hvd; cbn [fst snd].
        assert (Hv : In v (nodes G)).
        { apply (adj_nodes G u v d G_wf).
          unfold adj; rewrite Eu; apply In_get;
            [eapply wf_graph_nbrs; eauto | assumption]. }
        rewrite (Hseen v Hv), negb_involutive; reflexivity.
    + intros e He; apply Hin; right; assumption.
    + assumption.
    + intros v Hv; cbn [memZ existsb].
      change (existsb (Z.eqb v) seen) with (memZ v seen).
      rewrite (Hseen v Hv); cbn [memZ existsb Dict.keys map fst].
      change (existsb (Z.eqb v) (map fst G')) with (memZ v (Dict.keys G')).
      destruct (Z.eqb_spec v u) as [->|Hne]; cbn [negb orb]; [|reflexivity].
      apply memZ_false in Hu; rewrite Hu; reflexivity.
Qed.

(** A sum over the edges, each edge once, with a coefficient that does
    not depend on the direction of the edge. *)
Lemma edges_coef :
  (forall u v, k u v == k v u) ->
  somaf (fun e => k (fst (fst e)) (snd (fst e)) * get_weight (snd e))
        (edges G)
  == somaf (fun u => somaf (fun v => k u v * peso_entre G u v) (nodes G)
                    + k u u * peso_entre G u u)
           (nodes G) / 2.
Proof.
  intros Hk; unfold edges; rewrite edges_from_coef.
  - rewrite (soma_triangular_dobro (fun u v => k u v * peso_entre G u v)
               (nodes G)).
    + unfold nodes; field.
    + intros u v; rewrite (Hk u v), (peso_entre_sym G u v G_wf); reflexivity.
  - apply incl_refl.
  - apply wf_graph_nodes; assumption.
  - intros v Hv; apply memZ_In in Hv; unfold nodes in Hv; rewrite Hv.
    reflexivity.
Qed.

End ArestasComCoeficiente.

(** Every edge adds its weight to the degrees of its two ends: a sum
    over the edges of what the ends carry is the sum over the nodes of
    what each carries, times its degree. *)
Lemma soma_pelas_pontas (G : Graph) (a : Z -> Q) :
  wf_graph G = true ->
  somaf (fun e => (a (fst (fst e)) + a (snd (fst e))) * get_weight (snd e))
        (edges G)
  == somaf (fun u => a u * grau G u) (nodes G).
Proof.
  intros Hwf.
  rewrite (edges_coef G Hwf (fun u v => a u + a v))
    by (intros; ring).
  set (N := nodes G).
  set (S1 := somaf (fun u => a u * somaf (peso_entre G u) N) N).
  set (S3 := somaf (fun u => a u * peso_entre G u u) N).
  assert (E1 : somaf (fun u => somaf (fun v => a v * peso_entre G v u) N) N
               == S1).
  { rewrite (somaf_troca Z Z (fun u v => a v * peso_entre G v u) N N).
    apply somaf_ext; intros v _; apply somaf_escala. }
  assert (E2 : somaf (fun u =>
                        somaf (fun v => (a u + a v) * peso_entre G u v) N
                        + (a u + a u) * peso_entre G u u) N
               == S1 + S1 + 2 * S3).
  { rewrite <- E1 at 2; unfold S1, S3.
    rewrite <- somaf_escala, <- !somaf_plus.
    apply somaf_ext; intros u _.
    rewrite (somaf_ext Z
               (fun v => (a u + a v) * peso_entre G u v)
               (fun v => a u * peso_entre G u v + a v * peso_entre G v u) N)
      by (intros v _; rewrite (peso_entre_sym G v u Hwf); ring).
    rewrite somaf_plus, somaf_escala; ring. }
  assert (E3 : somaf (fun u => a u * grau G u) N == S1 + S3).
  { unfold S1, S3; rewrite <- somaf_plus.
    apply somaf_ext; intros u _.
    rewrite (grau_peso_entre G u Hwf); fold N; ring. }
  rewrite E2, E3; field.
Qed.

(** ** What an edge adds to the aggregated graph *)



(** ** Aggregation for any partition *)

(** A loop that keeps an invariant while it returns, and that raises
    only exceptions of one kind, ends in such an exception when some
    element raises one whatever the accumulator. *)
Lemma foldM_raise_inv (A B : Type) (I : B -> Prop) (Bad : exn -> Prop)
  (f : B -> A -> result B) (l : list A) :
  (forall b x, In x l -> I b ->
     (exists b', f b x = Ok b' /\ I b')
     \/ (exists e, f b x = Raise e /\ Bad e)) ->
  (exists x, In x l /\ forall b, I b -> exists e, f b x = Raise e /\ Bad e) ->
  forall b, I b -> exists e, foldM f l b = Raise e /\ Bad e.
Proof.
  induction l as [|x l IH]; intros Hf [y [Hy Hbad]] b Hb; [destruct Hy|].
  cbn [foldM].
  destruct (Hf b x (or_introl eq_refl) Hb) as [[b' [E Hb']]|[e [E He]]].
  - rewrite E; cbn [bind]. apply IH; [| |assumption].
    + intros; apply Hf; [right|]; assumption.
    + destruct Hy as [->|Hy].
      * destruct (Hbad b Hb) as [e [E' _]]; congruence.
      * exists y; split; assumption.
  - rewrite E; cbn [bind]; exists e; split; [reflexivity | assumption].
Qed.

Lemma peso_entre_por_aresta (Ga : Graph) (cu cv : Z) (w0 w' : Q) (x y : Z) :
  wf_graph Ga = true -> In cu (nodes Ga) -> In cv (nodes Ga) ->
  peso_entre Ga cu cv == w0 ->
  peso_entre (por_aresta Ga cu cv (Some w')) x y
  == peso_entre Ga x y + peso_par cu cv (w' - w0) x y.
Proof.
  intros Hwf Hu Hv Hw0; unfold peso_entre at 1, peso_par.
  rewrite adj_por_aresta by assumption.
  destruct (Z.eqb_spec x cv), (Z.eqb_spec y cu),
           (Z.eqb_spec x cu), (Z.eqb_spec y cv);
    subst; cbn [andb orb get_weight];
    try rewrite (peso_entre_sym Ga cv cu Hwf);
    try rewrite Hw0; unfold peso_entre; ring.
Qed.

Section Agregado.

Variable set_iter : list Z -> list Z.
Hypothesis set_iter_NoDup : forall l, NoDup (set_iter l).
Hypothesis set_iter_In : forall l x, In x (set_iter l) <-> In x l.

Variable P : Dict.t Z.

Lemma inv_agregado_inicial :
  add_nodes_from [] (set_iter (Dict.values P))
  = grafo_vazio (set_iter (Dict.values P))
  /\ inv_agregado set_iter P (grafo_vazio (set_iter (Dict.values P))).
Proof.
  split.
  - apply (add_nodes_from_vazios [] (set_iter (Dict.values P))
             (set_iter_NoDup _)).
  - split; [apply grafo_vazio_wf, set_iter_NoDup|]; split.
    + apply nodes_grafo_vazio.
    + intros x y d; rewrite grafo_vazio_adj; discriminate.
Qed.

Lemma inv_agregado_por_aresta (Ga : Graph) (cu cv : Z) (w : Q) :
  inv_agregado set_iter P Ga -> In cu (nodes Ga) -> In cv (nodes Ga) ->
  inv_agregado set_iter P (por_aresta Ga cu cv (Some w)).
Proof.
  intros (H1 & H2 & H3) Hu Hv; split; [|split].
  - apply wf_por_aresta; assumption.
  - rewrite nodes_por_aresta; assumption.
  - intros x y d; rewrite adj_por_aresta by assumption.
    destruct ((Z.eqb x cv && Z.eqb y cu) || (Z.eqb x cu && Z.eqb y cv)).
    + intros E; injection E as <-; exists w; reflexivity.
    + apply H3.
Qed.

(** An edge whose two ends are keys of the partition adds its weight
    between their communities. *)
Lemma agrupar_aresta_passo (Ga : Graph) (u v : Z) (d : attrs) (cu cv : Z) :
  inv_agregado set_iter P Ga ->
  Dict.get P u = Some cu -> Dict.get P v = Some cv ->
  exists Ga',
    agrupar_aresta P Ga (u, v, d) = Ok Ga'
    /\ inv_agregado set_iter P Ga'
    /\ forall x y,
         peso_entre Ga' x y
         == peso_entre Ga x y + peso_par cu cv (get_weight d) x y.
Proof.
  intros HI Ecu Ecv.
  pose proof HI as (H1 & H2 & H3).
  assert (Hcu : In cu (nodes Ga)).
  { rewrite H2; apply set_iter_In; eapply get_In_values; eauto. }
  assert (Hcv : In cv (nodes Ga)).
  { rewrite H2; apply set_iter_In; eapply get_In_values; eauto. }
  unfold agrupar_aresta, Dict.item; rewrite Ecu, Ecv; cbn [bind].
  destruct (has_edge Ga cu cv) eqn:Eh.
  - unfold has_edge in Eh.
    destruct (Dict.get Ga cu) as [nbrs|] eqn:Enb; [|discriminate].
    unfold Dict.mem in Eh.
    destruct (Dict.get nbrs cv) as [d0|] eqn:Ed0; [|discriminate].
    assert (Ea : adj Ga cu cv = Some d0)
      by (unfold adj; rewrite Enb; assumption).
    destruct (H3 _ _ _ Ea) as [w0 ->].
    unfold add_weight, Dict.item; rewrite Enb; cbn [bind].
    rewrite Ed0; cbn [bind].
    exists (por_aresta Ga cu cv (Some (w0 + get_weight d))).
    split; [reflexivity|]; split.
    + apply inv_agregado_por_aresta; assumption.
    + intros x y.
      rewrite (peso_entre_por_aresta Ga cu cv w0 (w0 + get_weight d) x y
                 H1 Hcu Hcv).
      * apply Qplus_comp; [reflexivity|].
        unfold peso_par;
          destruct ((Z.eqb x cv && Z.eqb y cu) || (Z.eqb x cu && Z.eqb y cv));
          ring.
      * unfold peso_entre; rewrite Ea; reflexivity.
  - unfold add_edge.
    rewrite (add_node_mem Ga cu Hcu), (add_node_mem Ga cv Hcv).
    exists (por_aresta Ga cu cv (Some (get_weight d))).
    split; [reflexivity|]; split.
    + apply inv_agregado_por_aresta; assumption.
    + intros x y.
      rewrite (peso_entre_por_aresta Ga cu cv 0 (get_weight d) x y
                 H1 Hcu Hcv).
      * apply Qplus_comp; [reflexivity|].
        unfold peso_par;
          destruct ((Z.eqb x cv && Z.eqb y cu) || (Z.eqb x cu && Z.eqb y cv));
          ring.
      * unfold has_edge in Eh; unfold peso_entre, adj.
        destruct (Dict.get Ga cu) as [nbrs|]; [|reflexivity].
        unfold Dict.mem in Eh.
        destruct (Dict.get nbrs cv); [discriminate | reflexivity].
Qed.

(** An edge with an end that is no key of the partition raises
    [KeyError] of that end. *)
Lemma agrupar_aresta_falha (Ga : Graph) (u v : Z) (d : attrs) :
  Dict.get P u = None \/ Dict.get P v = None ->
  exists k,
    agrupar_aresta P Ga (u, v, d) = Raise (KeyError k)
    /\ (k = u \/ k = v) /\ ~ In k (Dict.keys P).
Proof.
  intros H; unfold agrupar_aresta, Dict.item.
  destruct (Dict.get P u) as [cu|] eqn:Eu; cbn [bind].
  - destruct H as [H|H]; [discriminate|]; rewrite H; cbn [bind].
    exists v; split; [reflexivity|]; split; [right; reflexivity|].
    apply get_None_keys; assumption.
  - exists u; split; [reflexivity|]; split; [left; reflexivity|].
    apply get_None_keys; assumption.
Qed.


(** X11: [agrupar_grafo] raises [KeyError] when an end of an edge of the
    graph is not a key of the partition, and the key of the error is
    such an end: a node of the graph that the partition does not
    have. *)
Theorem agrupar_grafo_chave_ausente (G : Graph) (u v : Z) (d : attrs) :
  wf_graph G = true ->
  In (u, v, d) (edges G) ->
  ~ In u (Dict.keys P) \/ ~ In v (Dict.keys P) ->
  exists k,
    agrupar_grafo set_iter G P = Raise (KeyError k)
    /\ In k (nodes G) /\ ~ In k (Dict.keys P).
Proof.
  intros Hwf He Hout; unfold agrupar_grafo.
  destruct inv_agregado_inicial as [-> HI0].
  destruct (foldM_raise_inv (Z * Z * attrs) Graph
              (inv_agregado set_iter P)
              (fun e => exists k, e = KeyError k
                                  /\ In k (nodes G)
                                  /\ ~ In k (Dict.keys P))
              (agrupar_aresta P) (edges G))
    with (b := grafo_vazio (set_iter (Dict.values P)))
    as [e [E [k [-> Hk]]]].
  - intros Ga [[a b] da] Hin HI.
    destruct (In_edges G a b da Hwf Hin) as (Ha & Hb & _).
    destruct (Dict.get P a) as [ca|] eqn:Ea;
      [destruct (Dict.get P b) as [cb|] eqn:Eb|].
    + left. destruct (agrupar_aresta_passo Ga a b da ca cb HI Ea Eb)
        as (Ga' & E' & HI' & _).
      exists Ga'; split; assumption.
    + right. destruct (agrupar_aresta_falha Ga a b da (or_intror Eb))
        as (k & Ek & Hk & Hnk).
      eexists; split; [exact Ek|]; exists k; split; [reflexivity|].
      split; [destruct Hk; subst; assumption | assumption].
    + right. destruct (agrupar_aresta_falha Ga a b da (or_introl Ea))
        as (k & Ek & Hk & Hnk).
      eexists; split; [exact Ek|]; exists k; split; [reflexivity|].
      split; [destruct Hk; subst; assumption | assumption].
  - exists (u, v, d); split; [assumption|].
    intros Ga _.
    destruct (In_edges G u v d Hwf He) as (Hu & Hv & _).
    destruct (agrupar_aresta_falha Ga u v d) as (k & Ek & Hk & Hnk).
    { destruct Hout as [H|H]; [left | right]; apply get_None_keys;
        assumption. }
    eexists; split; [exact Ek|]; exists k; split; [reflexivity|].
    split; [destruct Hk; subst; assumption | assumption].
  - exact HI0.
  - exists k; split; [exact E | exact Hk].
Qed.

End Agregado.

Lemma agrupar_grafo_chave_ausente_witness :
  exists k,
    agrupar_grafo ordem_crescente grafo_caminho [(0, 0); (1, 0)]%Z
    = Raise (KeyError k)
    /\ In k (nodes grafo_caminho) /\ ~ In k (Dict.keys [(0, 0); (1, 0)]%Z).
Proof.
  apply (agrupar_grafo_chave_ausente ordem_crescente ordem_crescente_NoDup
           ordem_crescente_In [(0, 0); (1, 0)]%Z grafo_caminho 1 2
           (Some 1)).
  - reflexivity.
  - right; left; reflexivity.
  - right; intros H; apply memZ_In in H; discriminate.
Defined.

(** ** The nodes of the aggregated graph *)

(** X10: for a partition that has every node of the graph as a key,
    [agrupar_grafo] returns a graph whose nodes are the community
    identifiers of the partition, each once, so that it has as many
    nodes as the partition has communities; an undirected graph again,
    of positive weights when the graph has positive weights. *)
Theorem agrupar_grafo_supernos (set_iter : list Z -> list Z) (G : Graph)
  (P : Dict.t Z) :
  (forall l, NoDup (set_iter l)) ->
  (forall l x, In x (set_iter l) <-> In x l) ->
  wf_graph G = true -> cobre G P = true ->
  exists G',
    agrupar_grafo set_iter G P = Ok G'
    /\ wf_graph G' = true
    /\ (forall c, In c (nodes G') <-> In c (Dict.values P))
    /\ length (nodes G') = length (distintos (Dict.values P))
    /\ (pesos_positivos G = true -> pesos_positivos G' = true).
Proof.
  intros Hnd Hin Hwf HP.
  assert (Htot : forall n, In n (nodes G) -> In n (Dict.keys P)).
  { unfold cobre in HP; rewrite forallb_forall in HP.
    intros n Hn; apply mem_In_keys, HP, Hn. }
  destruct (agrupar_grafo_inv set_iter Hnd Hin G Hwf P Htot)
    as (G' & E & Hwf' & Hn & Hpos & _).
  exists G'; split; [exact E|]; split; [exact Hwf'|]; split; [|split].
  - intros c; rewrite Hn; apply Hin.
  - rewrite Hn; apply Permutation_length, NoDup_Permutation.
    + apply Hnd.
    + apply NoDup_distintos.
    + intros c; rewrite Hin, In_distintos; reflexivity.
  - exact Hpos.
Qed.

Lemma agrupar_grafo_supernos_witness :
  exists G',
    agrupar_grafo ordem_crescente grafo_triangulos
      [(0, 0); (1, 0); (2, 0); (3, 4); (4, 4); (5, 0)]%Z = Ok G'
    /\ wf_graph G' = true
    /\ (forall c,
          In c (nodes G')
          <-> In c (Dict.values
                      [(0, 0); (1, 0); (2, 0); (3, 4); (4, 4); (5, 0)]%Z))
    /\ length (nodes G')
       = length (distintos
                   (Dict.values
                      [(0, 0); (1, 0); (2, 0); (3, 4); (4, 4); (5, 0)]%Z))
    /\ (pesos_positivos grafo_triangulos = true ->
        pesos_positivos G' = true).
Proof.
  apply (agrupar_grafo_supernos ordem_crescente grafo_triangulos
           [(0, 0); (1, 0); (2, 0); (3, 4); (4, 4); (5, 0)]%Z
           ordem_crescente_NoDup ordem_crescente_In);
    reflexivity.
Defined.

(** ** The modularity on the aggregated graph *)

Section Composicao.

Variable set_iter : list Z -> list Z.
Hypothesis set_iter_NoDup : forall l, NoDup (set_iter l).
Hypothesis set_iter_In : forall l x, In x (set_iter l) <-> In x l.

Variable G : Graph.
Hypothesis G_wf : wf_graph G = true.
Variable P : Dict.t Z.
Hypothesis P_de_G : particao_de G P = true.
Variable G' : Graph.
Hypothesis G'_agr : agrupar_grafo set_iter G P = Ok G'.






(** A partition of the aggregated graph and what it is on the nodes of
    the graph. *)
Variable P' : Dict.t Z.
Hypothesis P'_de_G' : particao_de G' P' = true.
Variable m : Dict.t Z.
Hypothesis m_def : mapear_de_volta P P' = Ok m.





End Composicao.



(** ** The returned partition and the history *)

Section UltimaModularidade.

Variable set_iter : list Z -> list Z.
Variable G_orig : Graph.

Lemma avaliar_nivel_em_dia (st : estado) (P : Dict.t Z)
  (r : (Dict.t Z * list Q) + estado) :
  em_dia set_iter G_orig (melhor_particao_geral st)
         (modularidades_por_nivel st) ->
  avaliar_nivel set_iter G_orig st P = Ok r ->
  match r with
  | inl (p, h) => em_dia set_iter G_orig p h
  | inr st' =>
      em_dia set_iter G_orig (melhor_particao_geral st')
             (modularidades_por_nivel st')
  end.
Proof.
  intros HI; unfold avaliar_nivel; cbv zeta.
  destruct (mapear_de_volta (no_em_mapa_comunidade st) P) as [m| |];
    cbn [bind]; try discriminate.
  destruct (calcular_modularidade set_iter G_orig m) as [q| |] eqn:Eq;
    cbn [bind]; try discriminate.
  destruct (Qle_bool q (melhor_modularidade st)).
  - intros E; injection E as <-; exact HI.
  - destruct (agrupar_grafo set_iter (grafo_atual st) P) as [G'| |];
      cbn [bind]; try discriminate.
    destruct (length (nodes G') =? length (nodes (grafo_atual st)))%nat;
      intros E; injection E as <-;
      cbn [melhor_particao_geral modularidades_por_nivel];
      right; exists (modularidades_por_nivel st), q; split;
      [reflexivity | exact Eq | reflexivity | exact Eq].
Qed.

Lemma leiden_niveis_em_dia (niveis fuel : nat) (st : estado) (s : rng)
  (P : Dict.t Z) (h : list Q) (s' : rng) :
  em_dia set_iter G_orig (melhor_particao_geral st)
         (modularidades_por_nivel st) ->
  leiden_niveis set_iter niveis fuel G_orig st s = Ok (P, h, s') ->
  em_dia set_iter G_orig P h.
Proof.
  revert st s; induction niveis as [|niveis IH]; intros st s HI;
    [discriminate|].
  cbn [leiden_niveis]; cbv zeta.
  destruct (encontrar_movimentacao_local set_iter fuel (grafo_atual st)
              (grafo_atual st) (particao_singular (grafo_atual st)) s)
    as [[P1 s1]| |]; cbn [bind]; try discriminate.
  destruct (refinar_particao set_iter fuel (grafo_atual st) P1 s1)
    as [[P2 s2]| |]; cbn [bind]; try discriminate.
  destruct (avaliar_nivel set_iter G_orig st P2) as [r| |] eqn:Er;
    cbn [bind]; try discriminate.
  pose proof (avaliar_nivel_em_dia st P2 r HI Er) as Hr.
  destruct r as [[p h1]|st'].
  - intros E; injection E as <- <- <-; exact Hr.
  - apply IH; exact Hr.
Qed.

Lemma louvain_niveis_em_dia (niveis fuel : nat) (st : estado) (s : rng)
  (P : Dict.t Z) (h : list Q) (s' : rng) :
  em_dia set_iter G_orig (melhor_particao_geral st)
         (modularidades_por_nivel st) ->
  louvain_niveis set_iter niveis fuel G_orig st s = Ok (P, h, s') ->
  em_dia set_iter G_orig P h.
Proof.
  revert st s; induction niveis as [|niveis IH]; intros st s HI;
    [discriminate|].
  cbn [louvain_niveis]; cbv zeta.
  destruct (encontrar_movimentacao_local set_iter fuel (grafo_atual st)
              (grafo_atual st) (particao_singular (grafo_atual st)) s)
    as [[P1 s1]| |]; cbn [bind]; try discriminate.
  destruct (avaliar_nivel set_iter G_orig st P1) as [r| |] eqn:Er;
    cbn [bind]; try discriminate.
  pose proof (avaliar_nivel_em_dia st P1 r HI Er) as Hr.
  destruct r as [[p h1]|st'].
  - intros E; injection E as <- <- <-; exact Hr.
  - apply IH; exact Hr.
Qed.

End UltimaModularidade.

(** X13: whatever [leiden] or [louvain] returns, on any graph, the last
    entry of the history is what [calcular_modularidade] gives for the
    returned partition on the input graph; a history without entries
    comes with the partition of every node in its own community. *)
Theorem leiden_louvain_ultima_modularidade (set_iter : list Z -> list Z)
  (fuel : nat) (G : Graph) (s : rng) (P : Dict.t Z) (h : list Q) (s' : rng) :
  leiden set_iter fuel G s = Ok (P, h, s')
  \/ louvain set_iter fuel G s = Ok (P, h, s') ->
  (h = [] /\ P = particao_singular G)
  \/ exists h0 q,
       h = h0 ++ [q] /\ calcular_modularidade set_iter G P = Ok q.
Proof.
  assert (H0 : em_dia set_iter G
                 (melhor_particao_geral (estado_inicial G))
                 (modularidades_por_nivel (estado_inicial G)))
    by (left; split; reflexivity).
  intros [E|E].
  - exact (leiden_niveis_em_dia set_iter G fuel fuel _ s P h s' H0 E).
  - exact (louvain_niveis_em_dia set_iter G fuel fuel _ s P h s' H0 E).
Qed.

Lemma leiden_louvain_ultima_modularidade_witness :
  exists q1,
    leiden ordem_crescente 10 grafo_triangulos [1; 2; 3]%nat
    = Ok ([(0, 1); (1, 1); (2, 1); (3, 3); (4, 3); (5, 3)]%Z, [q1], [])
    /\ (([q1] = []
         /\ [(0, 1); (1, 1); (2, 1); (3, 3); (4, 3); (5, 3)]%Z
            = particao_singular grafo_triangulos)
        \/ exists h0 q,
             [q1] = h0 ++ [q]
             /\ calcular_modularidade ordem_crescente grafo_triangulos
                  [(0, 1); (1, 1); (2, 1); (3, 3); (4, 3); (5, 3)]%Z
                = Ok q).
Proof.
  eexists.
  assert (E : leiden ordem_crescente 10 grafo_triangulos [1; 2; 3]%nat
              = Ok ([(0, 1); (1, 1); (2, 1); (3, 3); (4, 3); (5, 3)]%Z,
                    _, [])) by (vm_compute; reflexivity).
  split; [exact E|].
  apply (leiden_louvain_ultima_modularidade ordem_crescente 10
           grafo_triangulos [1; 2; 3]%nat _ _ [] (or_introl E)).
Defined.

(** ** The bounds of the modularity *)

Lemma somaf_le (A : Type) (f g : A -> Q) (l : list A) :
  (forall x, In x l -> f x <= g x) -> somaf f l <= somaf g l.
Proof.
  induction l as [|a l IH]; cbn [somaf]; intros H; [apply Qle_refl|].
  apply Qplus_le_compat; [apply H; left; reflexivity|].
  apply IH; intros x Hx; apply H; right; assumption.
Qed.

Section Limites.

Variable G : Graph.
Hypothesis G_wf : wf_graph G = true.
Hypothesis G_pos : pesos_positivos G = true.

Lemma grau_nonneg (u : Z) : 0 <= grau G u.
Proof.
  rewrite (grau_peso_entre G u G_wf).
  pose proof (peso_entre_nonneg G u u G_wf G_pos) as H1.
  assert (H2 : 0 <= somaf (peso_entre G u) (nodes G)).
  { apply somaf_nonneg; intros v _; apply peso_entre_nonneg; assumption. }
  lra.
Qed.

Lemma grau_fora (u : Z) : ~ In u (nodes G) -> grau G u == 0.
Proof.
  intros Hu; unfold grau.
  apply get_None_keys in Hu; unfold nodes in Hu; rewrite Hu; reflexivity.
Qed.

(** The degrees of a set of nodes, edge by edge. *)
Lemma soma_dos_graus_arestas (S : list Z) :
  NoDup S ->
  soma_dos_graus G S
  == somaf (fun e => ((if memZ (fst (fst e)) S then 1 else 0)
                      + (if memZ (snd (fst e)) S then 1 else 0))
                     * get_weight (snd e)) (edges G).
Proof.
  intros HS.
  rewrite (soma_pelas_pontas G (fun u => if memZ u S then 1 else 0) G_wf).
  unfold soma_dos_graus.
  rewrite <- (somaf_restrito (grau G) (nodes G) S
                (wf_graph_nodes _ G_wf) HS grau_fora).
  apply somaf_ext; intros u _; destruct (memZ u S); ring.
Qed.

(** Of a set of nodes: the weight inside is between zero and the total
    weight, and the degrees are at most the total weight and the weight
    inside. *)
Lemma comunidade_limites (S : list Z) :
  NoDup S ->
  0 <= peso_interno G S
  /\ peso_interno G S <= peso_total G
  /\ 0 <= soma_dos_graus G S
  /\ soma_dos_graus G S <= peso_total G + peso_interno G S.
Proof.
  intros HS.
  assert (Hw : forall e, In e (edges G) -> 0 < get_weight (snd e)).
  { intros [[u v] d] He; cbn [snd].
    apply (In_edges G u v d G_wf He); assumption. }
  rewrite (soma_dos_graus_arestas S HS).
  unfold peso_interno, peso_total; rewrite somaf_filter.
  split; [|split; [|split]].
  - apply somaf_nonneg; intros e He; pose proof (Hw e He).
    destruct (memZ (fst (fst e)) S && memZ (snd (fst e)) S); lra.
  - apply somaf_le; intros e He; pose proof (Hw e He).
    destruct (memZ (fst (fst e)) S && memZ (snd (fst e)) S); lra.
  - apply somaf_nonneg; intros e He; pose proof (Hw e He).
    destruct (memZ (fst (fst e)) S), (memZ (snd (fst e)) S); lra.
  - rewrite <- somaf_plus.
    apply somaf_le; intros e He; pose proof (Hw e He).
    destruct (memZ (fst (fst e)) S), (memZ (snd (fst e)) S);
      cbn [andb]; lra.
Qed.

Hypothesis G_peso : Qeq_bool (peso_total G) 0 = false.

Lemma peso_total_pos : 0 < peso_total G.
Proof.
  pose proof (peso_total_nonneg G G_wf G_pos) as H.
  destruct (Qlt_le_dec 0 (peso_total G)) as [|Hle]; [assumption|].
  assert (E : peso_total G == 0) by lra.
  apply Qeq_eq_bool in E; rewrite E in G_peso; discriminate.
Qed.

(** The contribution of a community from below and from above. *)
Lemma contribuicao_limites (S : list Z) :
  NoDup S ->
  - (soma_dos_graus G S / (4 * peso_total G)) <= contribuicao G S
  /\ contribuicao G S <= peso_interno G S / peso_total G.
Proof.
  intros HS.
  destruct (comunidade_limites S HS) as (H1 & H2 & H3 & H4).
  pose proof peso_total_pos as Hm.
  unfold contribuicao.
  set (m := peso_total G) in *.
  set (L := peso_interno G S) in *.
  set (d := soma_dos_graus G S) in *.
  assert (Hm0 : ~ m == 0) by lra.
  assert (E1 : (d / (2 * m)) ^ 2 == d * d / (4 * m * m))
    by (field; assumption).
  assert (Hc : 0 < 4 * m * m) by nra.
  split.
  - assert (E : L / m - (d / (2 * m)) ^ 2 - - (d / (4 * m))
                == (4 * m * L - d * d + d * m) / (4 * m * m))
      by (field; assumption).
    assert (Hn : 0 <= 4 * m * L - d * d + d * m).
    { destruct (Qlt_le_dec m d) as [Hd|Hd]; nra. }
    assert (Hq : 0 <= (4 * m * L - d * d + d * m) / (4 * m * m)).
    { apply Qle_shift_div_l; [assumption | lra]. }
    rewrite <- E in Hq; lra.
  - assert (Hq : 0 <= d * d / (4 * m * m)).
    { apply Qle_shift_div_l; [assumption | nra]. }
    rewrite E1; lra.
Qed.

Variable P : Dict.t Z.
Hypothesis P_wf : NoDup (Dict.keys P).

Lemma membro_de (c u : Z) :
  memZ u (nos_em P c)
  = match Dict.get P u with Some cu => Z.eqb cu c | None => false end.
Proof.
  destruct (Dict.get P u) as [cu|] eqn:E.
  - apply nos_em_memZ; assumption.
  - apply memZ_false; intros Hin.
    apply In_nos_em in Hin; apply (In_get _ P u c P_wf) in Hin.
    rewrite Hin in E; discriminate.
Qed.

(** The communities share the degrees of the nodes. *)
Lemma soma_graus_comunidades :
  somaf (fun c => soma_dos_graus G (nos_em P c))
        (distintos (Dict.values P))
  <= 2 * peso_total G.
Proof.
  assert (E : 2 * peso_total G == somaf (grau G) (nodes G)).
  { rewrite (peso_total_size G G_wf), (size_grau G G_wf); field. }
  rewrite E.
  rewrite (somaf_ext Z
             (fun c => soma_dos_graus G (nos_em P c))
             (fun c => somaf (fun u => if memZ u (nos_em P c)
                                       then grau G u else 0) (nodes G))
             (distintos (Dict.values P))).
  - rewrite (somaf_troca Z Z
               (fun c u => if memZ u (nos_em P c) then grau G u else 0)
               (distintos (Dict.values P)) (nodes G)).
    apply somaf_le; intros u _.
    pose proof (grau_nonneg u) as Hg.
    rewrite (somaf_ext Z
               (fun c => if memZ u (nos_em P c) then grau G u else 0)
               (fun c => if Z.eqb c (comunidade_de P u)
                         then (if Dict.mem P u then grau G u else 0)
                         else 0)
               (distintos (Dict.values P))).
    + rewrite (somaf_um _ _ _ (NoDup_distintos _)).
      destruct (memZ (comunidade_de P u) (distintos (Dict.values P)));
        [|assumption].
      destruct (Dict.mem P u); [apply Qle_refl | assumption].
    + intros c _; rewrite membro_de; unfold comunidade_de, Dict.mem.
      destruct (Dict.get P u) as [cu|].
      * rewrite (Z.eqb_sym c cu); reflexivity.
      * destruct (Z.eqb c 0); reflexivity.
  - intros c _; unfold soma_dos_graus; symmetry.
    apply (somaf_restrito (grau G) (nodes G) (nos_em P c)
             (wf_graph_nodes _ G_wf) (NoDup_nos_em P c P_wf) grau_fora).
Qed.

(** An edge is inside one community at most. *)
Lemma peso_interno_comunidades :
  somaf (fun c => peso_interno G (nos_em P c)) (distintos (Dict.values P))
  <= peso_total G.
Proof.
  assert (Hw : forall e, In e (edges G) -> 0 < get_weight (snd e)).
  { intros [[u v] d] He; cbn [snd].
    apply (In_edges G u v d G_wf He); assumption. }
  rewrite (somaf_ext Z
             (fun c => peso_interno G (nos_em P c))
             (fun c => somaf (fun e => if memZ (fst (fst e)) (nos_em P c)
                                          && memZ (snd (fst e)) (nos_em P c)
                                       then get_weight (snd e) else 0)
                             (edges G))
             (distintos (Dict.values P)))
    by (intros c _; unfold peso_interno; apply somaf_filter).
  rewrite (somaf_troca Z (Z * Z * attrs)
             (fun c e => if memZ (fst (fst e)) (nos_em P c)
                            && memZ (snd (fst e)) (nos_em P c)
                         then get_weight (snd e) else 0)
             (distintos (Dict.values P)) (edges G)).
  unfold peso_total; apply somaf_le; intros e He; pose proof (Hw e He) as Hp.
  rewrite (somaf_ext Z
             (fun c => if memZ (fst (fst e)) (nos_em P c)
                          && memZ (snd (fst e)) (nos_em P c)
                       then get_weight (snd e) else 0)
             (fun c => if Z.eqb c (comunidade_de P (fst (fst e)))
                       then (if memZ (fst (fst e))
                                  (nos_em P (comunidade_de P (fst (fst e))))
                                && memZ (snd (fst e))
                                     (nos_em P
                                        (comunidade_de P (fst (fst e))))
                             then get_weight (snd e) else 0)
                       else 0)
             (distintos (Dict.values P))).
  - rewrite (somaf_um _ _ _ (NoDup_distintos _)).
    destruct (memZ (comunidade_de P (fst (fst e)))
                (distintos (Dict.values P))); [|lra].
    destruct (memZ (fst (fst e))
                (nos_em P (comunidade_de P (fst (fst e))))
              && memZ (snd (fst e))
                   (nos_em P (comunidade_de P (fst (fst e))))); lra.
  - intros c _.
    destruct (Z.eqb_spec c (comunidade_de P (fst (fst e)))) as [->|Hne];
      [reflexivity|].
    rewrite (membro_de c (fst (fst e))); unfold comunidade_de in Hne.
    destruct (Dict.get P (fst (fst e))) as [cu|]; [|reflexivity].
    destruct (Z.eqb_spec cu c) as [->|_]; [contradiction | reflexivity].
Qed.

Lemma modularidade_limites :
  - (1 # 2) <= modularidade G P /\ modularidade G P <= 1.
Proof.
  pose proof peso_total_pos as Hm.
  pose proof soma_graus_comunidades as Hd.
  pose proof peso_interno_comunidades as HL.
  unfold modularidade; rewrite G_peso.
  set (D := distintos (Dict.values P)) in *.
  set (m := peso_total G) in *.
  assert (Hm0 : ~ m == 0) by lra.
  split.
  - apply Qle_trans
      with (somaf (fun c => - (1 / (4 * m))
                            * soma_dos_graus G (nos_em P c)) D).
    + rewrite somaf_escala.
      set (T := somaf (fun c => soma_dos_graus G (nos_em P c)) D) in *.
      assert (E : - (1 / (4 * m)) * T - - (1 # 2)
                  == (2 * m - T) / (4 * m)) by (field; assumption).
      assert (Hq : 0 <= (2 * m - T) / (4 * m)).
      { apply Qle_shift_div_l; lra. }
      rewrite <- E in Hq; lra.
    + apply somaf_le; intros c _.
      destruct (contribuicao_limites (nos_em P c) (NoDup_nos_em P c P_wf))
        as [H _].
      fold m in H.
      assert (E : - (1 / (4 * m)) * soma_dos_graus G (nos_em P c)
                  == - (soma_dos_graus G (nos_em P c) / (4 * m)))
        by (field; assumption).
      rewrite E; exact H.
  - apply Qle_trans
      with (somaf (fun c => (1 / m) * peso_interno G (nos_em P c)) D).
    + apply somaf_le; intros c _.
      destruct (contribuicao_limites (nos_em P c) (NoDup_nos_em P c P_wf))
        as [_ H].
      fold m in H.
      assert (E : (1 / m) * peso_interno G (nos_em P c)
                  == peso_interno G (nos_em P c) / m)
        by (field; assumption).
      rewrite E; exact H.
    + rewrite somaf_escala.
      set (T := somaf (fun c => peso_interno G (nos_em P c)) D) in *.
      assert (E : 1 - 1 / m * T == (m - T) / m) by (field; assumption).
      assert (Hq : 0 <= (m - T) / m).
      { apply Qle_shift_div_l; lra. }
      rewrite <- E in Hq; lra.
Qed.

End Limites.




(** ** The properties of a community *)



(** ** Graphs without weight *)

Section SemPeso.

Variable set_iter : list Z -> list Z.

Variable G : Graph.
Hypothesis G_sem_peso : Qeq_bool (size G) 0 = true.

Lemma melhor_vizinha_sem_peso (P : Dict.t Z) (no atual : Z) (l : list Z) :
  melhor_vizinha set_iter G P no atual l = Ok (atual, 0).
Proof.
  unfold melhor_vizinha.
  induction l as [|c l IH]; cbn [foldM]; [reflexivity|].
  destruct (negb (Z.eqb atual c)); cbn [bind]; [|exact IH].
  unfold calc_delta_q at 1; cbv zeta; rewrite G_sem_peso; cbn [bind].
  exact IH.
Qed.

Lemma comunidades_dos_vizinhos_acc (P : Dict.t Z) (l acc : list Z) :
  (forall v, In v l -> In v (Dict.keys P)) ->
  exists viz,
    foldM (fun acc vizinho => c <- Dict.item P vizinho ;; Ok (acc ++ [c]))
          l acc = Ok viz.
Proof.
  revert acc; induction l as [|v l IH]; intros acc Hl; cbn [foldM].
  - eexists; reflexivity.
  - destruct (In_keys_get _ P v (Hl v (or_introl eq_refl))) as [c Ec].
    unfold Dict.item at 1; rewrite Ec; cbn [bind].
    apply IH; intros x Hx; apply Hl; right; assumption.
Qed.

Variable H : Graph.
Variable P : Dict.t Z.
Hypothesis P_nos : forall n, In n (nodes H) -> In n (Dict.keys P).
Hypothesis P_vizinhos :
  forall n nbrs v,
    Dict.get H n = Some nbrs -> In v (Dict.keys nbrs) -> In v (Dict.keys P).

Lemma visitar_sem_peso (b : bool) (no : Z) :
  In no (nodes H) -> visitar set_iter H G (P, b) no = Ok (P, b).
Proof.
  intros Hno; unfold visitar.
  destruct (In_keys_get _ P no (P_nos no Hno)) as [c Ec].
  unfold Dict.item; rewrite Ec; cbn [bind].
  destruct (In_keys_get _ H no Hno) as [nbrs En].
  unfold comunidades_dos_vizinhos, neighbors; rewrite En; cbn [bind].
  destruct (comunidades_dos_vizinhos_acc P (Dict.keys nbrs) [])
    as [viz Ev]; [intros v Hv; eapply P_vizinhos; eauto|].
  rewrite Ev; cbn [bind].
  rewrite melhor_vizinha_sem_peso; cbn [bind].
  reflexivity.
Qed.

Lemma varredura_sem_peso (l : list Z) (b : bool) :
  (forall n, In n l -> In n (nodes H)) ->
  foldM (visitar set_iter H G) l (P, b) = Ok (P, b).
Proof.
  induction l as [|n l IH]; intros Hl; cbn [foldM]; [reflexivity|].
  rewrite (visitar_sem_peso b n (Hl n (or_introl eq_refl))); cbn [bind].
  apply IH; intros x Hx; apply Hl; right; assumption.
Qed.

End SemPeso.

(** X17: when the reference graph has no weight, [G.size(weight)] zero,
    local moving makes one sweep and moves no node: it returns the
    partition it was given, whatever the graph of the candidates, if the
    partition has its nodes and their neighbours as keys. *)
Theorem movimentacao_local_sem_peso (set_iter : list Z -> list Z)
  (fuel : nat) (H G : Graph) (P : Dict.t Z) (s : rng) :
  Qeq_bool (size G) 0 = true ->
  (forall n, In n (nodes H) -> In n (Dict.keys P)) ->
  (forall n nbrs v,
     Dict.get H n = Some nbrs -> In v (Dict.keys nbrs) ->
     In v (Dict.keys P)) ->
  encontrar_movimentacao_local set_iter (S fuel) H G P s
  = Ok (P, snd (shuffle (nodes H) s)).
Proof.
  intros Hm Hn Hv; cbn [encontrar_movimentacao_local].
  destruct (shuffle (nodes H) s) as [lista s1] eqn:Es; cbn [snd].
  rewrite (varredura_sem_peso set_iter G Hm H P Hn Hv lista false).
  - reflexivity.
  - intros n Hin; apply (In_shuffle _ (nodes H) s).
    rewrite Es; exact Hin.
Qed.

Lemma movimentacao_local_sem_peso_witness :
  encontrar_movimentacao_local ordem_crescente 1
    (subgraph grafo_caminho [0; 1]%Z) grafo_sem_arestas
    [(0, 0); (1, 1); (2, 2)]%Z [1; 0]%nat
  = Ok ([(0, 0); (1, 1); (2, 2)]%Z,
        snd (shuffle (nodes (subgraph grafo_caminho [0; 1]%Z)) [1; 0]%nat)).
Proof.
  apply (movimentacao_local_sem_peso ordem_crescente 0
           (subgraph grafo_caminho [0; 1]%Z) grafo_sem_arestas
           [(0, 0); (1, 1); (2, 2)]%Z [1; 0]%nat).
  - reflexivity.
  - simpl; intuition lia.
  - intros n nbrs v Hn Hv.
    assert (Hin : In (n, nbrs) (subgraph grafo_caminho [0; 1]%Z))
      by (apply get_In; exact Hn).
    simpl in Hin; destruct Hin as [E|[E|[]]]; injection E as <- <-;
      simpl in Hv; simpl; intuition lia.
Defined.

(** ** The algorithms on a graph without weight *)

Lemma nos_em_singular (l : list Z) (c : Z) :
  NoDup l ->
  (length (map fst (filter (fun e : Z * Z => Z.eqb (snd e) c)
                           (map (fun n => (n, n)) l))) <= 1)%nat.
Proof.
  induction l as [|n l IH]; intros Hnd; cbn [map filter length];
    [lia|].
  inversion Hnd as [|? ? Hn Hnd']; subst; cbn [snd].
  destruct (Z.eqb_spec n c) as [->|Hne]; [|apply IH; assumption].
  cbn [map length].
  assert (E : filter (fun e : Z * Z => Z.eqb (snd e) c)
                     (map (fun n => (n, n)) l) = []).
  { clear IH Hnd Hnd'; induction l as [|x l IH]; [reflexivity|].
    cbn [map filter snd].
    destruct (Z.eqb_spec x c) as [->|_].
    - exfalso; apply Hn; left; reflexivity.
    - apply IH; intros Hin; apply Hn; right; assumption. }
  rewrite E; cbn [map length]; lia.
Qed.

(** Refinement leaves a partition of communities of one node as it is. *)
Lemma refinar_particao_singular (set_iter : list Z -> list Z) (fuel : nat)
  (G : Graph) (s : rng) :
  wf_graph G = true ->
  refinar_particao set_iter fuel G (particao_singular G) s
  = Ok (particao_singular G, s).
Proof.
  intros Hwf; unfold refinar_particao; cbv zeta.
  assert (Hf : forall ids st,
             foldM (refinar_comunidade set_iter fuel G (particao_singular G))
                   ids st = Ok st).
  { induction ids as [|c ids IH]; intros st; cbn [foldM]; [reflexivity|].
    assert (E : refinar_comunidade set_iter fuel G (particao_singular G)
                  st c = Ok st).
    { unfold refinar_comunidade; destruct st as [[F hi] s0]; cbv zeta.
      rewrite (particao_singular_nodes G Hwf).
      pose proof (nos_em_singular (nodes G) c (wf_graph_nodes _ Hwf)) as Hl.
      apply Nat.leb_le in Hl; rewrite Hl; reflexivity. }
    rewrite E; cbn [bind]; apply IH. }
  rewrite Hf; reflexivity.
Qed.

(** The mapping of the first level sends every node to its community. *)
Lemma mapear_de_volta_singular (P : Dict.t Z) (l : list Z)
  (acc : Dict.t Z) :
  (forall n, In n l -> Dict.get P n = Some n) ->
  foldM
    (fun particao_atual_mapeada e =>
       let '(no_original, id_comunidade) := e in
       if Dict.mem P id_comunidade then
         c <- Dict.item P id_comunidade ;;
         Ok (Dict.set particao_atual_mapeada no_original c)
       else Ok particao_atual_mapeada)
    (map (fun n => (n, n)) l) acc
  = Ok (fold_left (fun p no => Dict.set p no no) l acc).
Proof.
  revert acc; induction l as [|n l IH]; intros acc Hl;
    cbn [map foldM fold_left]; [reflexivity|].
  unfold Dict.mem, Dict.item.
  rewrite (Hl n (or_introl eq_refl)); cbn [bind].
  apply IH; intros x Hx; apply Hl; right; assumption.
Qed.

Section AlgoritmosSemPeso.

Variable set_iter : list Z -> list Z.
Hypothesis set_iter_NoDup : forall l, NoDup (set_iter l).
Hypothesis set_iter_In : forall l x, In x (set_iter l) <-> In x l.

Variable G : Graph.
Hypothesis G_wf : wf_graph G = true.
Hypothesis G_sem_peso : Qeq_bool (size G) 0 = true.

Lemma particao_singular_get (n : Z) :
  In n (nodes G) -> Dict.get (particao_singular G) n = Some n.
Proof.
  intros Hn.
  pose proof (particao_singular_de G G_wf) as HP.
  apply particao_de_spec in HP; destruct HP as (Hnd & _).
  apply In_get; [assumption|].
  rewrite (particao_singular_nodes G G_wf).
  apply in_map_iff; exists n; split; [reflexivity | assumption].
Qed.

Lemma movimentacao_local_singular (fuel : nat) (s : rng) :
  encontrar_movimentacao_local set_iter (S fuel) G G (particao_singular G) s
  = Ok (particao_singular G, snd (shuffle (nodes G) s)).
Proof.
  pose proof (particao_singular_de G G_wf) as HP.
  apply particao_de_spec in HP; destruct HP as (_ & Htot & _).
  cbn [encontrar_movimentacao_local].
  destruct (shuffle (nodes G) s) as [lista s1] eqn:Es; cbn [snd].
  rewrite (varredura_sem_peso set_iter G G_sem_peso G (particao_singular G)
             Htot).
  - reflexivity.
  - intros n nbrs v En Hv; apply Htot.
    destruct (In_keys_get _ nbrs v Hv) as [d Ed].
    apply (adj_nodes G n v d G_wf).
    unfold adj; rewrite En; exact Ed.
  - intros n Hin; apply (In_shuffle _ (nodes G) s).
    rewrite Es; exact Hin.
Qed.

Lemma avaliar_nivel_sem_peso :
  avaliar_nivel set_iter G (estado_inicial G) (particao_singular G)
  = Ok (inl (particao_singular G, [0])).
Proof.
  unfold avaliar_nivel; cbv zeta.
  cbn [estado_inicial grafo_atual no_em_mapa_comunidade
       melhor_particao_geral melhor_modularidade modularidades_por_nivel].
  assert (Em : mapear_de_volta (particao_singular G) (particao_singular G)
               = Ok (particao_singular G)).
  { unfold mapear_de_volta.
    rewrite (particao_singular_nodes G G_wf) at 1.
    rewrite (mapear_de_volta_singular (particao_singular G) (nodes G) []
               particao_singular_get).
    reflexivity. }
  rewrite Em; cbn [bind].
  unfold calcular_modularidade; cbv zeta; rewrite G_sem_peso; cbn [bind].
  change (Qle_bool 0 (-1)) with false; cbv iota.
  pose proof (particao_singular_de G G_wf) as HP.
  apply particao_de_spec in HP; destruct HP as (Hnd & Htot & _).
  destruct (agrupar_grafo_inv set_iter set_iter_NoDup set_iter_In G G_wf
              (particao_singular G) Htot) as (G' & EG & _ & Hn' & _).
  rewrite EG; cbn [bind].
  assert (El : length (nodes G') = length (nodes G)).
  { rewrite Hn', (particao_singular_nodes G G_wf).
    unfold Dict.values; rewrite map_map; cbn [snd]; rewrite map_id.
    apply Permutation_length, set_iter_perm;
      [assumption | assumption | apply wf_graph_nodes; assumption]. }
  rewrite El, Nat.eqb_refl; reflexivity.
Qed.

End AlgoritmosSemPeso.

(** X18: on a graph without weight, [G.size(weight)] zero, as the graph
    without nodes and every graph without edges, [leiden] and [louvain]
    return after the first level: every node in its own community, and
    the history of the one modularity zero. *)
Theorem leiden_louvain_sem_peso (set_iter : list Z -> list Z)
  (fuel : nat) (G : Graph) (s : rng) :
  (forall l, NoDup (set_iter l)) ->
  (forall l x, In x (set_iter l) <-> In x l) ->
  wf_graph G = true -> Qeq_bool (size G) 0 = true ->
  leiden set_iter (S fuel) G s
  = Ok (particao_singular G, [0], snd (shuffle (nodes G) s))
  /\ louvain set_iter (S fuel) G s
     = Ok (particao_singular G, [0], snd (shuffle (nodes G) s)).
Proof.
  intros Hnd Hin Hwf Hm.
  unfold leiden, louvain; cbn [leiden_niveis louvain_niveis]; cbv zeta.
  cbn [estado_inicial grafo_atual].
  change (Estado G (particao_singular G) (particao_singular G) (-1) [])
    with (estado_inicial G).
  rewrite (movimentacao_local_singular set_iter G Hwf Hm fuel s);
    cbn [bind].
  rewrite (refinar_particao_singular set_iter (S fuel) G _ Hwf); cbn [bind].
  rewrite (avaliar_nivel_sem_peso set_iter Hnd Hin G Hwf Hm); cbn [bind].
  split; reflexivity.
Qed.

Lemma leiden_louvain_sem_peso_witness :
  leiden ordem_crescente 1 grafo_sem_arestas [1; 0]%nat
  = Ok (particao_singular grafo_sem_arestas, [0],
        snd (shuffle (nodes grafo_sem_arestas) [1; 0]%nat))
  /\ louvain ordem_crescente 1 grafo_sem_arestas [1; 0]%nat
     = Ok (particao_singular grafo_sem_arestas, [0],
           snd (shuffle (nodes grafo_sem_arestas) [1; 0]%nat)).
Proof.
  apply (leiden_louvain_sem_peso ordem_crescente 0 grafo_sem_arestas
           [1; 0]%nat ordem_crescente_NoDup ordem_crescente_In);
    reflexivity.
Defined.

(** * The levels of a run

    What follows is about what [leiden] and [louvain] return and about
    the states they go through, whenever they return: the proofs follow
    the partitions and the graphs through the phases and do not depend
    on how the numbers are computed. *)

(** ** What a run keeps at every level, whatever the weights *)

Section NiveisDeUmaExecucao.

Variable set_iter : list Z -> list Z.
Hypothesis set_iter_NoDup : forall l, NoDup (set_iter l).
Hypothesis set_iter_In : forall l x, In x (set_iter l) <-> In x l.

(** What local moving returns from a partition of the graph is a
    partition of the graph. *)
Lemma movimentacao_local_de (fuel : nat) (H G : Graph) (P P' : Dict.t Z)
  (s s' : rng) :
  particao_de G P = true ->
  encontrar_movimentacao_local set_iter fuel H G P s = Ok (P', s') ->
  particao_de G P' = true.
Proof.
  intros HP E; apply (alcancavel_particao_de G P P' HP).
  exact (movimentacao_local_alcancavel set_iter set_iter_In fuel H G P P'
           s s' E).
Qed.

(** What refinement returns from a partition of the graph is a partition
    of the graph. *)
Lemma refinar_particao_de (fuel : nat) (G : Graph) (P F : Dict.t Z)
  (s s' : rng) :
  particao_de G P = true ->
  refinar_particao set_iter fuel G P s = Ok (F, s') ->
  particao_de G F = true.
Proof.
  intros HP E.
  destruct (proj1 (particao_de_spec G P) HP) as (H1 & H2 & H3).
  destruct (refinar_particao_inv set_iter P H1 fuel G s F s' E)
    as (c & lo & hi & Hk & _).
  apply particao_de_spec; rewrite Hk; auto.
Qed.

Variable G_orig : Graph.
Hypothesis G_orig_wf : wf_graph G_orig = true.





(** The states of [nivel_leiden] are the states that [leiden] goes
    through: from such a state the run goes on as from the start. *)
Lemma nivel_leiden_executa (fuel : nat) (s0 : rng) (st : estado) (s : rng) :
  nivel_leiden set_iter fuel G_orig s0 st s ->
  exists k,
    forall niveis,
      leiden_niveis set_iter (k + niveis) fuel G_orig
        (estado_inicial G_orig) s0
      = leiden_niveis set_iter niveis fuel G_orig st s.
Proof.
  induction 1 as [|st s P1 s1 P2 s2 st' _ [k IH] E1 E2 E3].
  - exists 0%nat; reflexivity.
  - exists (S k); intros niveis.
    replace (S k + niveis)%nat with (k + S niveis)%nat by lia.
    rewrite IH; cbn [leiden_niveis]; cbv zeta.
    rewrite E1; cbn [bind]; rewrite E2; cbn [bind]; rewrite E3.
    reflexivity.
Qed.

Lemma nivel_louvain_executa (fuel : nat) (s0 : rng) (st : estado) (s : rng) :
  nivel_louvain set_iter fuel G_orig s0 st s ->
  exists k,
    forall niveis,
      louvain_niveis set_iter (k + niveis) fuel G_orig
        (estado_inicial G_orig) s0
      = louvain_niveis set_iter niveis fuel G_orig st s.
Proof.
  induction 1 as [|st s P1 s1 st' _ [k IH] E1 E3].
  - exists 0%nat; reflexivity.
  - exists (S k); intros niveis.
    replace (S k + niveis)%nat with (k + S niveis)%nat by lia.
    rewrite IH; cbn [louvain_niveis]; cbv zeta.
    rewrite E1; cbn [bind]; rewrite E3.
    reflexivity.
Qed.




End NiveisDeUmaExecucao.





(** ** The entries of the history *)

Lemma modularidade_entre (G : Graph) (P : Dict.t Z) :
  wf_graph G = true -> pesos_positivos G = true -> NoDup (Dict.keys P) ->
  - (1 # 2) <= modularidade G P /\ modularidade G P <= 1.
Proof.
  intros Hwf Hpos HP.
  destruct (Qeq_bool (peso_total G) 0) eqn:Em.
  - unfold modularidade; rewrite Em; split; lra.
  - apply modularidade_limites; assumption.
Qed.

Section Historia.

Variable set_iter : list Z -> list Z.
Hypothesis set_iter_NoDup : forall l, NoDup (set_iter l).
Hypothesis set_iter_In : forall l x, In x (set_iter l) <-> In x l.

Variable G_orig : Graph.
Hypothesis G_orig_wf : wf_graph G_orig = true.
Hypothesis G_orig_pos : pesos_positivos G_orig = true.

(** A level that is evaluated leaves a history with an entry, between
    minus one half and one as the entries before it: the first
    modularity is above the [-1.0] of the start. *)
Lemma avaliar_nivel_historia (st : estado) (P : Dict.t Z)
  (r : (Dict.t Z * list Q) + estado) :
  inv_estado G_orig st ->
  particao_de (grafo_atual st) P = true ->
  (forall x, In x (modularidades_por_nivel st) -> - (1 # 2) <= x /\ x <= 1) ->
  (modularidades_por_nivel st = [] -> melhor_modularidade st < - (1 # 2)) ->
  avaliar_nivel set_iter G_orig st P = Ok r ->
  match r with
  | inl (p, h) =>
      h <> [] /\ forall x, In x h -> - (1 # 2) <= x /\ x <= 1
  | inr st' =>
      modularidades_por_nivel st' <> []
      /\ forall x, In x (modularidades_por_nivel st') ->
                   - (1 # 2) <= x /\ x <= 1
  end.
Proof.
  intros (I1 & I2 & I3 & I4 & I5 & I6 & I7 & I8) HP Hb H0.
  unfold avaliar_nivel; cbv zeta.
  destruct (mapear_de_volta_de G_orig (grafo_atual st)
              (no_em_mapa_comunidade st) P I4 I5 HP) as (m & Em & Hm & _).
  rewrite Em; cbn [bind].
  destruct (calcular_modularidade_devolve set_iter set_iter_NoDup
              set_iter_In G_orig m G_orig_wf (particao_de_parcial _ _ Hm))
    as (q & Eq & Hq).
  rewrite Eq; cbn [bind].
  assert (Hlim : - (1 # 2) <= q /\ q <= 1).
  { rewrite Hq; apply modularidade_entre; try assumption.
    apply particao_de_spec in Hm; tauto. }
  assert (Hnovo : forall x, In x (modularidades_por_nivel st ++ [q]) ->
                            - (1 # 2) <= x /\ x <= 1).
  { intros x Hx; apply in_app_iff in Hx.
    destruct Hx as [Hx|[<-|[]]]; [apply Hb |]; assumption. }
  destruct (Qle_bool q (melhor_modularidade st)) eqn:Ele.
  - intros E; injection E as <-; split; [|exact Hb].
    intros Hnil; apply Qle_bool_iff in Ele.
    pose proof (H0 Hnil); lra.
  - destruct (agrupar_grafo set_iter (grafo_atual st) P) as [G'| |];
      cbn [bind]; try discriminate.
    destruct (length (nodes G') =? length (nodes (grafo_atual st)))%nat;
      intros E; injection E as <-; cbn [modularidades_por_nivel];
      (split; [|exact Hnovo]);
      intros Hnil; apply app_eq_nil in Hnil; destruct Hnil; discriminate.
Qed.

Lemma leiden_niveis_historia (niveis fuel : nat) (st : estado) (s : rng)
  (P : Dict.t Z) (h : list Q) (s' : rng) :
  inv_estado G_orig st ->
  (forall x, In x (modularidades_por_nivel st) -> - (1 # 2) <= x /\ x <= 1) ->
  (modularidades_por_nivel st = [] -> melhor_modularidade st < - (1 # 2)) ->
  leiden_niveis set_iter niveis fuel G_orig st s = Ok (P, h, s') ->
  h <> [] /\ forall x, In x h -> - (1 # 2) <= x /\ x <= 1.
Proof.
  revert st s; induction niveis as [|niveis IH];
    intros st s HI Hb H0; [discriminate|].
  pose proof HI as (I1 & _).
  cbn [leiden_niveis]; cbv zeta.
  destruct (encontrar_movimentacao_local set_iter fuel (grafo_atual st)
              (grafo_atual st) (particao_singular (grafo_atual st)) s)
    as [[P1 s1]| |] eqn:E1; cbn [bind]; try discriminate.
  pose proof (movimentacao_local_de set_iter set_iter_In _ _ _ _ _ _ _
                (particao_singular_de _ I1) E1) as HP1.
  destruct (refinar_particao set_iter fuel (grafo_atual st) P1 s1)
    as [[P2 s2]| |] eqn:E2; cbn [bind]; try discriminate.
  pose proof (refinar_particao_de set_iter _ _ _ _ _ _ HP1 E2) as HP2.
  destruct (avaliar_nivel_ok set_iter set_iter_NoDup set_iter_In G_orig
              G_orig_wf st P2 HI HP2) as (r & Er & Hr).
  pose proof (avaliar_nivel_historia st P2 r HI HP2 Hb H0 Er) as Hh.
  rewrite Er; cbn [bind].
  destruct r as [[p h1]|st'].
  - intros E; injection E as <- <- <-; exact Hh.
  - destruct Hr as [HI' _]; destruct Hh as [Hne Hb'].
    apply IH; try assumption.
    intros Hnil; contradiction.
Qed.

Lemma louvain_niveis_historia (niveis fuel : nat) (st : estado) (s : rng)
  (P : Dict.t Z) (h : list Q) (s' : rng) :
  inv_estado G_orig st ->
  (forall x, In x (modularidades_por_nivel st) -> - (1 # 2) <= x /\ x <= 1) ->
  (modularidades_por_nivel st = [] -> melhor_modularidade st < - (1 # 2)) ->
  louvain_niveis set_iter niveis fuel G_orig st s = Ok (P, h, s') ->
  h <> [] /\ forall x, In x h -> - (1 # 2) <= x /\ x <= 1.
Proof.
  revert st s; induction niveis as [|niveis IH];
    intros st s HI Hb H0; [discriminate|].
  pose proof HI as (I1 & _).
  cbn [louvain_niveis]; cbv zeta.
  destruct (encontrar_movimentacao_local set_iter fuel (grafo_atual st)
              (grafo_atual st) (particao_singular (grafo_atual st)) s)
    as [[P1 s1]| |] eqn:E1; cbn [bind]; try discriminate.
  pose proof (movimentacao_local_de set_iter set_iter_In _ _ _ _ _ _ _
                (particao_singular_de _ I1) E1) as HP1.
  destruct (avaliar_nivel_ok set_iter set_iter_NoDup set_iter_In G_orig
              G_orig_wf st P1 HI HP1) as (r & Er & Hr).
  pose proof (avaliar_nivel_historia st P1 r HI HP1 Hb H0 Er) as Hh.
  rewrite Er; cbn [bind].
  destruct r as [[p h1]|st'].
  - intros E; injection E as <- <- <-; exact Hh.
  - destruct Hr as [HI' _]; destruct Hh as [Hne Hb'].
    apply IH; try assumption.
    intros Hnil; contradiction.
Qed.

End Historia.

(** X15: on a graph of positive weights, the history that [leiden] or
    [louvain] returns is not empty, so that the partition returned is
    never the one of the start left untouched, and every entry of the
    history is between minus one half and one. *)
Theorem leiden_louvain_historia_nao_vazia (set_iter : list Z -> list Z)
  (fuel : nat) (G : Graph) (s : rng) (P : Dict.t Z) (h : list Q) (s' : rng) :
  (forall l, NoDup (set_iter l)) ->
  (forall l x, In x (set_iter l) <-> In x l) ->
  wf_graph G = true -> pesos_positivos G = true ->
  leiden set_iter fuel G s = Ok (P, h, s')
  \/ louvain set_iter fuel G s = Ok (P, h, s') ->
  h <> [] /\ forall x, In x h -> - (1 # 2) <= x /\ x <= 1.
Proof.
  intros H1 H2 Hwf Hpos E.
  pose proof (estado_inicial_inv G Hwf Hpos) as HI.
  assert (Hb : forall x,
             In x (modularidades_por_nivel (estado_inicial G)) ->
             - (1 # 2) <= x /\ x <= 1) by (intros x []).
  assert (H0 : modularidades_por_nivel (estado_inicial G) = [] ->
               melhor_modularidade (estado_inicial G) < - (1 # 2))
    by (intros _; reflexivity).
  destruct E as [E|E].
  - exact (leiden_niveis_historia set_iter H1 H2 G Hwf Hpos fuel fuel _ s
             P h s' HI Hb H0 E).
  - exact (louvain_niveis_historia set_iter H1 H2 G Hwf Hpos fuel fuel _ s
             P h s' HI Hb H0 E).
Qed.

Lemma leiden_louvain_historia_nao_vazia_witness :
  exists P h s' P' h' s'',
    leiden ordem_crescente 20 grafo_dois_niveis [] = Ok (P, h, s')
    /\ louvain ordem_crescente 20 grafo_dois_niveis [1; 2; 3; 4; 5]%nat
       = Ok (P', h', s'')
    /\ length h = 2%nat
    /\ (h <> [] /\ forall x, In x h -> - (1 # 2) <= x /\ x <= 1)
    /\ (h' <> [] /\ forall x, In x h' -> - (1 # 2) <= x /\ x <= 1).
Proof.
  do 6 eexists.
  assert (E1 : leiden ordem_crescente 20 grafo_dois_niveis []
               = Ok (_, _, _)) by (vm_compute; reflexivity).
  assert (E2 : louvain ordem_crescente 20 grafo_dois_niveis
                 [1; 2; 3; 4; 5]%nat = Ok (_, _, _))
    by (vm_compute; reflexivity).
  split; [exact E1|]; split; [exact E2|]; split; [reflexivity|]; split.
  - apply (leiden_louvain_historia_nao_vazia ordem_crescente 20
             grafo_dois_niveis [] _ _ _ ordem_crescente_NoDup
             ordem_crescente_In eq_refl eq_refl (or_introl E1)).
  - apply (leiden_louvain_historia_nao_vazia ordem_crescente 20
             grafo_dois_niveis [1; 2; 3; 4; 5]%nat _ _ _
             ordem_crescente_NoDup ordem_crescente_In eq_refl eq_refl
             (or_intror E2)).
Defined.

(** * The program in binary64: what rounding decides *)

Lemma dict_eqb_eq (a b : Dict.t Z) : dict_eqb a b = true -> a = b.
Proof.
  revert b; induction a as [|[k v] a IH]; intros [|[k' v'] b]; simpl;
    try discriminate; [reflexivity|].
  rewrite !andb_true_iff; intros [[Hk Hv] Hr].
  apply Z.eqb_eq in Hk, Hv; subst; f_equal; apply IH; assumption.
Qed.

Lemma memD_In (p : Dict.t Z) (l : list (Dict.t Z)) :
  memD p l = true -> In p l.
Proof.
  unfold memD; rewrite existsb_exists; intros [x [Hx E]].
  apply dict_eqb_eq in E; subst; assumption.
Qed.

Lemma length_swap (A : Type) (l : list A) (i j : nat) :
  length (swap l i j) = length l.
Proof.
  unfold swap.
  destruct (nth_error l i), (nth_error l j); try reflexivity.
  rewrite !length_update; reflexivity.
Qed.

Lemma length_shuffle (A : Type) (x : list A) (s : rng) :
  length (fst (shuffle x s)) = length x.
Proof.
  unfold shuffle; generalize (length x - 1)%nat; intros i.
  revert x s; induction i as [|i IH]; intros x s; [reflexivity|].
  cbn [shuffle_from].
  destruct (randbelow (S i + 1) s) as [j s1].
  rewrite IH; apply length_swap.
Qed.

Lemma In_listas (n : nat) (V l : list Z) :
  length l = n -> (forall x, In x l -> In x V) -> In l (listas n V).
Proof.
  revert l; induction n as [|n IH]; intros [|a l] Hl Hin; simpl in *;
    try discriminate; [left; reflexivity|].
  apply in_flat_map; exists a; split; [apply Hin; left; reflexivity|].
  apply in_map, IH; [lia|].
  intros x Hx; apply Hin; right; assumption.
Qed.

(** When every sweep from a partition of [I] moves a node and stays in
    [I], local moving started in [I] does not return, however many
    sweeps it is given and whatever the generator draws. *)
Lemma movimentacao_local_sem_retorno (set_iter : list Z -> list Z)
  (soma : list float -> float) (G : B64.Graph) (I : list (Dict.t Z)) :
  sempre_melhora set_iter soma G I = true ->
  forall (fuel : nat) (P : Dict.t Z) (s : rng),
    In P I ->
    B64.encontrar_movimentacao_local set_iter soma fuel G G P s = Diverge.
Proof.
  intros H; induction fuel as [|fuel IH]; intros P s HP; [reflexivity|].
  cbn [B64.encontrar_movimentacao_local].
  pose proof (length_shuffle Z (B64.nodes G) s) as Hlen.
  pose proof (In_shuffle Z (B64.nodes G) s) as Hin.
  destruct (shuffle (B64.nodes G) s) as [l s1]; cbn [fst] in Hlen, Hin.
  unfold sempre_melhora in H; rewrite forallb_forall in H.
  pose proof (H P HP) as H1; rewrite forallb_forall in H1.
  assert (Hl : In l (listas (length (B64.nodes G)) (B64.nodes G))).
  { apply In_listas; [assumption | intros x Hx; apply Hin; assumption]. }
  pose proof (H1 l Hl) as H2.
  assert (Hall : forallb (fun n => memZ n l) (B64.nodes G) = true).
  { apply forallb_forall; intros n Hn; apply memZ_In, Hin; assumption. }
  rewrite Hall in H2.
  destruct (foldM (B64.visitar set_iter soma G G) l (P, false))
    as [[P' b]| |]; try discriminate.
  destruct b; try discriminate; cbn [bind].
  apply IH, memD_In; assumption.
Qed.

(** On [grafo_pesado] the gain of moving node 4 between the community
    of 0 and 1 and the community of 2 and 3 is zero, as the exact
    computation finds it; in binary64 [calc_delta_q] returns 2^-53 for
    the move in either direction, with either [sum]. *)
Lemma ganho_residual :
  B64.calc_delta_q ordem_crescente B64.soma_simples grafo_pesado
    [(0, 0); (1, 0); (2, 2); (3, 2); (4, 0)]%Z 4 2 = Ok 0x1p-53%float
  /\ B64.calc_delta_q ordem_crescente B64.soma_simples grafo_pesado
       [(0, 0); (1, 0); (2, 2); (3, 2); (4, 2)]%Z 4 0 = Ok 0x1p-53%float
  /\ B64.calc_delta_q ordem_crescente B64.soma_compensada grafo_pesado
       [(0, 0); (1, 0); (2, 2); (3, 2); (4, 0)]%Z 4 2 = Ok 0x1p-53%float
  /\ B64.calc_delta_q ordem_crescente B64.soma_compensada grafo_pesado
       [(0, 0); (1, 0); (2, 2); (3, 2); (4, 2)]%Z 4 0 = Ok 0x1p-53%float
  /\ vale (calc_delta_q ordem_crescente
             (grafo_de [(0%Z, 1%Z, 9007199254740992); (2%Z, 3%Z, 9007199254740992);
                        (1%Z, 4%Z, 3); (3%Z, 4%Z, 3)])
             [(0, 0); (1, 0); (2, 2); (3, 2); (4, 0)]%Z 4 2) 0.
Proof.
  repeat split; vm_compute; reflexivity.
Qed.

(** C5: in binary64 neither [leiden] nor [louvain] returns on
    [grafo_pesado], a path of five nodes with positive weights: the
    local moving of the first level does not end, however many sweeps
    it is given and whatever the generator draws, with the [sum] of
    either version of the interpreter.  Every sweep moves a node, for a
    gain that the exact computation finds to be zero. *)
Theorem leiden_louvain_sem_retorno (fuel : nat) (s : rng) :
  B64.leiden ordem_crescente B64.soma_simples fuel grafo_pesado s = Diverge
  /\ B64.louvain ordem_crescente B64.soma_simples fuel grafo_pesado s
     = Diverge
  /\ B64.leiden ordem_crescente B64.soma_compensada fuel grafo_pesado s
     = Diverge
  /\ B64.louvain ordem_crescente B64.soma_compensada fuel grafo_pesado s
     = Diverge.
Proof.
  assert (H1 : sempre_melhora ordem_crescente B64.soma_simples
                 grafo_pesado ciclo_pesado = true)
    by (vm_compute; reflexivity).
  assert (H2 : sempre_melhora ordem_crescente B64.soma_compensada
                 grafo_pesado ciclo_pesado = true)
    by (vm_compute; reflexivity).
  assert (H0 : In (B64.particao_singular grafo_pesado) ciclo_pesado)
    by (left; reflexivity).
  unfold B64.leiden, B64.louvain.
  destruct fuel as [|fuel]; [repeat split; reflexivity|].
  cbn [B64.leiden_niveis B64.louvain_niveis]; cbv zeta.
  cbn [B64.estado_inicial B64.grafo_atual].
  rewrite (movimentacao_local_sem_retorno ordem_crescente B64.soma_simples
             grafo_pesado ciclo_pesado H1 (S fuel) _ s H0).
  rewrite (movimentacao_local_sem_retorno ordem_crescente
             B64.soma_compensada grafo_pesado ciclo_pesado H2 (S fuel) _ s
             H0).
  repeat split; reflexivity.
Qed.

(** C6, as the specification has it, fails in binary64: the aggregated
    graph need not have exactly the total weight of the graph, because
    the two totals add the same weights in different orders and every
    addition rounds.  On the path with the weights 0.1, 0.7 and 0.3 and the
    partition that puts node 2 apart, the total of the aggregated graph
    is greater than the total of the graph, whether the total is the
    sum of the weights of the edges or [G.size(weight)], with the [sum]
    of either version of the interpreter; on the path with the weights
    0.1, 0.2 and 0.3 in one community it is greater than
    [G.size(weight)]. *)
Lemma agrupar_grafo_peso_arredondado :
  (exists G',
      B64.agrupar_grafo ordem_crescente grafo_decimos_sete
        [(0, 0); (1, 0); (2, 2); (3, 0)]%Z = Ok G'
      /\ PrimFloat.ltb (peso_total_b64 B64.soma_simples grafo_decimos_sete)
                       (peso_total_b64 B64.soma_simples G') = true
      /\ PrimFloat.ltb
           (peso_total_b64 B64.soma_compensada grafo_decimos_sete)
           (peso_total_b64 B64.soma_compensada G') = true
      /\ PrimFloat.ltb (B64.size B64.soma_simples grafo_decimos_sete)
                       (B64.size B64.soma_simples G') = true
      /\ PrimFloat.ltb (B64.size B64.soma_compensada grafo_decimos_sete)
                       (B64.size B64.soma_compensada G') = true)
  /\ (exists G',
         B64.agrupar_grafo ordem_crescente grafo_decimos
           [(0, 0); (1, 0); (2, 0); (3, 0)]%Z = Ok G'
         /\ PrimFloat.ltb (B64.size B64.soma_simples grafo_decimos)
                          (B64.size B64.soma_simples G') = true
         /\ PrimFloat.ltb (B64.size B64.soma_compensada grafo_decimos)
                          (B64.size B64.soma_compensada G') = true).
Proof.
  split; eexists; (split; [vm_compute; reflexivity|]);
    repeat split; vm_compute; reflexivity.
Qed.

(** ** The history in binary64 *)

(** When [y <= x] is false of two floats, [x < y] holds or one of the
    two is not a number. *)
Lemma leb_false_ltb (x y : float) :
  PrimFloat.leb y x = false ->
  PrimFloat.ltb x y = true
  \/ PrimFloat.is_nan x = true \/ PrimFloat.is_nan y = true.
Proof.
  unfold PrimFloat.is_nan; rewrite FloatAxioms.leb_spec, FloatAxioms.ltb_spec, !FloatAxioms.eqb_spec.
  generalize (Prim2SF x) (Prim2SF y); clear x y; intros a b.
  unfold SFleb, SFltb, SFeqb.
  destruct a as [sa|sa| |sa ma ea], b as [sb|sb| |sb mb eb];
    cbn [SFcompare negb]; try (destruct sa); try (destruct sb);
    try discriminate; auto.
  all: rewrite (Z.compare_antisym ea eb).
  all: destruct (ea ?= eb)%Z; cbn [CompOpp]; try discriminate; auto.
  all: change (PosDef.Pos.compare_cont Eq mb ma) with (Pos.compare mb ma);
    change (PosDef.Pos.compare_cont Eq ma mb) with (Pos.compare ma mb);
    rewrite (Pos.compare_antisym ma mb);
    destruct (Pos.compare ma mb); cbn [CompOpp]; try discriminate; auto.
Qed.

Lemma adjacentes_snoc (R : float -> float -> Prop) (h : list float)
  (q : float) :
  adjacentes R h -> (forall h0 x, h = h0 ++ [x] -> R x q) ->
  adjacentes R (h ++ [q]).
Proof.
  induction h as [|x h IH]; intros Hc Hq; [exact I|].
  destruct h as [|y h].
  - split; [apply (Hq [] x); reflexivity | exact I].
  - destruct Hc as [Hxy Hc]; split; [assumption|].
    apply IH; [assumption|].
    intros h0 z E; apply (Hq (x :: h0) z); rewrite E; reflexivity.
Qed.

Lemma adjacentes_impl (R S : float -> float -> Prop) (h : list float) :
  (forall x y, R x y -> S x y) -> adjacentes R h -> adjacentes S h.
Proof.
  intros HRS; induction h as [|x h IH]; [trivial|].
  destruct h as [|y h]; [trivial|].
  intros [Hxy Hc]; split; [apply HRS; assumption | apply IH; assumption].
Qed.

Section HistoriaB64.

Variable set_iter : list Z -> list Z.
Variable soma : list float -> float.
Variable G_orig : B64.Graph.

(** The evaluation of a level appends a modularity only when the test
    [modularidade_atual <= melhor_modularidade] has failed. *)
Lemma avaliar_nivel_b64_historia (st : B64.estado) (P : Dict.t Z)
  (r : (Dict.t Z * list float) + B64.estado) :
  inv_historia (B64.melhor_modularidade st) (B64.modularidades_por_nivel st) ->
  B64.avaliar_nivel set_iter soma G_orig st P = Ok r ->
  match r with
  | inl (p, h) => adjacentes (fun x y => PrimFloat.leb y x = false) h
  | inr st' =>
      inv_historia (B64.melhor_modularidade st')
                   (B64.modularidades_por_nivel st')
  end.
Proof.
  intros [Hc Hl]; unfold B64.avaliar_nivel; cbv zeta.
  destruct (mapear_de_volta (B64.no_em_mapa_comunidade st) P) as [m| |];
    cbn [bind]; try discriminate.
  destruct (B64.calcular_modularidade set_iter soma G_orig m) as [q| |];
    cbn [bind]; try discriminate.
  destruct (PrimFloat.leb q (B64.melhor_modularidade st)) eqn:Ele.
  - intros E; injection E as <-; exact Hc.
  - assert (Hc' : adjacentes (fun x y => PrimFloat.leb y x = false)
                    (B64.modularidades_por_nivel st ++ [q])).
    { apply adjacentes_snoc; [exact Hc|].
      intros h0 x E; rewrite (Hl h0 x E); exact Ele. }
    destruct (B64.agrupar_grafo set_iter (B64.grafo_atual st) P)
      as [G'| |]; cbn [bind]; try discriminate.
    destruct (length (B64.nodes G')
              =? length (B64.nodes (B64.grafo_atual st)))%nat;
      intros E; injection E as <-; [exact Hc'|].
    cbn [B64.melhor_modularidade B64.modularidades_por_nivel].
    split; [exact Hc'|].
    intros h0 x E; apply app_inj_tail in E; destruct E as [_ E].
    symmetry; exact E.
Qed.

Lemma leiden_niveis_b64_historia (niveis fuel : nat) (st : B64.estado)
  (s : rng) (P : Dict.t Z) (h : list float) (s' : rng) :
  inv_historia (B64.melhor_modularidade st) (B64.modularidades_por_nivel st) ->
  B64.leiden_niveis set_iter soma niveis fuel G_orig st s = Ok (P, h, s') ->
  adjacentes (fun x y => PrimFloat.leb y x = false) h.
Proof.
  revert st s; induction niveis as [|niveis IH]; intros st s HI;
    [discriminate|].
  cbn [B64.leiden_niveis]; cbv zeta.
  destruct (B64.encontrar_movimentacao_local set_iter soma fuel
              (B64.grafo_atual st) (B64.grafo_atual st)
              (B64.particao_singular (B64.grafo_atual st)) s)
    as [[P1 s1]| |]; cbn [bind]; try discriminate.
  destruct (B64.refinar_particao set_iter soma fuel (B64.grafo_atual st)
              P1 s1) as [[P2 s2]| |]; cbn [bind]; try discriminate.
  destruct (B64.avaliar_nivel set_iter soma G_orig st P2) as [r| |] eqn:Er;
    cbn [bind]; try discriminate.
  pose proof (avaliar_nivel_b64_historia st P2 r HI Er) as Hr.
  destruct r as [[p h1]|st'].
  - intros E; injection E as <- <- <-; exact Hr.
  - apply IH; exact Hr.
Qed.

Lemma louvain_niveis_b64_historia (niveis fuel : nat) (st : B64.estado)
  (s : rng) (P : Dict.t Z) (h : list float) (s' : rng) :
  inv_historia (B64.melhor_modularidade st) (B64.modularidades_por_nivel st) ->
  B64.louvain_niveis set_iter soma niveis fuel G_orig st s = Ok (P, h, s') ->
  adjacentes (fun x y => PrimFloat.leb y x = false) h.
Proof.
  revert st s; induction niveis as [|niveis IH]; intros st s HI;
    [discriminate|].
  cbn [B64.louvain_niveis]; cbv zeta.
  destruct (B64.encontrar_movimentacao_local set_iter soma fuel
              (B64.grafo_atual st) (B64.grafo_atual st)
              (B64.particao_singular (B64.grafo_atual st)) s)
    as [[P1 s1]| |]; cbn [bind]; try discriminate.
  destruct (B64.avaliar_nivel set_iter soma G_orig st P1) as [r| |] eqn:Er;
    cbn [bind]; try discriminate.
  pose proof (avaliar_nivel_b64_historia st P1 r HI Er) as Hr.
  destruct r as [[p h1]|st'].
  - intros E; injection E as <- <- <-; exact Hr.
  - apply IH; exact Hr.
Qed.

End HistoriaB64.

(** X19: in binary64, on any graph and with either [sum], the history
    that [leiden] or [louvain] returns rises from every entry to the
    next.  The test [modularidade_atual <= melhor_modularidade] has
    failed between an entry and the one before it, so that the later
    entry is the greater of the two, unless one of the two is not a
    number. *)
Theorem leiden_louvain_historia_crescente (set_iter : list Z -> list Z)
  (soma : list float -> float) (fuel : nat) (G : B64.Graph) (s : rng)
  (P : Dict.t Z) (h : list float) (s' : rng) :
  B64.leiden set_iter soma fuel G s = Ok (P, h, s')
  \/ B64.louvain set_iter soma fuel G s = Ok (P, h, s') ->
  adjacentes (fun x y => PrimFloat.leb y x = false) h
  /\ adjacentes
       (fun x y =>
          PrimFloat.ltb x y = true
          \/ PrimFloat.is_nan x = true \/ PrimFloat.is_nan y = true) h.
Proof.
  intros E.
  assert (HI : inv_historia
                 (B64.melhor_modularidade (B64.estado_inicial G))
                 (B64.modularidades_por_nivel (B64.estado_inicial G))).
  { split; [exact I|].
    intros h0 x E0; destruct h0; discriminate. }
  assert (Hc : adjacentes (fun x y => PrimFloat.leb y x = false) h).
  { destruct E as [E|E].
    - exact (leiden_niveis_b64_historia set_iter soma G fuel fuel _ s P h
               s' HI E).
    - exact (louvain_niveis_b64_historia set_iter soma G fuel fuel _ s P h
               s' HI E). }
  split; [exact Hc|].
  apply (adjacentes_impl _ _ h leb_false_ltb Hc).
Qed.

Lemma leiden_louvain_historia_crescente_witness :
  exists P h s' P' h' s'',
    B64.leiden ordem_crescente B64.soma_simples 20 grafo_dois_niveis_b64 []
    = Ok (P, h, s')
    /\ B64.louvain ordem_crescente B64.soma_compensada 20
         grafo_dois_niveis_b64 [1; 2; 3; 4; 5]%nat
       = Ok (P', h', s'')
    /\ length h = 2%nat /\ length h' = 2%nat
    /\ (adjacentes (fun x y => PrimFloat.leb y x = false) h
        /\ adjacentes
             (fun x y =>
                PrimFloat.ltb x y = true
                \/ PrimFloat.is_nan x = true \/ PrimFloat.is_nan y = true)
             h)
    /\ (adjacentes (fun x y => PrimFloat.leb y x = false) h'
        /\ adjacentes
             (fun x y =>
                PrimFloat.ltb x y = true
                \/ PrimFloat.is_nan x = true \/ PrimFloat.is_nan y = true)
             h').
Proof.
  do 6 eexists.
  assert (E1 : B64.leiden ordem_crescente B64.soma_simples 20
                 grafo_dois_niveis_b64 [] = Ok (_, _, _))
    by (vm_compute; reflexivity).
  assert (E2 : B64.louvain ordem_crescente B64.soma_compensada 20
                 grafo_dois_niveis_b64 [1; 2; 3; 4; 5]%nat = Ok (_, _, _))
    by (vm_compute; reflexivity).
  split; [exact E1|]; split; [exact E2|].
  split; [reflexivity|]; split; [reflexivity|]; split.
  - apply (leiden_louvain_historia_crescente ordem_crescente
             B64.soma_simples 20 grafo_dois_niveis_b64 [] _ _ _
             (or_introl E1)).
  - apply (leiden_louvain_historia_crescente ordem_crescente
             B64.soma_compensada 20 grafo_dois_niveis_b64
             [1; 2; 3; 4; 5]%nat _ _ _ (or_intror E2)).
Defined.
